(** * AGV traffic simulator: pathfinding, traffic arbitration and the
      per-tick fleet update, embedded from the TypeScript sources.

    Sources embedded here:
    - [lib/pathfinding.ts]      ([buildGraph], [findPath], [findAllPaths])
    - [lib/mapGenerator.ts]     ([mulberry32], [stringToSeed], [generateMapData])
    - [lib/trafficManager.ts]   ([checkTrafficRules])
    - [hooks/useSimulation.ts]  ([spawnAgv], [updateSimulation])
    - [example.jsx]             ([handleNodeClick], the target-setting handler)

    Conventions of the embedding.
    - A JavaScript [number] that holds a coordinate, a speed or a progress
      value is a real number ([R]); rounding of IEEE doubles is not modelled.
      Counters, identifiers, time stamps and edge weights are integers ([Z]).
    - [undefined] and [null] are [None]; where the source tells the two
      apart (the [previous] table of [findPath]) both layers are kept.
    - A JavaScript object used as a dictionary is a [gmap] when only lookups
      and updates matter, and an association list when the enumeration order
      of [for ... in] matters (the graph).
    - [Math.random()] and [Date.now()] read an explicit [World]. *)

From Stdlib Require Import ZArith List String Ascii Reals Lra Lia Bool Permutation.
From Stdlib Require Import DecimalString Relation_Operators.
From stdpp Require Import gmap strings.
Import ListNotations.

Local Open Scope string_scope.
Local Open Scope list_scope.
Local Open Scope Z_scope.

(* ===================================================================== *)
(** * Data model ([types.ts]) *)
(* ===================================================================== *)

Definition NodeId := string.

Record Node := mkNode {
  node_id : NodeId;
  node_x : R;
  node_y : R;
  node_label : string
}.

Record Edge := mkEdge {
  source : NodeId;
  target : NodeId;
  edge_weight : Z
}.

Record MapData := mkMapData {
  nodes : list Node;
  edges : list Edge
}.

Record GraphNode := mkGraphNode {
  node : NodeId;
  weight : Z
}.

(** [Graph] is [{ [key: string]: GraphNode[] }].  The list order is the
    order in which [for (const node in graph)] enumerates the keys. *)
Definition Graph := list (NodeId * list GraphNode).

(** An entry of [avoidEdges]. *)
Record AvoidEdge := mkAvoidEdge {
  edge_u : NodeId;
  edge_v : NodeId
}.

(* ===================================================================== *)
(** * JavaScript primitives used by the sources *)
(* ===================================================================== *)

Module JS.

Local Open Scope R_scope.

(** [x < y], [x <= y] on numbers. *)
Definition num_lt (x y : R) : bool := if Rlt_dec x y then true else false.
Definition num_le (x y : R) : bool := if Rle_dec x y then true else false.

(** [x === y] on numbers. *)
Definition num_eq (x y : R) : bool := if Req_dec_T x y then true else false.

(** Truthiness of a [string | null]: [null] and the empty string are falsy. *)
Definition truthy (o : option string) : bool :=
  match o with
  | Some s => negb (String.eqb s "")
  | None => false
  end.

(** [a === b] on [string | undefined]. *)
Definition opt_eqb (a b : option string) : bool :=
  match a, b with
  | Some s, Some t => String.eqb s t
  | None, None => true
  | _, _ => false
  end.

(** A [string | undefined] inside a template literal. *)
Definition show (o : option string) : string :=
  match o with
  | Some s => s
  | None => "undefined"
  end.

(** [l.includes(x)] on an array of strings. *)
Definition includes (l : list string) (x : string) : bool :=
  existsb (String.eqb x) l.

(** [l.slice(0, n)]: a negative [n] counts from the end. *)
Definition slice0 {A : Type} (l : list A) (n : Z) : list A :=
  if (n <? 0)%Z
  then firstn (Z.to_nat (Z.max (Z.of_nat (length l) + n) 0)) l
  else firstn (Z.to_nat n) l.

(** [l[i]] for an integral number [i]. *)
Definition index {A : Type} (l : list A) (i : Z) : option A :=
  if (i <? 0)%Z then None else nth_error l (Z.to_nat i).

(** [Math.floor]. *)
Definition floor (x : R) : Z := Int_part x.

(** [n.toString()] of an integer and [s.slice(-4)]. *)
Definition toString (n : Z) : string := NilZero.string_of_int (Z.to_int n).
Definition slice_last4 (s : string) : string :=
  substring (String.length s - 4) 4 s.

(** [Math.atan2(y, x)], with value in (-PI, PI]. *)
Definition atan2 (y x : R) : R :=
  if Rlt_dec 0 x then atan (y / x)
  else if Rlt_dec x 0 then
         (if Rle_dec 0 y then atan (y / x) + PI else atan (y / x) - PI)
  else if Rlt_dec 0 y then PI / 2
  else if Rlt_dec y 0 then - (PI / 2)
  else 0.

(** [while (diff > Math.PI) diff -= 2 * Math.PI] and its mirror image. *)
Fixpoint wrap_down (fuel : nat) (diff : R) : R :=
  match fuel with
  | O => diff
  | S fuel' => if num_lt PI diff then wrap_down fuel' (diff - 2 * PI) else diff
  end.

Fixpoint wrap_up (fuel : nat) (diff : R) : R :=
  match fuel with
  | O => diff
  | S fuel' => if num_lt diff (- PI) then wrap_up fuel' (diff + 2 * PI) else diff
  end.

End JS.

(* ===================================================================== *)
(** * Pathfinding ([lib/pathfinding.ts]) *)
(* ===================================================================== *)

Module Pathfinding.

Import JS.

(** [graph[k]] *)
Definition graph_get (graph : Graph) (k : NodeId) : option (list GraphNode) :=
  match List.find (fun kv => String.eqb (fst kv) k) graph with
  | Some kv => Some (snd kv)
  | None => None
  end.

Definition graph_keys (graph : Graph) : list NodeId := List.map fst graph.

(** [graph[k].push(gn)]; [None] when [graph[k]] is [undefined] (the source
    raises a [TypeError] there). *)
Fixpoint graph_push (graph : Graph) (k : NodeId) (gn : GraphNode) : option Graph :=
  match graph with
  | [] => None
  | (k', ns) :: rest =>
      if String.eqb k' k then Some ((k', ns ++ [gn]) :: rest)
      else match graph_push rest k gn with
           | Some rest' => Some ((k', ns) :: rest')
           | None => None
           end
  end.

(** [graph[k] = []]: a new key goes last, an existing key keeps its place
    (node ids are a letter followed by a suffix, never integer-like keys,
    which an object would enumerate first). *)
Fixpoint graph_reset (graph : Graph) (k : NodeId) : Graph :=
  match graph with
  | [] => [(k, [])]
  | (k', ns) :: rest =>
      if String.eqb k' k then (k', []) :: rest else (k', ns) :: graph_reset rest k
  end.

Definition buildGraph (ns : list Node) (es : list Edge) : option Graph :=
  let graph0 := fold_left (fun g n => graph_reset g (node_id n)) ns [] in
  fold_left
    (fun og e =>
       match og with
       | None => None
       | Some g =>
           match graph_push g (source e) (mkGraphNode (target e) (edge_weight e)) with
           | None => None
           | Some g1 => graph_push g1 (target e) (mkGraphNode (source e) (edge_weight e))
           end
       end)
    es (Some graph0).

(** A value stored in [distances]: a finite number or [Infinity]. *)
Inductive Cost :=
| Fin (z : Z)
| Infinity.

(** [distances] and [previous].  A missing key reads as [undefined]
    ([None]); in [previous] the stored value is [null] ([Some None]) or a
    node ([Some (Some u)]). *)
Abbreviation Distances := (gmap NodeId Cost).
Abbreviation Previous := (gmap NodeId (option NodeId)).

(** Strict order of two table entries, as [<] and as the sign of
    [distances[a] - distances[b]] in the comparator of [queue.sort]:
    negative exactly when [distances[a]] is strictly smaller;
    [Infinity - Infinity] and anything involving [undefined] is [NaN],
    which [<] answers with [false] and [sort] treats as equal. *)
Definition cost_lt (a b : option Cost) : bool :=
  match a, b with
  | Some (Fin x), Some (Fin y) => x <? y
  | Some (Fin _), Some Infinity => true
  | _, _ => false
  end.

Definition cmp_lt (distances : Distances) (a b : NodeId) : bool :=
  cost_lt (distances !! a) (distances !! b).

(** [queue.sort(cmp)] is a stable sort: insertion from the right. *)
Fixpoint sort_insert (distances : Distances) (a : NodeId) (l : list NodeId) : list NodeId :=
  match l with
  | [] => [a]
  | b :: l' =>
      if cmp_lt distances b a then b :: sort_insert distances a l'
      else a :: b :: l'
  end.

Definition sort_queue (distances : Distances) (queue : list NodeId) : list NodeId :=
  fold_right (sort_insert distances) [] queue.

Definition isEdgeAvoided (avoidEdges : list AvoidEdge) (u v : NodeId) : bool :=
  existsb (fun e =>
             (String.eqb (edge_u e) u && String.eqb (edge_v e) v)
             || (String.eqb (edge_u e) v && String.eqb (edge_v e) u))
          avoidEdges.

(** [alt < distances[v]] where [alt = distances[u] + w]. *)
Definition alt_of (distances : Distances) (u : NodeId) (w : Z) : option Cost :=
  match distances !! u with
  | Some (Fin du) => Some (Fin (du + w))
  | Some Infinity => Some Infinity
  | None => None
  end.

(** Body of [for (const neighbor of graph[u])]. *)
Definition relax (avoidNodes : list NodeId) (avoidEdges : list AvoidEdge)
    (u : NodeId) (st : Distances * Previous) (neighbor : GraphNode)
    : Distances * Previous :=
  if includes avoidNodes (node neighbor) then st
  else if isEdgeAvoided avoidEdges u (node neighbor) then st
  else
    match alt_of (fst st) u (weight neighbor) with
    | Some alt =>
        if cost_lt (Some alt) (fst st !! node neighbor)
        then (<[node neighbor := alt]> (fst st), <[node neighbor := Some u]> (snd st))
        else st
    | None => st
    end.

(** The [while (queue.length > 0)] loop.  Every iteration shifts one
    element off the queue, so [fuel = queue.length] iterations exhaust it. *)
Fixpoint dijkstra (fuel : nat) (graph : Graph) (targetNodeId : NodeId)
    (avoidNodes : list NodeId) (avoidEdges : list AvoidEdge)
    (queue : list NodeId) (st : Distances * Previous) : Distances * Previous :=
  match fuel with
  | O => st
  | S fuel' =>
      match sort_queue (fst st) queue with
      | [] => st
      | u :: queue' =>
          if String.eqb u "" then st                      (* if (!u) break *)
          else if String.eqb u targetNodeId then st       (* reached target *)
          else
            match fst st !! u with
            | Some Infinity => st                           (* unreachable rest *)
            | _ =>
                match graph_get graph u with
                | Some neighbors =>
                    dijkstra fuel' graph targetNodeId avoidNodes avoidEdges queue'
                      (fold_left (relax avoidNodes avoidEdges u) neighbors st)
                | None => st                        (* [u] is a key of [graph] *)
                end
            end
      end
  end.

(** [while (u !== null) { path.unshift(u); u = previous[u]; }].
    [None] is returned when the loop does not reach [null]: either
    [previous[u]] is [undefined] (the source then loops on [undefined]
    for ever, no key being named so), or the [previous] chain is cyclic. *)
Fixpoint walk_back (fuel : nat) (previous : Previous) (u : NodeId)
    (path : list NodeId) : option (list NodeId) :=
  match fuel with
  | O => None
  | S fuel' =>
      match previous !! u with
      | Some None => Some (u :: path)
      | Some (Some u') => walk_back fuel' previous u' (u :: path)
      | None => None
      end
  end.

Definition init_tables (graph : Graph) (startNodeId : NodeId) : Distances * Previous :=
  let keys := graph_keys graph in
  (<[startNodeId := Fin 0]> (fold_left (fun d k => <[k := Infinity]> d) keys ∅),
   fold_left (fun p k => <[k := None]> p) keys ∅).

(** [findPath]; [None] when the reconstruction loop does not terminate. *)
Definition findPath (startNodeId targetNodeId : NodeId) (graph : Graph)
    (avoidNodes : list NodeId) (avoidEdges : list AvoidEdge)
    : option (list NodeId) :=
  let keys := graph_keys graph in
  let st := dijkstra (length keys) graph targetNodeId avoidNodes avoidEdges keys
              (init_tables graph startNodeId) in
  let previous := snd st in
  if match previous !! targetNodeId with Some None => false | _ => true end
     || String.eqb targetNodeId startNodeId
  then
    match walk_back (S (length keys)) previous targetNodeId [] with
    | Some path => Some (tl path)               (* path.slice(1) *)
    | None => None
    end
  else Some [].

End Pathfinding.


(* ===================================================================== *)
(** * Paths of a graph under avoidance constraints *)
(* ===================================================================== *)

(** What [findPath] is meant to compute, stated on the graph alone. *)
Module PathSpec.

Import Pathfinding.

(** The graph as an object built by [buildGraph]: the keys are distinct
    and none is the empty string, every neighbour is a key, and every
    weight is a positive integer. *)
Definition graph_wf (graph : Graph) : Prop :=
  List.NoDup (graph_keys graph)
  /\ ~ In "" (graph_keys graph)
  /\ forall u nbrs gn,
       graph_get graph u = Some nbrs -> In gn nbrs ->
       In (node gn) (graph_keys graph) /\ 0 < weight gn.

Section Walks.

Variables (graph : Graph) (avoidNodes : list NodeId) (avoidEdges : list AvoidEdge).

(** The undirected edge [u - v] is listed in [avoidEdges]. *)
Definition edge_avoided (u v : NodeId) : Prop :=
  exists e, In e avoidEdges
            /\ ((edge_u e = u /\ edge_v e = v) \/ (edge_u e = v /\ edge_v e = u)).

(** A step from [u] to its neighbour [v] over an edge of weight [w] that
    obeys the constraints: [v] is not avoided and neither is the edge. *)
Definition allowed_edge (u v : NodeId) (w : Z) : Prop :=
  (exists nbrs, graph_get graph u = Some nbrs /\ In (mkGraphNode v w) nbrs)
  /\ ~ In v avoidNodes
  /\ ~ edge_avoided u v.

(** [walk s steps t c]: [steps] is the node sequence, without the start
    node [s], of a path from [s] to [t] of total cost [c]. *)
Inductive walk : NodeId -> list NodeId -> NodeId -> Z -> Prop :=
| walk_nil (s : NodeId) : walk s [] s 0
| walk_step (s v t : NodeId) (steps : list NodeId) (w c : Z) :
    allowed_edge s v w -> walk v steps t c -> walk s (v :: steps) t (w + c).

Definition reachable (s t : NodeId) : Prop := exists steps c, walk s steps t c.

(** [steps] is a path from [s] to [t] of minimum cost. *)
Definition min_cost_path (s : NodeId) (steps : list NodeId) (t : NodeId) : Prop :=
  exists c, walk s steps t c
            /\ forall steps' c', walk s steps' t c' -> c <= c'.

End Walks.

(** A checker for [graph_wf]. *)
Fixpoint distinct (l : list NodeId) : bool :=
  match l with
  | [] => true
  | x :: l' => negb (JS.includes l' x) && distinct l'
  end.

Definition graph_wfb (graph : Graph) : bool :=
  distinct (graph_keys graph)
  && negb (JS.includes (graph_keys graph) "")
  && forallb (fun kv =>
                forallb (fun gn => JS.includes (graph_keys graph) (node gn)
                                   && (0 <? weight gn))
                        (snd kv))
             graph.

End PathSpec.

(* ===================================================================== *)
(** * The loop invariant of [findPath] *)
(* ===================================================================== *)

Module DijkstraInv.

Import JS Pathfinding PathSpec.

Section Invariant.

Variables (graph : Graph) (start : NodeId)
          (avoidNodes : list NodeId) (avoidEdges : list AvoidEdge).

(** A key that has left the queue. *)
Definition settled (queue : list NodeId) (u : NodeId) : Prop :=
  In u (graph_keys graph) /\ ~ In u queue.

(** The neighbour [v] of [u] passes the two [continue] tests. *)
Definition passes (u v : NodeId) : Prop :=
  includes avoidNodes v = false /\ isEdgeAvoided avoidEdges u v = false.

(** The tables after the [for] loop over [nbrs] at [u], whose entry is
    [xu]: every entry is as before or was lowered to [xu + w] through a
    listed neighbour, and no listed neighbour is left above [xu + w]. *)
Definition relaxed_from (u : NodeId) (xu : Z) (nbrs : list GraphNode)
    (d : gmap NodeId Cost) (p : gmap NodeId (option NodeId))
    (d' : gmap NodeId Cost) (p' : gmap NodeId (option NodeId)) : Prop :=
  d' !! u = Some (Fin xu)
  /\ (forall k,
        (d' !! k = d !! k /\ p' !! k = p !! k)
        \/ exists w, In (mkGraphNode k w) nbrs /\ passes u k
                     /\ d' !! k = Some (Fin (xu + w))
                     /\ p' !! k = Some (Some u)
                     /\ cost_lt (Some (Fin (xu + w))) (d !! k) = true)
  /\ (forall v w c,
        In (mkGraphNode v w) nbrs -> passes u v -> d !! v = Some c ->
        exists y, d' !! v = Some (Fin y) /\ y <= xu + w).

(** The loop invariant of [while (queue.length > 0)]. *)
Record Inv (queue : list NodeId) (d : gmap NodeId Cost)
    (p : gmap NodeId (option NodeId)) : Prop := mkInv {
  inv_nodup : List.NoDup queue;
  inv_incl : incl queue (graph_keys graph);
  inv_dom : forall k, In k (graph_keys graph) -> exists c, d !! k = Some c;
  inv_start : d !! start = Some (Fin 0) /\ p !! start = Some None;
  inv_nonneg : forall k x, d !! k = Some (Fin x) -> 0 <= x;
  inv_inf : forall k, In k (graph_keys graph) -> d !! k = Some Infinity ->
                      p !! k = Some None;
  inv_tree : forall k x,
      In k (graph_keys graph) -> k <> start -> d !! k = Some (Fin x) ->
      exists u w y,
        p !! k = Some (Some u) /\ settled queue u /\ d !! u = Some (Fin y)
        /\ allowed_edge graph avoidNodes avoidEdges u k w /\ x = y + w;
  inv_settled_fin : forall u, settled queue u -> exists x, d !! u = Some (Fin x);
  inv_settled_le : forall u v x,
      settled queue u -> In v queue -> d !! u = Some (Fin x) ->
      cost_lt (d !! v) (Some (Fin x)) = false;
  inv_relaxed : forall u v w x,
      settled queue u -> d !! u = Some (Fin x) ->
      allowed_edge graph avoidNodes avoidEdges u v w ->
      exists y, d !! v = Some (Fin y) /\ y <= x + w
}.

(** The number of keys whose entry is below that of [v]: it bounds the
    length of the [previous] chain from [v]. *)
Definition rank (d : gmap NodeId Cost) (v : NodeId) : nat :=
  length (List.filter (fun k => cost_lt (d !! k) (d !! v)) (graph_keys graph)).

(** What the loop leaves behind for the target: the invariant for some
    queue, and an entry that is a lower bound for every walk. *)
Definition loop_post (target : NodeId) (d : gmap NodeId Cost)
    (p : gmap NodeId (option NodeId)) : Prop :=
  (exists queue, Inv queue d p)
  /\ forall steps c, walk graph avoidNodes avoidEdges start steps target c ->
                     exists x, d !! target = Some (Fin x) /\ x <= c.

End Invariant.

End DijkstraInv.

(* ===================================================================== *)
(** * The AGV record ([types.ts], fields as written by [spawnAgv]) *)
(* ===================================================================== *)

Inductive AGVStatus :=
| IDLE | MOVING | WAITING | PLANNING | COMPLETED | REPATHING | BLOCKED | DETOUR.

(** [id], [x] and [y] of the source are [agv_id], [agv_x] and [agv_y];
    [color] holds the hue [h] of the string [hsl(h, 70%, 50%)]. *)
Record AGV := mkAGV {
  agv_id : Z;
  agv_x : R;
  agv_y : R;
  currentNode : NodeId;
  previousNode : option NodeId;
  targetNode : option NodeId;
  path : list NodeId;
  progress : R;
  progressDistance : R;
  orientation : R;
  status : AGVStatus;
  color : R;
  waitTimer : Z;
  waitReason : option string;
  maxSpeed : R;
  acceleration : R;
  deceleration : R;
  safetyDistance : R;
  hardBorrowLength : Z;
  currentSpeed : R;
  retryCount : Z;
  pathRank : Z;
  reservedNodes : list NodeId;
  pathPlanningTime : Z
}.

(** Field updates, for the object spreads [{ ...agv, f: v }]. *)
Definition set_agv_x (v : R) (a : AGV) : AGV :=
  mkAGV (agv_id a) v (agv_y a) (currentNode a) (previousNode a) (targetNode a) (path a)
    (progress a) (progressDistance a) (orientation a) (status a) (color a) (waitTimer a)
    (waitReason a) (maxSpeed a) (acceleration a) (deceleration a) (safetyDistance a)
    (hardBorrowLength a) (currentSpeed a) (retryCount a) (pathRank a) (reservedNodes a)
    (pathPlanningTime a).
Definition set_agv_y (v : R) (a : AGV) : AGV :=
  mkAGV (agv_id a) (agv_x a) v (currentNode a) (previousNode a) (targetNode a) (path a)
    (progress a) (progressDistance a) (orientation a) (status a) (color a) (waitTimer a)
    (waitReason a) (maxSpeed a) (acceleration a) (deceleration a) (safetyDistance a)
    (hardBorrowLength a) (currentSpeed a) (retryCount a) (pathRank a) (reservedNodes a)
    (pathPlanningTime a).
Definition set_currentNode (v : NodeId) (a : AGV) : AGV :=
  mkAGV (agv_id a) (agv_x a) (agv_y a) v (previousNode a) (targetNode a) (path a)
    (progress a) (progressDistance a) (orientation a) (status a) (color a) (waitTimer a)
    (waitReason a) (maxSpeed a) (acceleration a) (deceleration a) (safetyDistance a)
    (hardBorrowLength a) (currentSpeed a) (retryCount a) (pathRank a) (reservedNodes a)
    (pathPlanningTime a).
Definition set_previousNode (v : option NodeId) (a : AGV) : AGV :=
  mkAGV (agv_id a) (agv_x a) (agv_y a) (currentNode a) v (targetNode a) (path a)
    (progress a) (progressDistance a) (orientation a) (status a) (color a) (waitTimer a)
    (waitReason a) (maxSpeed a) (acceleration a) (deceleration a) (safetyDistance a)
    (hardBorrowLength a) (currentSpeed a) (retryCount a) (pathRank a) (reservedNodes a)
    (pathPlanningTime a).
Definition set_targetNode (v : option NodeId) (a : AGV) : AGV :=
  mkAGV (agv_id a) (agv_x a) (agv_y a) (currentNode a) (previousNode a) v (path a)
    (progress a) (progressDistance a) (orientation a) (status a) (color a) (waitTimer a)
    (waitReason a) (maxSpeed a) (acceleration a) (deceleration a) (safetyDistance a)
    (hardBorrowLength a) (currentSpeed a) (retryCount a) (pathRank a) (reservedNodes a)
    (pathPlanningTime a).
Definition set_path (v : list NodeId) (a : AGV) : AGV :=
  mkAGV (agv_id a) (agv_x a) (agv_y a) (currentNode a) (previousNode a) (targetNode a) v
    (progress a) (progressDistance a) (orientation a) (status a) (color a) (waitTimer a)
    (waitReason a) (maxSpeed a) (acceleration a) (deceleration a) (safetyDistance a)
    (hardBorrowLength a) (currentSpeed a) (retryCount a) (pathRank a) (reservedNodes a)
    (pathPlanningTime a).
Definition set_progress (v : R) (a : AGV) : AGV :=
  mkAGV (agv_id a) (agv_x a) (agv_y a) (currentNode a) (previousNode a) (targetNode a)
    (path a) v (progressDistance a) (orientation a) (status a) (color a) (waitTimer a)
    (waitReason a) (maxSpeed a) (acceleration a) (deceleration a) (safetyDistance a)
    (hardBorrowLength a) (currentSpeed a) (retryCount a) (pathRank a) (reservedNodes a)
    (pathPlanningTime a).
Definition set_progressDistance (v : R) (a : AGV) : AGV :=
  mkAGV (agv_id a) (agv_x a) (agv_y a) (currentNode a) (previousNode a) (targetNode a)
    (path a) (progress a) v (orientation a) (status a) (color a) (waitTimer a)
    (waitReason a) (maxSpeed a) (acceleration a) (deceleration a) (safetyDistance a)
    (hardBorrowLength a) (currentSpeed a) (retryCount a) (pathRank a) (reservedNodes a)
    (pathPlanningTime a).
Definition set_orientation (v : R) (a : AGV) : AGV :=
  mkAGV (agv_id a) (agv_x a) (agv_y a) (currentNode a) (previousNode a) (targetNode a)
    (path a) (progress a) (progressDistance a) v (status a) (color a) (waitTimer a)
    (waitReason a) (maxSpeed a) (acceleration a) (deceleration a) (safetyDistance a)
    (hardBorrowLength a) (currentSpeed a) (retryCount a) (pathRank a) (reservedNodes a)
    (pathPlanningTime a).
Definition set_status (v : AGVStatus) (a : AGV) : AGV :=
  mkAGV (agv_id a) (agv_x a) (agv_y a) (currentNode a) (previousNode a) (targetNode a)
    (path a) (progress a) (progressDistance a) (orientation a) v (color a) (waitTimer a)
    (waitReason a) (maxSpeed a) (acceleration a) (deceleration a) (safetyDistance a)
    (hardBorrowLength a) (currentSpeed a) (retryCount a) (pathRank a) (reservedNodes a)
    (pathPlanningTime a).
Definition set_waitTimer (v : Z) (a : AGV) : AGV :=
  mkAGV (agv_id a) (agv_x a) (agv_y a) (currentNode a) (previousNode a) (targetNode a)
    (path a) (progress a) (progressDistance a) (orientation a) (status a) (color a) v
    (waitReason a) (maxSpeed a) (acceleration a) (deceleration a) (safetyDistance a)
    (hardBorrowLength a) (currentSpeed a) (retryCount a) (pathRank a) (reservedNodes a)
    (pathPlanningTime a).
Definition set_waitReason (v : option string) (a : AGV) : AGV :=
  mkAGV (agv_id a) (agv_x a) (agv_y a) (currentNode a) (previousNode a) (targetNode a)
    (path a) (progress a) (progressDistance a) (orientation a) (status a) (color a)
    (waitTimer a) v (maxSpeed a) (acceleration a) (deceleration a) (safetyDistance a)
    (hardBorrowLength a) (currentSpeed a) (retryCount a) (pathRank a) (reservedNodes a)
    (pathPlanningTime a).
Definition set_currentSpeed (v : R) (a : AGV) : AGV :=
  mkAGV (agv_id a) (agv_x a) (agv_y a) (currentNode a) (previousNode a) (targetNode a)
    (path a) (progress a) (progressDistance a) (orientation a) (status a) (color a)
    (waitTimer a) (waitReason a) (maxSpeed a) (acceleration a) (deceleration a)
    (safetyDistance a) (hardBorrowLength a) v (retryCount a) (pathRank a)
    (reservedNodes a) (pathPlanningTime a).
Definition set_retryCount (v : Z) (a : AGV) : AGV :=
  mkAGV (agv_id a) (agv_x a) (agv_y a) (currentNode a) (previousNode a) (targetNode a)
    (path a) (progress a) (progressDistance a) (orientation a) (status a) (color a)
    (waitTimer a) (waitReason a) (maxSpeed a) (acceleration a) (deceleration a)
    (safetyDistance a) (hardBorrowLength a) (currentSpeed a) v (pathRank a)
    (reservedNodes a) (pathPlanningTime a).
Definition set_pathRank (v : Z) (a : AGV) : AGV :=
  mkAGV (agv_id a) (agv_x a) (agv_y a) (currentNode a) (previousNode a) (targetNode a)
    (path a) (progress a) (progressDistance a) (orientation a) (status a) (color a)
    (waitTimer a) (waitReason a) (maxSpeed a) (acceleration a) (deceleration a)
    (safetyDistance a) (hardBorrowLength a) (currentSpeed a) (retryCount a) v
    (reservedNodes a) (pathPlanningTime a).
Definition set_reservedNodes (v : list NodeId) (a : AGV) : AGV :=
  mkAGV (agv_id a) (agv_x a) (agv_y a) (currentNode a) (previousNode a) (targetNode a)
    (path a) (progress a) (progressDistance a) (orientation a) (status a) (color a)
    (waitTimer a) (waitReason a) (maxSpeed a) (acceleration a) (deceleration a)
    (safetyDistance a) (hardBorrowLength a) (currentSpeed a) (retryCount a) (pathRank a)
    v (pathPlanningTime a).
Definition set_pathPlanningTime (v : Z) (a : AGV) : AGV :=
  mkAGV (agv_id a) (agv_x a) (agv_y a) (currentNode a) (previousNode a) (targetNode a)
    (path a) (progress a) (progressDistance a) (orientation a) (status a) (color a)
    (waitTimer a) (waitReason a) (maxSpeed a) (acceleration a) (deceleration a)
    (safetyDistance a) (hardBorrowLength a) (currentSpeed a) (retryCount a) (pathRank a)
    (reservedNodes a) v.
Definition set_maxSpeed (v : R) (a : AGV) : AGV :=
  mkAGV (agv_id a) (agv_x a) (agv_y a) (currentNode a) (previousNode a) (targetNode a)
    (path a) (progress a) (progressDistance a) (orientation a) (status a) (color a)
    (waitTimer a) (waitReason a) v (acceleration a) (deceleration a) (safetyDistance a)
    (hardBorrowLength a) (currentSpeed a) (retryCount a) (pathRank a) (reservedNodes a)
    (pathPlanningTime a).
Definition set_acceleration (v : R) (a : AGV) : AGV :=
  mkAGV (agv_id a) (agv_x a) (agv_y a) (currentNode a) (previousNode a) (targetNode a)
    (path a) (progress a) (progressDistance a) (orientation a) (status a) (color a)
    (waitTimer a) (waitReason a) (maxSpeed a) v (deceleration a) (safetyDistance a)
    (hardBorrowLength a) (currentSpeed a) (retryCount a) (pathRank a) (reservedNodes a)
    (pathPlanningTime a).
Definition set_deceleration (v : R) (a : AGV) : AGV :=
  mkAGV (agv_id a) (agv_x a) (agv_y a) (currentNode a) (previousNode a) (targetNode a)
    (path a) (progress a) (progressDistance a) (orientation a) (status a) (color a)
    (waitTimer a) (waitReason a) (maxSpeed a) (acceleration a) v (safetyDistance a)
    (hardBorrowLength a) (currentSpeed a) (retryCount a) (pathRank a) (reservedNodes a)
    (pathPlanningTime a).
Definition set_safetyDistance (v : R) (a : AGV) : AGV :=
  mkAGV (agv_id a) (agv_x a) (agv_y a) (currentNode a) (previousNode a) (targetNode a)
    (path a) (progress a) (progressDistance a) (orientation a) (status a) (color a)
    (waitTimer a) (waitReason a) (maxSpeed a) (acceleration a) (deceleration a) v
    (hardBorrowLength a) (currentSpeed a) (retryCount a) (pathRank a) (reservedNodes a)
    (pathPlanningTime a).
Definition set_hardBorrowLength (v : Z) (a : AGV) : AGV :=
  mkAGV (agv_id a) (agv_x a) (agv_y a) (currentNode a) (previousNode a) (targetNode a)
    (path a) (progress a) (progressDistance a) (orientation a) (status a) (color a)
    (waitTimer a) (waitReason a) (maxSpeed a) (acceleration a) (deceleration a)
    (safetyDistance a) v (currentSpeed a) (retryCount a) (pathRank a) (reservedNodes a)
    (pathPlanningTime a).


(* ===================================================================== *)
(** * Traffic manager ([lib/trafficManager.ts]) *)
(* ===================================================================== *)

Module TrafficManager.

Import JS Pathfinding.
Local Open Scope R_scope.

Inductive Action := MOVE | WAIT | REPATH_HEAD_ON.

Record TrafficCheckResult := mkResult {
  action : Action;
  conflictReason : option string;
  avoidData : option AvoidEdge;
  blockerId : option Z
}.

(** [Math.sqrt(Math.pow(x1 - x2, 2) + Math.pow(y1 - y2, 2))] *)
Definition dist (x1 y1 x2 y2 : R) : R :=
  sqrt ((x1 - x2) ^ 2 + (y1 - y2) ^ 2).

Section Rules.

Variables (currentAgv : AGV) (currentNodeObj nextNodeObj : Node).

Let myCurrent := currentNode currentAgv.
Let myNext := hd_error (path currentAgv).

(** The "Hard Path Borrow Check" that precedes the loop. *)
Definition reservation_check (allAgvs : list AGV) : option TrafficCheckResult :=
  if num_lt (progress currentAgv) 0.05 && (0 <? length (path currentAgv))%nat
  then
    match myNext with
    | Some myNextNode =>
        match List.find (fun other =>
                      negb (agv_id other =? agv_id currentAgv)%Z
                      && includes (reservedNodes other) myNextNode) allAgvs with
        | Some reservingAgv =>
            Some (mkResult WAIT (Some ("Node " +:+ myNextNode +:+ " Reserved"))
                           None (Some (agv_id reservingAgv)))
        | None => None
        end
    | None => None
    end
  else None.

(** 1. Head-On Collision Prevention *)
Definition rule_head_on (other : AGV) : option TrafficCheckResult :=
  let otherCurrent := currentNode other in
  let otherNext := hd_error (path other) in
  if opt_eqb myNext (Some otherCurrent) && opt_eqb otherNext (Some myCurrent)
  then Some (mkResult REPATH_HEAD_ON
               (Some ("Head-on w/ AGV-" +:+ slice_last4 (toString (agv_id other))))
               (Some (mkAvoidEdge myCurrent otherCurrent))   (* v: myNext *)
               (Some (agv_id other)))
  else None.

(** 2. "Borrow Path Blocked" (Node Entry Safety/Queueing) *)
Definition rule_entry (other : AGV) : option TrafficCheckResult :=
  let otherCurrent := currentNode other in
  let otherNext := hd_error (path other) in
  if num_lt (progress currentAgv) 0.05 then
    (* Conflict A: destination occupied by a stationary AGV *)
    if opt_eqb (Some otherCurrent) myNext && num_lt (progress other) 0.05
    then Some (mkResult WAIT (Some ("Dest " +:+ show myNext +:+ " Occupied"))
                        None (Some (agv_id other)))
    else
      (* Conflict B: destination contention, closer goes first *)
      if opt_eqb otherNext myNext then
        let myDist := dist (node_x nextNodeObj) (node_y nextNodeObj)
                           (agv_x currentAgv) (agv_y currentAgv) in
        let otherDist := dist (node_x nextNodeObj) (node_y nextNodeObj)
                              (agv_x other) (agv_y other) in
        if num_lt otherDist myDist
           || (num_lt (Rabs (otherDist - myDist)) 5
               && (agv_id other <? agv_id currentAgv)%Z)
        then Some (mkResult WAIT
                     (Some ("Yield Entry to " +:+ show myNext +:+ " (Queue)"))
                     None (Some (agv_id other)))
        else None
      else None
  else None.

(** 3. Node Occupied (Standard Check for Moving AGVs) *)
Definition rule_occupied (other : AGV) : option TrafficCheckResult :=
  let otherCurrent := currentNode other in
  if opt_eqb myNext (Some otherCurrent) then
    let distToOther := dist (node_x currentNodeObj) (node_y currentNodeObj)
                            (agv_x other) (agv_y other) in
    if num_lt distToOther 60
    then Some (mkResult WAIT (Some ("Waiting Node " +:+ show myNext))
                        None (Some (agv_id other)))
    else None
  else None.

(** 4. Merge Priority (Mid-Edge Conflict) *)
Definition rule_merge (other : AGV) : option TrafficCheckResult :=
  let otherNext := hd_error (path other) in
  if opt_eqb myNext otherNext && num_le 0.05 (progress currentAgv) then
    let myDist := dist (node_x nextNodeObj) (node_y nextNodeObj)
                       (agv_x currentAgv) (agv_y currentAgv) in
    let otherDist := dist (node_x nextNodeObj) (node_y nextNodeObj)
                          (agv_x other) (agv_y other) in
    if num_lt (otherDist + 15) myDist
    then Some (mkResult WAIT (Some "Merge Yield") None (Some (agv_id other)))
    else None
  else None.

(** 5. Directional Proximity (Front/Back Sensor).  On an edge of length 0
    the source computes [moveX] and [moveY] as [NaN], so that
    [futureDist < physDist] is false; here they are 0 and the test is false
    as well. *)
Definition rule_sensor (other : AGV) : option TrafficCheckResult :=
  let physDist := dist (agv_x currentAgv) (agv_y currentAgv)
                       (agv_x other) (agv_y other) in
  if num_lt physDist (safetyDistance currentAgv) then
    let dx := node_x nextNodeObj - node_x currentNodeObj in
    let dy := node_y nextNodeObj - node_y currentNodeObj in
    let headingAngle := atan2 dy dx in
    let otherDx := agv_x other - agv_x currentAgv in
    let otherDy := agv_y other - agv_y currentAgv in
    let angleToOther := atan2 otherDy otherDx in
    let diff := wrap_up 2 (wrap_down 2 (angleToOther - headingAngle)) in
    let isObstacleInFront := num_lt (Rabs diff) (PI / 2) in
    if isObstacleInFront then
      let totalDist := sqrt (dx * dx + dy * dy) in
      let moveX := (dx / totalDist) * currentSpeed currentAgv in
      let moveY := (dy / totalDist) * currentSpeed currentAgv in
      let futureX := agv_x currentAgv + moveX in
      let futureY := agv_y currentAgv + moveY in
      let futureDist := dist futureX futureY (agv_x other) (agv_y other) in
      if num_lt futureDist physDist
      then Some (mkResult WAIT (Some "Front Sensor: Stop") None (Some (agv_id other)))
      else None
    else None
  else None.

(** One iteration of [for (const other of allAgvs)]: [Some r] is a
    [break] with the result [r] assigned, [None] runs to the end of the
    body (or [continue]s on the AGV itself). *)
Definition check_other (other : AGV) : option TrafficCheckResult :=
  if (agv_id other =? agv_id currentAgv)%Z then None
  else
    match rule_head_on other with
    | Some r => Some r
    | None =>
    match rule_entry other with
    | Some r => Some r
    | None =>
    match rule_occupied other with
    | Some r => Some r
    | None =>
    match rule_merge other with
    | Some r => Some r
    | None => rule_sensor other
    end end end end.

Fixpoint scan_others (allAgvs : list AGV) : TrafficCheckResult :=
  match allAgvs with
  | [] => mkResult MOVE None None None
  | other :: rest =>
      match check_other other with
      | Some r => r
      | None => scan_others rest
      end
  end.

(** [checkTrafficRules(currentAgv, allAgvs, currentNodeObj, nextNodeObj)];
    here the snapshot is the last argument. *)
Definition checkTrafficRules (allAgvs : list AGV) : TrafficCheckResult :=
  match reservation_check allAgvs with
  | Some r => r
  | None => scan_others allAgvs
  end.

End Rules.

End TrafficManager.

(* ===================================================================== *)
(** * Ambient effects: [Math.random()], [Date.now()], exceptions *)
(* ===================================================================== *)

(** The values the host hands out: the [n]-th call of [Math.random()]
    returns [random_tape n], the [n]-th call of [Date.now()] returns
    [clock_tape n]. *)
Record World := mkWorld {
  random_tape : nat -> R;
  random_pos : nat;
  clock_tape : nat -> Z;
  clock_pos : nat
}.

(** How a piece of code ends: it returns, it throws a [TypeError]
    (a property of [undefined] is read), it never returns, or it returns a
    record that holds [NaN] or an infinity, which the real numbers used
    here for the numbers of the source do not have. *)
Inductive Completion (A : Type) :=
| Normal (a : A)
| ThrowTypeError
| Loops
| NonFinite.

Arguments Normal {A} a.
Arguments ThrowTypeError {A}.
Arguments Loops {A}.
Arguments NonFinite {A}.

Definition M (A : Type) : Type := World -> Completion A * World.

Definition ret {A : Type} (a : A) : M A := fun w => (Normal a, w).

Definition bind {A B : Type} (m : M A) (k : A -> M B) : M B :=
  fun w =>
    match m w with
    | (Normal a, w') => k a w'
    | (ThrowTypeError, w') => (ThrowTypeError, w')
    | (Loops, w') => (Loops, w')
    | (NonFinite, w') => (NonFinite, w')
    end.

Notation "'let*' x ':=' m 'in' k" := (bind m (fun x => k))
  (at level 10, x name, m at level 100, k at level 200).

Definition throwTypeError {A : Type} : M A := fun w => (ThrowTypeError, w).
Definition loops {A : Type} : M A := fun w => (Loops, w).
Definition nonFinite {A : Type} : M A := fun w => (NonFinite, w).

Definition Math_random : M R :=
  fun w => (Normal (random_tape w (random_pos w)),
            mkWorld (random_tape w) (S (random_pos w)) (clock_tape w) (clock_pos w)).

Definition Date_now : M Z :=
  fun w => (Normal (clock_tape w (clock_pos w)),
            mkWorld (random_tape w) (random_pos w) (clock_tape w) (S (clock_pos w))).

(** Reading a property of a possibly [undefined] object. *)
Definition defined {A : Type} (o : option A) : M A :=
  match o with
  | Some a => ret a
  | None => throwTypeError
  end.

(** A record computed with numbers: [None] when one of them is not finite. *)
Definition finite {A : Type} (o : option A) : M A :=
  match o with
  | Some a => ret a
  | None => nonFinite
  end.

(** A call of [findPath]. *)
Definition call_findPath (startNodeId targetNodeId : NodeId) (graph : Graph)
    (avoidNodes : list NodeId) (avoidEdges : list AvoidEdge) : M (list NodeId) :=
  match Pathfinding.findPath startNodeId targetNodeId graph avoidNodes avoidEdges with
  | Some p => ret p
  | None => loops
  end.

(** [l.map(f)] for an effectful callback, left to right. *)
Fixpoint mapM {A B : Type} (f : A -> M B) (l : list A) : M (list B) :=
  match l with
  | [] => ret []
  | a :: l' => let* b := f a in let* bs := mapM f l' in ret (b :: bs)
  end.

(* ===================================================================== *)
(** * The simulation hook ([hooks/useSimulation.ts]) *)
(* ===================================================================== *)

Module Simulation.

Import JS Pathfinding TrafficManager.
Local Open Scope R_scope.

Definition RETRY_INTERVAL : Z := 60.

Record FleetConfig := mkFleetConfig {
  fc_maxSpeed : R;
  fc_acceleration : R;
  fc_deceleration : R;
  fc_safetyDistance : R;
  fc_hardBorrowLength : Z
}.

(** The state cells of the hook. *)
Record SimState := mkSimState {
  agvs : list AGV;
  isPlaying : bool;
  randomMoveMode : bool;
  selectedAgvId : option Z;
  fleetConfig : FleetConfig
}.

Definition set_agvs (v : list AGV) (s : SimState) : SimState :=
  mkSimState v (isPlaying s) (randomMoveMode s) (selectedAgvId s) (fleetConfig s).
Definition set_isPlaying (v : bool) (s : SimState) : SimState :=
  mkSimState (agvs s) v (randomMoveMode s) (selectedAgvId s) (fleetConfig s).
Definition set_randomMoveMode (v : bool) (s : SimState) : SimState :=
  mkSimState (agvs s) (isPlaying s) v (selectedAgvId s) (fleetConfig s).
Definition set_selectedAgvId (v : option Z) (s : SimState) : SimState :=
  mkSimState (agvs s) (isPlaying s) (randomMoveMode s) v (fleetConfig s).

(** [mapData.nodes.find(n => n.id === k)] *)
Definition find_node (mapData : MapData) (k : NodeId) : option Node :=
  List.find (fun n => String.eqb (node_id n) k) (nodes mapData).

Section Hook.

(** The props of the hook and the memoised [buildGraph] result. *)
Variables (mapData : MapData) (graph : Graph).

(** ** [spawnAgv] *)

Definition safeNodes (s : SimState) : list Node :=
  List.filter
    (fun node =>
       negb (existsb
               (fun agv =>
                  num_lt (dist (agv_x agv) (agv_y agv) (node_x node) (node_y node))
                         (fc_safetyDistance (fleetConfig s) * 2))
               (agvs s)))
    (nodes mapData).

Definition spawnAgv (s : SimState) : M SimState :=
  let safe := safeNodes s in
  let* r := Math_random in
  let startNode :=
    if (0 <? length safe)%nat
    then index safe (floor (r * INR (length safe)))
    else index (nodes mapData) (floor (r * INR (length (nodes mapData)))) in
  let* now1 := Date_now in
  let* startNode := defined startNode in
  let* hue := Math_random in
  let* now2 := Date_now in
  let newAgv :=
    {| agv_id := now1;
       agv_x := node_x startNode;
       agv_y := node_y startNode;
       currentNode := node_id startNode;
       previousNode := None;
       targetNode := None;
       path := [];
       progress := 0;
       progressDistance := 0;
       orientation := 0;
       status := IDLE;
       color := hue * 360;
       waitTimer := 0;
       waitReason := None;
       maxSpeed := fc_maxSpeed (fleetConfig s);
       acceleration := fc_acceleration (fleetConfig s);
       deceleration := fc_deceleration (fleetConfig s);
       safetyDistance := fc_safetyDistance (fleetConfig s);
       hardBorrowLength := fc_hardBorrowLength (fleetConfig s);
       currentSpeed := 0;
       retryCount := 0;
       pathRank := 0;
       reservedNodes := [];
       pathPlanningTime := now2 |} in
  ret (set_agvs (agvs s ++ [newAgv]) s).

(** ** [updateSimulation]: the callback of [prevAgvs.map] *)

(** Random Move Logic (Auto-Pilot).  [Some a] is the [return] inside the
    branch, [None] falls through to the movement logic. *)
Definition autoPilot (randomMode : bool) (prevAgvs : list AGV) (agv : AGV)
    : M (option AGV) :=
  if randomMode
     && (match status agv with IDLE | COMPLETED => true | _ => false end)
     && num_lt (currentSpeed agv) 0.1
  then
    let* r := Math_random in
    if num_lt r 0.05 then
      let reservedTargets :=
        List.map targetNode
          (List.filter (fun a => negb (agv_id a =? agv_id agv)%Z && truthy (targetNode a))
                       prevAgvs) in
      let possibleTargets :=
        List.filter
          (fun n => negb (String.eqb (node_id n) (currentNode agv))
                    && negb (existsb (opt_eqb (Some (node_id n))) reservedTargets))
          (nodes mapData) in
      if (0 <? length possibleTargets)%nat then
        let* r2 := Math_random in
        let* randomTarget := defined (index possibleTargets
                                   (floor (r2 * INR (length possibleTargets)))) in
        let* newPath := call_findPath (currentNode agv) (node_id randomTarget) graph [] [] in
        let* now := Date_now in
        ret (Some (set_pathPlanningTime now
                  (set_reservedNodes (slice0 newPath (hardBorrowLength agv))
                  (set_pathRank 0%Z
                  (set_retryCount 0%Z
                  (set_waitTimer 0%Z
                  (set_status PLANNING
                  (set_path newPath
                  (set_targetNode (Some (node_id randomTarget)) agv)))))))))
      else ret None
    else ret None
  else ret None.

(** The turn-on-edge record shared by the mid-edge branches:
    [currentNode: nextNodeId, path: [agv.currentNode, ...newPath],
     progress: 1 - agv.progress,
     progressDistance: currentEdgeDistance * (1 - agv.progress)]. *)
Definition turn_on_edge (nextNodeId : NodeId) (newPath : list NodeId)
    (currentEdgeDistance : R) (agv : AGV) : AGV :=
  set_progressDistance (currentEdgeDistance * (1 - progress agv))
  (set_progress (1 - progress agv)
  (set_path (currentNode agv :: newPath)
  (set_currentNode nextNodeId agv))).

(** REDIRECTION LOGIC: [action === 'REPATH_HEAD_ON']. *)
Definition repath_head_on (agv : AGV) (target nextNodeId : NodeId)
    (currentEdgeDistance : R) (avoid : option AvoidEdge) : M AGV :=
  let avoidEdges := match avoid with Some e => [e] | None => [] end in
  let* detourPath := call_findPath (currentNode agv) target graph [] avoidEdges in
  if (0 <? length detourPath)%nat then
    let newReservedNodes := slice0 detourPath (hardBorrowLength agv) in
    if num_lt (progress agv) 0.05 then
      let* now := Date_now in
      ret (set_pathPlanningTime now
          (set_reservedNodes newReservedNodes
          (set_currentSpeed 0
          (set_pathRank 0%Z
          (set_waitTimer 0%Z
          (set_status REPATHING
          (set_path detourPath agv)))))))
    else
      ret (set_reservedNodes newReservedNodes
          (set_pathRank 0%Z
          (set_currentSpeed 0
          (set_waitTimer 0%Z
          (set_status REPATHING
          (turn_on_edge nextNodeId detourPath currentEdgeDistance agv))))))
  else
    ret (set_reservedNodes []
        (set_currentSpeed (Rmax 0 (currentSpeed agv - deceleration agv))
        (set_waitTimer 0%Z
        (set_status BLOCKED agv)))).

(** STEP BACK LOGIC: the choice of [stepBackNode] and [isReversingMidEdge]. *)
Definition choose_stepBack (agv : AGV) (nextNodeId : NodeId)
    : M (option NodeId * bool) :=
  let other_neighbor : M (option NodeId * bool) :=
    let* ns := defined (graph_get graph (currentNode agv)) in
    let neighbors := List.map node ns in
    let validNeighbors :=
      List.filter (fun n => negb (String.eqb n nextNodeId)) neighbors in
    ret (hd_error validNeighbors, false) in
  if num_lt 0.1 (progress agv) then ret (Some (currentNode agv), true)
  else if truthy (previousNode agv) then
    let* ns := defined (graph_get graph (currentNode agv)) in
    if existsb (fun n => opt_eqb (Some (node n)) (previousNode agv)) ns
    then ret (previousNode agv, false)
    else other_neighbor
  else other_neighbor.

(** STANDARD RANKED RETRY *)
Definition standard_retry (agv : AGV) (target nextNodeId : NodeId)
    (currentEdgeDistance : R) (conflict : option string)
    (newSpeed : R) (newRetryCount : Z) : M AGV :=
  let blockedNodeId := nextNodeId in
  let oldCurrentNodeId := currentNode agv in
  let* detourPath := call_findPath oldCurrentNodeId target graph [blockedNodeId] [] in
  if (0 <? length detourPath)%nat then
    let newReservedNodes := slice0 detourPath (hardBorrowLength agv) in
    if num_lt 0 (progress agv) then
      ret (set_reservedNodes newReservedNodes
          (set_pathRank 0%Z
          (set_retryCount 0%Z
          (set_currentSpeed 0
          (set_waitTimer 0%Z
          (set_status DETOUR
          (turn_on_edge blockedNodeId detourPath currentEdgeDistance agv)))))))
    else
      ret (set_reservedNodes newReservedNodes
          (set_currentSpeed 0
          (set_pathRank 0%Z
          (set_retryCount 0%Z
          (set_waitTimer 0%Z
          (set_status DETOUR
          (set_path detourPath agv)))))))
  else
    ret (set_reservedNodes []
        (set_retryCount newRetryCount
        (set_currentSpeed newSpeed
        (set_waitTimer 0%Z
        (set_waitReason conflict
        (set_status WAITING agv)))))).

(** [blocker && (blocker.status === 'WAITING' || blocker.status === 'BLOCKED')] *)
Definition isBlockerWaiting (prevAgvs : list AGV) (blockerId : option Z) : bool :=
  let blocker :=
    match blockerId with
    | Some b => List.find (fun a => (agv_id a =? b)%Z) prevAgvs
    | None => None
    end in
  match blocker with
  | Some b => match status b with WAITING | BLOCKED => true | _ => false end
  | None => false
  end.

(** [action === 'WAIT'] *)
Definition wait_branch (prevAgvs : list AGV) (agv : AGV) (target nextNodeId : NodeId)
    (currentEdgeDistance : R) (conflict : option string) (blockerId : option Z)
    : M AGV :=
  let newSpeed := Rmax 0 (currentSpeed agv - deceleration agv) in
  let newTimer := (waitTimer agv + 1)%Z in
  if (RETRY_INTERVAL <? newTimer)%Z then
    let newRetryCount := (retryCount agv + 1)%Z in
    let retry :=
      standard_retry agv target nextNodeId currentEdgeDistance conflict
                     newSpeed newRetryCount in
    if (3 <=? newRetryCount)%Z && isBlockerWaiting prevAgvs blockerId then
      let* sb := choose_stepBack agv nextNodeId in
      match sb with
      | (Some stepBackNode, isReversingMidEdge) =>
          if truthy (Some stepBackNode) then
            let* newPathToTarget := call_findPath stepBackNode target graph [] [] in
            let newReservedNodes := slice0 newPathToTarget (hardBorrowLength agv) in
            if isReversingMidEdge then
              ret (set_reservedNodes newReservedNodes
                  (set_currentSpeed 0
                  (set_retryCount 0%Z
                  (set_waitTimer 0%Z
                  (set_status REPATHING
                  (turn_on_edge nextNodeId newPathToTarget currentEdgeDistance agv))))))
            else
              ret (set_reservedNodes newReservedNodes
                  (set_currentSpeed 0
                  (set_retryCount 0%Z
                  (set_waitTimer 0%Z
                  (set_status DETOUR
                  (set_path (stepBackNode :: newPathToTarget) agv))))))
          else retry
      | (None, _) => retry
      end
    else retry
  else
    ret (set_currentSpeed newSpeed
        (set_waitTimer newTimer
        (set_waitReason conflict
        (set_status WAITING agv)))).

(** 4. PHYSICS ENGINE: [action === 'MOVE']. *)

(** [targetSpeed]: [maxSpeed], or 0 within braking distance on the final edge. *)
Definition physics_targetSpeed (agv : AGV) (distRemaining : R) : R :=
  let isFinalEdge := (length (path agv) =? 1)%nat in
  let withinBraking :=
    if num_eq (2 * deceleration agv) 0
    then
      (* [brakingDist] is [Infinity], or [NaN] for 0 / 0, and
         [distRemaining <= NaN] is false *)
      num_lt 0 (currentSpeed agv * currentSpeed agv)
    else
      num_le distRemaining
             ((currentSpeed agv * currentSpeed agv) / (2 * deceleration agv) + 5) in
  if isFinalEdge && withinBraking then 0 else maxSpeed agv.

(** [newSpeed]: one step of [currentSpeed] towards [targetSpeed]. *)
Definition physics_newSpeed (agv : AGV) (targetSpeed : R) : R :=
  if num_lt (currentSpeed agv) targetSpeed
  then Rmin (currentSpeed agv + acceleration agv) targetSpeed
  else if num_lt targetSpeed (currentSpeed agv)
  then Rmax (currentSpeed agv - deceleration agv) targetSpeed
  else currentSpeed agv.

Definition physics (agv : AGV) (nextNodeId : NodeId) (currentNodeObj nextNodeObj : Node)
    (reserved : list NodeId) : option AGV :=
  let dx := node_x nextNodeObj - node_x currentNodeObj in
  let dy := node_y nextNodeObj - node_y currentNodeObj in
  let currentEdgeDistance := sqrt (dx * dx + dy * dy) in
  let distRemaining := currentEdgeDistance - progressDistance agv in
  let isFinalEdge := (length (path agv) =? 1)%nat in
  let targetSpeed := physics_targetSpeed agv distRemaining in
  let newSpeed := physics_newSpeed agv targetSpeed in
  let snap := isFinalEdge && num_lt distRemaining 10 && num_lt newSpeed 0.5 in
  let newProgressDistance :=
    if snap then currentEdgeDistance else progressDistance agv + newSpeed in
  (* [progress] before [if (progress > 1) progress = 1]: on an edge of
     length 0 the quotient is [Infinity], which that test cuts to 1, or it
     is [-Infinity] or [NaN], which stay *)
  let progress0 :=
    if snap then Some 1
    else if num_eq currentEdgeDistance 0
    then (if num_lt 0 (progressDistance agv + newSpeed) then Some 1 else None)
    else Some ((progressDistance agv + newSpeed) / currentEdgeDistance) in
  match progress0 with
  | None => None
  | Some progress0 =>
  let progress1 := if num_lt 1 progress0 then 1 else progress0 in
  let newX := node_x currentNodeObj + dx * progress1 in
  let newY := node_y currentNodeObj + dy * progress1 in
  let angle := atan2 dy dx * (180 / PI) in
  if num_le 1 progress1 then
    (* Arrived at node *)
    let remainingPath := tl (path agv) in
    let hasArrived := (length remainingPath =? 0)%nat in
    let finalReservedNodes :=
      if hasArrived then [] else slice0 remainingPath (hardBorrowLength agv) in
    Some
    (set_reservedNodes finalReservedNodes
    (set_pathRank 0%Z
    (set_retryCount 0%Z
    (set_currentSpeed (if hasArrived then 0 else newSpeed)
    (set_waitReason None
    (set_waitTimer 0%Z
    (set_targetNode (if hasArrived then None else targetNode agv)
    (set_status (if hasArrived then COMPLETED else MOVING)
    (set_orientation angle
    (set_progress 0
    (set_progressDistance 0
    (set_path remainingPath
    (set_previousNode (Some (currentNode agv))
    (set_currentNode nextNodeId
    (set_agv_y (node_y nextNodeObj)
    (set_agv_x (node_x nextNodeObj) agv))))))))))))))))
  else
    (* Moving *)
    Some
    (set_reservedNodes reserved
    (set_currentSpeed newSpeed
    (set_waitReason None
    (set_waitTimer 0%Z
    (set_status MOVING
    (set_orientation angle
    (set_progress progress1
    (set_progressDistance newProgressDistance
    (set_agv_y newY
    (set_agv_x newX agv))))))))))
  end.

(** Movement Logic: everything below the auto-pilot block. *)
Definition movement (prevAgvs : list AGV) (agv : AGV) : M AGV :=
  if negb (truthy (targetNode agv)) || (length (path agv) =? 0)%nat then
    let newSpeed := Rmax 0 (currentSpeed agv - deceleration agv) in
    ret (set_reservedNodes []
        (set_waitTimer 0%Z
        (set_currentSpeed newSpeed
        (set_status IDLE agv))))
  else
    match targetNode agv, path agv with
    | Some target, nextNodeId :: _ =>
        match find_node mapData (currentNode agv), find_node mapData nextNodeId with
        | Some currentNodeObj, Some nextNodeObj =>
            let dx := node_x nextNodeObj - node_x currentNodeObj in
            let dy := node_y nextNodeObj - node_y currentNodeObj in
            let currentEdgeDistance := sqrt (dx * dx + dy * dy) in
            let currentAgvWithReservation :=
              set_reservedNodes (slice0 (path agv) (hardBorrowLength agv)) agv in
            let verdict :=
              checkTrafficRules currentAgvWithReservation currentNodeObj nextNodeObj
                                prevAgvs in
            match action verdict with
            | REPATH_HEAD_ON =>
                repath_head_on agv target nextNodeId currentEdgeDistance
                               (avoidData verdict)
            | WAIT =>
                wait_branch prevAgvs agv target nextNodeId currentEdgeDistance
                            (conflictReason verdict) (blockerId verdict)
            | MOVE =>
                finite (physics agv nextNodeId currentNodeObj nextNodeObj
                                (reservedNodes currentAgvWithReservation))
            end
        | _, _ => ret agv                     (* a node object is missing *)
        end
    | _, _ => ret agv                         (* excluded by the test above *)
    end.

Definition updateAgv (randomMode : bool) (prevAgvs : list AGV) (agv : AGV) : M AGV :=
  let* planned := autoPilot randomMode prevAgvs agv in
  match planned with
  | Some a => ret a
  | None => movement prevAgvs agv
  end.

(** [updateSimulation]: one animation frame. *)
Definition updateSimulation (s : SimState) : M SimState :=
  if negb (isPlaying s) then ret s
  else
    let* newAgvs := mapM (updateAgv (randomMoveMode s) (agvs s)) (agvs s) in
    ret (set_agvs newAgvs s).

(** ** [handleNodeClick] of [example.jsx]: the target-setting handler
    (the hook's [setAgvTarget] called by [App.tsx]). *)
Definition retarget (nodeId : NodeId) (agv : AGV) : M AGV :=
  let midEdge := (0 <? length (path agv))%nat && num_lt 0 (progress agv) in
  let searchStartNode :=
    if midEdge then hd (currentNode agv) (path agv) else currentNode agv in
  let pathPrefix := if midEdge then [hd (currentNode agv) (path agv)] else [] in
  let* newRoute := call_findPath searchStartNode nodeId graph [] [] in
  let fullPath := pathPrefix ++ newRoute in
  let newReservedNodes := slice0 fullPath (hardBorrowLength agv) in
  ret (set_reservedNodes newReservedNodes
      (set_pathRank 0%Z
      (set_retryCount 0%Z
      (set_waitReason None
      (set_waitTimer 0%Z
      (set_status PLANNING
      (set_path fullPath
      (set_targetNode (Some nodeId) agv)))))))).

Definition handleNodeClick (nodeId : NodeId) (s : SimState) : M SimState :=
  match selectedAgvId s with
  | None => ret s
  | Some sel =>
      if (sel =? 0)%Z then ret s                 (* [!selectedAgvId] *)
      else
        let* newAgvs := mapM (fun agv =>
                           if negb (agv_id agv =? sel)%Z then ret agv
                           else retarget nodeId agv)
                        (agvs s) in
        ret (set_isPlaying true (set_agvs newAgvs s))
  end.

End Hook.

End Simulation.

(* ===================================================================== *)
(** * Driving the hook: commands and snapshots *)
(* ===================================================================== *)

Module Engine.

Import Simulation.

(** What a host can do with the hook between two snapshots. *)
Inductive Command :=
| Spawn                              (* [spawnAgv()] *)
| Tick                               (* one [updateSimulation] frame *)
| SetTarget (nodeId : NodeId)        (* a click on a node *)
| Select (agvId : option Z)          (* [setSelectedAgvId] *)
| SetPlaying (b : bool)              (* [setIsPlaying] *)
| SetAutoPilot (b : bool).           (* [setRandomMoveMode] *)

Definition perform (mapData : MapData) (graph : Graph) (c : Command)
    (s : SimState) : M SimState :=
  match c with
  | Spawn => spawnAgv mapData s
  | Tick => updateSimulation mapData graph s
  | SetTarget n => handleNodeClick graph n s
  | Select i => ret (set_selectedAgvId i s)
  | SetPlaying b => ret (set_isPlaying b s)
  | SetAutoPilot b => ret (set_randomMoveMode b s)
  end.

(** The fleet after each command.  A handler that throws leaves the state
    cells as they were; one that never returns ends the trace, and so does
    one whose records leave the real numbers. *)
Fixpoint run (mapData : MapData) (graph : Graph) (cs : list Command)
    (s : SimState) (w : World) : list (list AGV) :=
  match cs with
  | [] => []
  | c :: cs' =>
      match perform mapData graph c s w with
      | (Normal s', w') => agvs s' :: run mapData graph cs' s' w'
      | (ThrowTypeError, w') => agvs s :: run mapData graph cs' s w'
      | (Loops, _) => []
      | (NonFinite, _) => []
      end
  end.

(** A command that neither spawns nor switches the auto-pilot on. *)
Definition manual (c : Command) : bool :=
  match c with
  | Spawn => false
  | SetAutoPilot b => negb b
  | _ => true
  end.

(** A snapshot without its [Date.now()] stamps. *)
Definition erase_time (a : AGV) : AGV := set_pathPlanningTime 0%Z a.

Definition erase_times (trace : list (list AGV)) : list (list AGV) :=
  List.map (List.map erase_time) trace.

(** Two computations end the same way, with results related by [rel]. *)
Definition same_outcome {A : Type} (rel : A -> A -> Prop)
    (r1 r2 : Completion A * World) : Prop :=
  match fst r1, fst r2 with
  | Normal a, Normal b => rel a b
  | ThrowTypeError, ThrowTypeError => True
  | Loops, Loops => True
  | NonFinite, NonFinite => True
  | _, _ => False
  end.

Definition agv_sim (a b : AGV) : Prop := erase_time a = erase_time b.

Definition fleet_sim (l1 l2 : list AGV) : Prop :=
  List.map erase_time l1 = List.map erase_time l2.

Definition state_sim (s1 s2 : SimState) : Prop :=
  fleet_sim (agvs s1) (agvs s2)
  /\ isPlaying s1 = isPlaying s2
  /\ randomMoveMode s1 = randomMoveMode s2
  /\ selectedAgvId s1 = selectedAgvId s2
  /\ fleetConfig s1 = fleetConfig s2.

(** The states a manual run passes through: equal up to time stamps, with
    the auto-pilot off. *)
Definition manual_sim (s1 s2 : SimState) : Prop :=
  state_sim s1 s2 /\ randomMoveMode s1 = false.

End Engine.

(* ===================================================================== *)
(** * The arbitration table of the specification *)
(* ===================================================================== *)

(** The rules R0 .. R5 as the specification's table states them, each with
    its own trigger condition and verdict, to be compared with
    [checkTrafficRules]. *)
Module ArbiterSpec.

Import JS TrafficManager.
Local Open Scope R_scope.

Inductive Rule := R0 | R1 | R2a | R2b | R3 | R4 | R5.

Definition rule_order : list Rule := [R0; R1; R2a; R2b; R3; R4; R5].

Section Table.

Variables (ego : AGV) (egoNode nextNode : Node).

Let next := hd_error (path ego).
Let atNode := num_lt (progress ego) 0.05.

Definition toNext (a : AGV) : R :=
  dist (node_x nextNode) (node_y nextNode) (agv_x a) (agv_y a).

(** Does rule [r] fire for [ego] against [other]? *)
Definition fires (r : Rule) (other : AGV) : bool :=
  negb (agv_id other =? agv_id ego)%Z &&
  match r with
  | R0 => atNode
          && match next with
             | Some n => includes (reservedNodes other) n
             | None => false
             end
  | R1 => opt_eqb next (Some (currentNode other))
          && opt_eqb (hd_error (path other)) (Some (currentNode ego))
  | R2a => atNode && opt_eqb (Some (currentNode other)) next
           && num_lt (progress other) 0.05
  | R2b => atNode && opt_eqb (hd_error (path other)) next
           && (num_lt (toNext other) (toNext ego)
               || (num_lt (Rabs (toNext other - toNext ego)) 5
                   && (agv_id other <? agv_id ego)%Z))
  | R3 => opt_eqb next (Some (currentNode other))
          && num_lt (dist (node_x egoNode) (node_y egoNode)
                          (agv_x other) (agv_y other)) 60
  | R4 => opt_eqb next (hd_error (path other)) && num_le 0.05 (progress ego)
          && num_lt (toNext other + 15) (toNext ego)
  | R5 =>
      let gap := dist (agv_x ego) (agv_y ego) (agv_x other) (agv_y other) in
      let dx := node_x nextNode - node_x egoNode in
      let dy := node_y nextNode - node_y egoNode in
      let len := sqrt (dx * dx + dy * dy) in
      let bearing :=
        wrap_up 2 (wrap_down 2
          (atan2 (agv_y other - agv_y ego) (agv_x other - agv_x ego) - atan2 dy dx)) in
      num_lt gap (safetyDistance ego)
      && num_lt (Rabs bearing) (PI / 2)
      && num_lt (dist (agv_x ego + dx / len * currentSpeed ego)
                      (agv_y ego + dy / len * currentSpeed ego)
                      (agv_x other) (agv_y other)) gap
  end.

(** The verdict of rule [r] when [other] triggers it. *)
Definition verdict (r : Rule) (other : AGV) : TrafficCheckResult :=
  let blocker := Some (agv_id other) in
  match r with
  | R0 => mkResult WAIT (Some ("Node " +:+ show next +:+ " Reserved")) None blocker
  | R1 => mkResult REPATH_HEAD_ON
            (Some ("Head-on w/ AGV-" +:+ slice_last4 (toString (agv_id other))))
            (Some (mkAvoidEdge (currentNode ego) (currentNode other))) blocker
  | R2a => mkResult WAIT (Some ("Dest " +:+ show next +:+ " Occupied")) None blocker
  | R2b => mkResult WAIT (Some ("Yield Entry to " +:+ show next +:+ " (Queue)"))
             None blocker
  | R3 => mkResult WAIT (Some ("Waiting Node " +:+ show next)) None blocker
  | R4 => mkResult WAIT (Some "Merge Yield") None blocker
  | R5 => mkResult WAIT (Some "Front Sensor: Stop") None blocker
  end.

Definition no_conflict : TrafficCheckResult := mkResult MOVE None None None.

(** Rule-major reading: "the first rule in the order R0 .. R5 that fires
    against any AGV of the snapshot wins". *)
Fixpoint first_rule_any (rules : list Rule) (fleet : list AGV) : TrafficCheckResult :=
  match rules with
  | [] => no_conflict
  | r :: rules' =>
      match List.find (fires r) fleet with
      | Some other => verdict r other
      | None => first_rule_any rules' fleet
      end
  end.

Definition arbitrate_rule_major (fleet : list AGV) : TrafficCheckResult :=
  first_rule_any rule_order fleet.

(** AGV-major reading: R0 is tried against the whole snapshot; after that
    the first AGV, in snapshot order, against which some rule of R1 .. R5
    fires decides, with the first such rule. *)
Definition first_rule_of (other : AGV) : option Rule :=
  List.find (fun r => fires r other) [R1; R2a; R2b; R3; R4; R5].

Fixpoint first_agv_any (fleet : list AGV) : TrafficCheckResult :=
  match fleet with
  | [] => no_conflict
  | other :: rest =>
      match first_rule_of other with
      | Some r => verdict r other
      | None => first_agv_any rest
      end
  end.

Definition arbitrate_agv_major (fleet : list AGV) : TrafficCheckResult :=
  match List.find (fires R0) fleet with
  | Some other => verdict R0 other
  | None => first_agv_any fleet
  end.

End Table.

End ArbiterSpec.

(* ===================================================================== *)
(** * Names for the records and values the update produces *)
(* ===================================================================== *)

Module Outcomes.

Import JS TrafficManager Simulation.
Local Open Scope R_scope.

(** The record of the no-target branch. *)
Definition idle_record (agv : AGV) : AGV :=
  set_reservedNodes []
    (set_waitTimer 0%Z
       (set_currentSpeed (Rmax 0 (currentSpeed agv - deceleration agv))
          (set_status IDLE agv))).

(** The verdict the movement logic acts on. *)
Definition verdict_for (prevAgvs : list AGV) (agv : AGV) (cn nn : Node)
    : TrafficCheckResult :=
  checkTrafficRules (set_reservedNodes (slice0 (path agv) (hardBorrowLength agv)) agv)
                    cn nn prevAgvs.

Definition edge_length (cn nn : Node) : R :=
  sqrt ((node_x nn - node_x cn) * (node_x nn - node_x cn)
        + (node_y nn - node_y cn) * (node_y nn - node_y cn)).


(** The records of the standard ranked retry: a detour was found (on the
    edge, at the node) or not. *)
Definition detour_record (agv : AGV) (n : NodeId) (detour : list NodeId)
    (len : R) : AGV :=
  if num_lt 0 (progress agv) then
    set_reservedNodes (slice0 detour (hardBorrowLength agv))
      (set_pathRank 0%Z
         (set_retryCount 0%Z
            (set_currentSpeed 0
               (set_waitTimer 0%Z
                  (set_status DETOUR (turn_on_edge n detour len agv))))))
  else
    set_reservedNodes (slice0 detour (hardBorrowLength agv))
      (set_currentSpeed 0
         (set_pathRank 0%Z
            (set_retryCount 0%Z
               (set_waitTimer 0%Z
                  (set_status DETOUR (set_path detour agv)))))).

Definition still_waiting_record (agv : AGV) (reason : option string) : AGV :=
  set_reservedNodes []
    (set_retryCount (retryCount agv + 1)%Z
       (set_currentSpeed (Rmax 0 (currentSpeed agv - deceleration agv))
          (set_waitTimer 0%Z
             (set_waitReason reason
                (set_status WAITING agv))))).

Definition retry_record (agv : AGV) (n : NodeId) (detour : list NodeId)
    (len : R) (reason : option string) : AGV :=
  match detour with
  | [] => still_waiting_record agv reason
  | _ :: _ => detour_record agv n detour len
  end.

(** The step-back block returns nothing: the blocker is not waiting, or no
    node to step back to is found. *)
Definition stepBack_skipped (graph : Graph) (prevAgvs : list AGV) (agv : AGV)
    (n : NodeId) (blocker : option Z) (w : World) : Prop :=
  isBlockerWaiting prevAgvs blocker = false
  \/ exists sb b,
       choose_stepBack graph agv n w = (Normal (sb, b), w) /\ truthy sb = false.

(** [agv'] is what one update with auto-pilot off makes of [agv], for some
    fleet snapshot and host. *)
Definition tick_successor (mapData : MapData) (graph : Graph) (agv agv' : AGV) : Prop :=
  exists prevAgvs w w',
    updateAgv mapData graph false prevAgvs agv w = (Normal agv', w').




(** The configuration and speed an update starts from. *)
Definition speed_pre (agv : AGV) : Prop :=
  0 <= currentSpeed agv <= maxSpeed agv
  /\ 0 <= acceleration agv /\ 0 <= deceleration agv.


End Outcomes.

(* ===================================================================== *)
(** * Sample maps and fleets *)
(* ===================================================================== *)

Module Samples.

Import Simulation.
Local Open Scope R_scope.

(** The default fleet configuration of [App.tsx]. *)
Definition defaultConfig : FleetConfig := mkFleetConfig 1.4 0.1 0.15 35 1.

(** An AGV with the default configuration and cleared planning state. *)
Definition sampleAgv (i : Z) (x y : R) (cur : NodeId) (tgt : option NodeId)
    (p : list NodeId) (prog : R) (speed : R) (st : AGVStatus) : AGV :=
  {| agv_id := i; agv_x := x; agv_y := y;
     currentNode := cur; previousNode := None; targetNode := tgt; path := p;
     progress := prog; progressDistance := 0; orientation := 0;
     status := st; color := 0; waitTimer := 0; waitReason := None;
     maxSpeed := 1.4; acceleration := 0.1; deceleration := 0.15;
     safetyDistance := 35; hardBorrowLength := 1;
     currentSpeed := speed; retryCount := 0; pathRank := 0;
     reservedNodes := JS.slice0 p 1; pathPlanningTime := 0 |}.

Definition nodeA : Node := mkNode "A" 0 0 "Loc A".
Definition nodeB : Node := mkNode "B" 100 0 "Loc B".
Definition nodeC : Node := mkNode "C" 200 0 "Loc C".
Definition nodeD : Node := mkNode "D" 100 (-100) "Loc D".

(** A corridor A - B - C and the same with a bypass A - D - C. *)
Definition corridor : MapData :=
  mkMapData [nodeA; nodeB; nodeC] [mkEdge "A" "B" 100; mkEdge "B" "C" 100].

Definition diamond : MapData :=
  mkMapData [nodeA; nodeB; nodeC; nodeD]
            [mkEdge "A" "B" 100; mkEdge "B" "C" 100;
             mkEdge "A" "D" 100; mkEdge "D" "C" 100].

Definition corridorGraph : Graph :=
  [("A", [mkGraphNode "B" 100]);
   ("B", [mkGraphNode "A" 100; mkGraphNode "C" 100]);
   ("C", [mkGraphNode "B" 100])].

Definition diamondGraph : Graph :=
  [("A", [mkGraphNode "B" 100; mkGraphNode "D" 100]);
   ("B", [mkGraphNode "A" 100; mkGraphNode "C" 100]);
   ("C", [mkGraphNode "B" 100; mkGraphNode "D" 100]);
   ("D", [mkGraphNode "A" 100; mkGraphNode "C" 100])].

(** Two islands: A - B and a lone C. *)
Definition islands : MapData :=
  mkMapData [nodeA; nodeB; nodeC] [mkEdge "A" "B" 100].

Definition islandsGraph : Graph :=
  [("A", [mkGraphNode "B" 100]); ("B", [mkGraphNode "A" 100]); ("C", [])].


(** Ego rests at A and wants to enter B; one AGV is parked at B and a
    second one stands at B heading for A. *)
Definition egoAtA : AGV := sampleAgv 1 0 0 "A" (Some "C") ["B"; "C"] 0 0 MOVING.
Definition parkedAtB : AGV := sampleAgv 2 100 0 "B" None [] 0 0 IDLE.
Definition oncomingAtB : AGV := sampleAgv 3 100 0 "B" (Some "A") ["A"] 0 0 MOVING.

(** Head-on on the edge A - B of the diamond: ego is half way from A to B
    at full speed, the other AGV stands at B and is about to enter the edge. *)
Definition egoMidEdge : AGV :=
  sampleAgv 1 50 0 "A" (Some "C") ["B"; "C"] 0.5 1.4 MOVING.
Definition facingEgo : AGV := sampleAgv 2 100 0 "B" (Some "A") ["A"] 0 0 MOVING.

(** A host whose [Math.random()] and [Date.now()] always answer 0, and one
    whose clock answers 1000 and whose random numbers are 0.5. *)
Definition world0 : World := mkWorld (fun _ => 0) 0 (fun _ => 0%Z) 0.
Definition world1 : World := mkWorld (fun _ => 0.5) 0 (fun _ => 1000%Z) 0.

(** Ego has waited 60 ticks at A for the AGV parked at B, for the third
    time in a row. *)
Definition egoWaitingAtA : AGV :=
  set_waitTimer 60%Z (set_retryCount 2%Z
    (sampleAgv 1 0 0 "A" (Some "C") ["B"; "C"] 0 0 WAITING)).

(** An AGV that has just completed its trip at C. *)
Definition arrivedAtC : AGV := sampleAgv 1 200 0 "C" None [] 0 0 COMPLETED.

(** An AGV one pixel short of its target C, braking. *)
Definition almostAtC : AGV :=
  set_progressDistance 99
    (sampleAgv 1 199 0 "B" (Some "C") ["C"] 0.99 0.3 MOVING).

Definition playing (fleet : list AGV) : SimState :=
  mkSimState fleet true false None defaultConfig.

(** An AGV resting at A on the islands map, selected in the UI. *)
Definition idleAtA : AGV := sampleAgv 1 0 0 "A" None [] 0 0 IDLE.

Definition selected (i : Z) (fleet : list AGV) : SimState :=
  mkSimState fleet false false (Some i) defaultConfig.

End Samples.

(* ===================================================================== *)
(** * Further definitions: invariants, samples, graph shape, route
      enumeration and the map generator *)
(* ===================================================================== *)

Module Invariants.

Import JS Simulation Outcomes.
Local Open Scope R_scope.

(** What no update touches: the identity of an AGV and its configuration. *)
Definition same_identity (a a' : AGV) : Prop :=
  agv_id a' = agv_id a /\ color a' = color a
  /\ maxSpeed a' = maxSpeed a /\ acceleration a' = acceleration a
  /\ deceleration a' = deceleration a /\ safetyDistance a' = safetyDistance a
  /\ hardBorrowLength a' = hardBorrowLength a.






(** The record [spawnAgv] builds for an AGV placed on [startNode]. *)
Definition spawn_record (c : FleetConfig) (startNode : Node) (id : Z) (hue : R)
    (stamp : Z) : AGV :=
  {| agv_id := id;
     agv_x := node_x startNode;
     agv_y := node_y startNode;
     currentNode := node_id startNode;
     previousNode := None;
     targetNode := None;
     path := [];
     progress := 0;
     progressDistance := 0;
     orientation := 0;
     status := IDLE;
     color := hue * 360;
     waitTimer := 0;
     waitReason := None;
     maxSpeed := fc_maxSpeed c;
     acceleration := fc_acceleration c;
     deceleration := fc_deceleration c;
     safetyDistance := fc_safetyDistance c;
     hardBorrowLength := fc_hardBorrowLength c;
     currentSpeed := 0;
     retryCount := 0;
     pathRank := 0;
     reservedNodes := [];
     pathPlanningTime := stamp |}.

(** [node] is free for a spawn: no AGV of the fleet is closer to it than
    twice the safety distance. *)
Definition unobstructed (s : SimState) (node : Node) : Prop :=
  forall agv, In agv (agvs s) ->
    fc_safetyDistance (fleetConfig s) * 2
    <= TrafficManager.dist (agv_x agv) (agv_y agv) (node_x node) (node_y node).

(** The node a new route starts from when a target is set: the node the
    AGV is heading to when it is on an edge, the node it stands on
    otherwise. *)
Definition onEdge (a : AGV) : bool :=
  (0 <? length (path a))%nat && num_lt 0 (progress a).

Definition departure (a : AGV) : NodeId :=
  if onEdge a then hd (currentNode a) (path a) else currentNode a.

(** [pathPrefix]: the node an AGV on an edge ends the edge at. *)
Definition pathPrefix (a : AGV) : list NodeId :=
  if onEdge a then [departure a] else nil.


End Invariants.

Module Fleets.
Import Simulation Samples.
Local Open Scope R_scope.
(** A second AGV that rests at C and wants to enter B as well. *)
Definition rivalAtC : AGV := sampleAgv 4 200 0 "C" (Some "A") ["B"; "A"] 0 0 MOVING.
(** A third AGV that rests at C, far from A, and heads for D. *)
Definition leavingC : AGV := sampleAgv 5 200 0 "C" (Some "D") ["D"] 0 0 MOVING.
(** The AGV resting at A after the auto-pilot has sent it to B. *)
Definition plannedToB : AGV :=
  set_pathPlanningTime 0%Z
    (set_reservedNodes ["B"]
    (set_pathRank 0%Z (set_retryCount 0%Z (set_waitTimer 0%Z
    (set_status PLANNING (set_path ["B"]
    (set_targetNode (Some "B") idleAtA))))))).
(** The AGV resting at A on the islands map after a click on C, which it
    cannot reach. *)
Definition plannedToC : AGV :=
  set_reservedNodes []
    (set_pathRank 0%Z (set_retryCount 0%Z (set_waitReason None
    (set_waitTimer 0%Z (set_status PLANNING (set_path []
    (set_targetNode (Some "C") idleAtA))))))).
End Fleets.

Module GraphShape.

Import Pathfinding.

(** The entries the edge list [es] contributes to [graph[u]], in order:
    for every edge, its target when it leaves [u] and its source when it
    arrives at [u]. *)
Definition incident (es : list Edge) (u : NodeId) : list GraphNode :=
  flat_map (fun e =>
              (if String.eqb (source e) u
               then [mkGraphNode (target e) (edge_weight e)] else [])
              ++ (if String.eqb (target e) u
                  then [mkGraphNode (source e) (edge_weight e)] else []))
           es.

(** [edges.forEach(...)], as [buildGraph] folds it. *)
Definition push_edges (es : list Edge) (og : option Graph) : option Graph :=
  fold_left
    (fun og e =>
       match og with
       | None => None
       | Some g =>
           match graph_push g (source e) (mkGraphNode (target e) (edge_weight e)) with
           | None => None
           | Some g1 => graph_push g1 (target e) (mkGraphNode (source e) (edge_weight e))
           end
       end)
    es og.

(** A map [buildGraph] turns into a well-formed graph: the node ids are
    distinct and not empty, every edge joins two nodes of the map and has a
    positive weight. *)
Definition map_wf (ns : list Node) (es : list Edge) : Prop :=
  List.NoDup (List.map node_id ns)
  /\ ~ In "" (List.map node_id ns)
  /\ forall e, In e es ->
       In (source e) (List.map node_id ns)
       /\ In (target e) (List.map node_id ns)
       /\ 0 < edge_weight e.

End GraphShape.

(* ===================================================================== *)
(** * Ranked simple paths ([findAllPaths] of [lib/pathfinding.ts]) *)
(* ===================================================================== *)

Module AllPaths.

Import JS Pathfinding.

(** An entry of [results]: [{ path, cost }]. *)
Record Route := mkRoute {
  route_path : list NodeId;
  route_cost : Z
}.

(** [l.sort((a, b) => key(a) - key(b))]: a stable sort, as insertion from
    the right. *)
Fixpoint insert_by {A : Type} (key : A -> Z) (a : A) (l : list A) : list A :=
  match l with
  | [] => [a]
  | b :: l' => if key b <? key a then b :: insert_by key a l' else a :: b :: l'
  end.

Definition sort_by {A : Type} (key : A -> Z) (l : list A) : list A :=
  fold_right (insert_by key) [] l.

(** [graph[k] = l] for a key that exists. *)
Fixpoint graph_set (graph : Graph) (k : NodeId) (l : list GraphNode) : Graph :=
  match graph with
  | [] => []
  | (k', ns) :: rest =>
      if String.eqb k' k then (k', l) :: rest else (k', ns) :: graph_set rest k l
  end.

(** How a search ends: with the graph as the sorts have left it and the
    routes pushed so far, with a [TypeError] ([graph[current]] is
    [undefined]), or with the recursion budget of the model used up. *)
Inductive Search :=
| Found (graph : Graph) (results : list Route)
| Threw
| OutOfFuel.

Section Dfs.

Variables (targetNodeId : NodeId) (avoidNodes : list NodeId)
          (avoidEdges : list AvoidEdge) (limit : Z).

(** The loop [for (const neighbor of neighbors)] of [dfs], over the array
    the sort has just put in order; [call] is the recursive call.  The
    calls below sort the arrays of other keys only, [current] being on
    [path], so the array the loop runs over stays as it is. *)
Definition visit (call : NodeId -> list NodeId -> Z -> Graph -> list Route -> Search)
    (current : NodeId) (path : list NodeId) (cost : Z)
    : list GraphNode -> Graph -> list Route -> Search :=
  fix loop (nbrs : list GraphNode) (graph : Graph) (results : list Route) : Search :=
    match nbrs with
    | [] => Found graph results
    | neighbor :: rest =>
        if includes path (node neighbor) then loop rest graph results
        else if includes avoidNodes (node neighbor) then loop rest graph results
        else if isEdgeAvoided avoidEdges current (node neighbor)
        then loop rest graph results
        else
          match call (node neighbor) (path ++ [node neighbor])
                     (cost + weight neighbor) graph results with
          | Found graph' results' => loop rest graph' results'
          | Threw => Threw
          | OutOfFuel => OutOfFuel
          end
    end.

(** [dfs(current, path, cost)]. *)
Fixpoint dfs (fuel : nat) (current : NodeId) (path : list NodeId) (cost : Z)
    (graph : Graph) (results : list Route) : Search :=
  match fuel with
  | O => OutOfFuel
  | S fuel' =>
      if (limit <=? Z.of_nat (length results))%Z then Found graph results
      else if String.eqb current targetNodeId
      then Found graph (results ++ [mkRoute (tl path) cost])
      else
        match graph_get graph current with
        | None => Threw
        | Some neighbors =>
            let sorted := sort_by weight neighbors in
            visit (dfs fuel') current path cost sorted
                  (graph_set graph current sorted) results
        end
  end.

End Dfs.

(** [findAllPaths]: the graph is returned with the routes, its neighbour
    arrays being sorted in place. *)
Definition findAllPaths (startNodeId targetNodeId : NodeId) (graph : Graph)
    (avoidNodes : list NodeId) (avoidEdges : list AvoidEdge) (limit : Z) : Search :=
  match dfs targetNodeId avoidNodes avoidEdges limit
            (S (S (length (graph_keys graph)))) startNodeId [startNodeId] 0 graph [] with
  | Found graph' results => Found graph' (sort_by route_cost results)
  | Threw => Threw
  | OutOfFuel => OutOfFuel
  end.

(** [l] is in ascending order of [key]. *)
Fixpoint ascending {A : Type} (key : A -> Z) (l : list A) : Prop :=
  match l with
  | [] => True
  | a :: l' => (forall b, In b l' -> key a <= key b) /\ ascending key l'
  end.

(** The same neighbours under every key, in some order. *)
Definition same_edges (g g' : Graph) : Prop :=
  graph_keys g' = graph_keys g
  /\ forall u, match graph_get g u, graph_get g' u with
               | Some l, Some l' => Permutation l l'
               | None, None => True
               | _, _ => False
               end.

(** [steps] is a simple route from [s] to [t] of cost [c]: a walk that
    obeys the constraints and visits no node twice. *)
Definition simple_route (graph : Graph) (avoidNodes : list NodeId)
    (avoidEdges : list AvoidEdge) (s : NodeId) (steps : list NodeId) (t : NodeId)
    (c : Z) : Prop :=
  PathSpec.walk graph avoidNodes avoidEdges s steps t c /\ List.NoDup (s :: steps).

(** What a call of [dfs] that returns has done: the graph has the same
    edges as the one the search began with, the routes pushed so far are
    all [good], none was dropped, and their number has not gone past the
    limit. *)
Definition grown (g0 : Graph) (good : Route -> Prop) (limit : Z)
    (rs : list Route) (g' : Graph) (rs' : list Route) : Prop :=
  same_edges g0 g'
  /\ Forall good rs'
  /\ (exists new, rs' = rs ++ new)
  /\ (Z.of_nat (length rs) <= Z.max limit 0 -> Z.of_nat (length rs') <= Z.max limit 0).

(** The diamond with a long edge A - B: the neighbours of A and of B are
    listed heaviest first. *)
Definition skewGraph : Graph :=
  [("A", [mkGraphNode "B" 300; mkGraphNode "D" 100]);
   ("B", [mkGraphNode "A" 300; mkGraphNode "C" 100]);
   ("C", [mkGraphNode "B" 100; mkGraphNode "D" 100]);
   ("D", [mkGraphNode "A" 100; mkGraphNode "C" 100])].

(** The same graph as a search from A to C leaves it. *)
Definition skewGraphSearched : Graph :=
  [("A", [mkGraphNode "D" 100; mkGraphNode "B" 300]);
   ("B", [mkGraphNode "C" 100; mkGraphNode "A" 300]);
   ("C", [mkGraphNode "B" 100; mkGraphNode "D" 100]);
   ("D", [mkGraphNode "A" 100; mkGraphNode "C" 100])].

Definition skewRoutes : list Route :=
  [mkRoute ["D"; "C"] 200; mkRoute ["B"; "C"] 400].

End AllPaths.

(* ===================================================================== *)
(** * The map generator ([lib/mapGenerator.ts]) *)
(* ===================================================================== *)

From Stdlib Require Import DecimalNat.

Module MapGenerator.

Import JS.

(** ** 32-bit integer operators *)

(** [ToInt32] and [ToUint32] of an integral number. *)
Definition toInt32 (z : Z) : Z := (z + 2 ^ 31) mod 2 ^ 32 - 2 ^ 31.
Definition toUint32 (z : Z) : Z := z mod 2 ^ 32.

(** [a ^ b], [a | b], [a << n], [a >>> n] and [Math.imul(a, b)]. *)
Definition xor32 (a b : Z) : Z := toInt32 (Z.lxor (toInt32 a) (toInt32 b)).
Definition or32 (a b : Z) : Z := toInt32 (Z.lor (toInt32 a) (toInt32 b)).
Definition shl32 (a n : Z) : Z := toInt32 (Z.shiftl (toInt32 a) n).
Definition ushr32 (a n : Z) : Z := Z.shiftr (toUint32 a) n.
Definition imul (a b : Z) : Z := toInt32 (toInt32 a * toInt32 b).

(** ** The seeded generator *)

(** One call of the closure [mulberry32(a)] returns: the new value of the
    captured [a], which grows by 0x6D2B79F5 without wrapping (a number,
    exact below 2^53), and the numerator of the result over 2^32. *)
Definition mulberry32 (a : Z) : Z * Z :=
  let a := a + 1831565813 in                                    (* 0x6D2B79F5 *)
  let t := a in
  let t := imul (xor32 t (ushr32 t 15)) (or32 t 1) in
  let t := xor32 t (t + imul (xor32 t (ushr32 t 7)) (or32 t 61)) in
  (a, toUint32 (xor32 t (ushr32 t 14))).

(** [random()]: the new state and the number returned. *)
Definition random (a : Z) : Z * R :=
  (fst (mulberry32 a), (IZR (snd (mulberry32 a)) / 4294967296)%R).

(** [str.charCodeAt(i)] for every [i], for a string of code units below
    256. *)
Definition charCodes (str : string) : list Z :=
  List.map (fun c => Z.of_nat (nat_of_ascii c)) (list_ascii_of_string str).

(** [stringToSeed]: [hash = ((hash << 5) - hash) + chr; hash |= 0] over the
    characters, then [Math.abs(hash)]. *)
Definition stringToSeed (str : string) : Z :=
  Z.abs (fold_left (fun hash chr => toInt32 (shl32 hash 5 - hash + chr))
                   (charCodes str) 0).

(** ** [generateMapData] *)

Local Open Scope R_scope.

Definition minDistance : R := 80.
Definition padding : R := 50.

Definition requiredArea (numNodes : Z) : R :=
  Rmax (800 * 600) (IZR numNodes * (minDistance * minDistance) * 2.5).

Definition aspectRatio : R := 800 / 600.

Definition height (numNodes : Z) : R := sqrt (requiredArea numNodes / aspectRatio).
Definition width (numNodes : Z) : R := height numNodes * aspectRatio.

(** [Math.round]. *)
Definition round (x : R) : Z := floor (x + 0.5).

Definition labels : string := "ABCDEFGHIJKLMNOPQRSTUVWXYZ".

(** [labels[labelIndex % labels.length] + (Math.floor(labelIndex / 26) || "")] *)
Definition label_of (labelIndex : nat) : string :=
  let char := match String.get (labelIndex mod String.length labels) labels with
              | Some c => String c ""
              | None => "undefined"
              end in
  let suffix := if (labelIndex / 26 =? 0)%nat then ""
                else NilEmpty.string_of_uint (Nat.to_uint (labelIndex / 26)) in
  char +:+ suffix.

(** The suffix of the label with quotient [q]. *)
Definition suffix_of (q : nat) : string :=
  if (q =? 0)%nat then "" else NilEmpty.string_of_uint (Nat.to_uint q).

(** 1. Generate Nodes: the [while] loop, with the attempts that are left
    of its 2000. *)
Fixpoint place_nodes (attemptsLeft : nat) (numNodes : Z) (a : Z) (nodes : list Node)
    : Z * list Node :=
  match attemptsLeft with
  | O => (a, nodes)
  | S attemptsLeft' =>
      if (Z.of_nat (length nodes) <? numNodes)%Z then
        let (a1, r1) := random a in
        let x := padding + r1 * (width numNodes - 2 * padding) in
        let (a2, r2) := random a1 in
        let y := padding + r2 * (height numNodes - 2 * padding) in
        let tooClose :=
          existsb (fun node =>
                     num_lt (TrafficManager.dist x y (node_x node) (node_y node)) 80)
                  nodes in
        if tooClose then place_nodes attemptsLeft' numNodes a2 nodes
        else
          let id := label_of (length nodes) in
          place_nodes attemptsLeft' numNodes a2
            (nodes ++ [mkNode id (IZR (round x)) (IZR (round y)) ("Loc " +:+ id)])
      else (a, nodes)
  end.

(** An entry of [distances]: [{ node, dist, id }]. *)
Record Candidate := mkCandidate {
  cand_node : Node;
  cand_dist : R
}.

(** [l.sort((a, b) => a.dist - b.dist)]: stable, as insertion from the
    right. *)
Fixpoint insert_by_dist (c : Candidate) (l : list Candidate) : list Candidate :=
  match l with
  | [] => [c]
  | b :: l' =>
      if num_lt (cand_dist b) (cand_dist c) then b :: insert_by_dist c l'
      else c :: b :: l'
  end.

Definition sort_by_dist (l : list Candidate) : list Candidate :=
  fold_right insert_by_dist [] l.

(** [nodes.map(...).filter(item => item !== null).sort(...)] for [nodeA],
    the node at index [i]. *)
Definition candidates (nodes : list Node) (i : nat) (nodeA : Node) : list Candidate :=
  sort_by_dist
    (List.map (fun jb =>
                 mkCandidate (snd jb)
                   (TrafficManager.dist (node_x nodeA) (node_y nodeA)
                                        (node_x (snd jb)) (node_y (snd jb))))
              (List.filter (fun jb => negb (fst jb =? i)%nat)
                           (combine (seq 0 (length nodes)) nodes))).

(** [[a, b].sort().join('-')] *)
Definition pairId (a b : string) : string :=
  if String.ltb b a then b +:+ "-" +:+ a else a +:+ "-" +:+ b.

(** The state of the edge loops: the generator, [edges] and
    [processedPairs]. *)
Record EdgeState := mkEdgeState {
  rng : Z;
  made : list Edge;
  processedPairs : list string
}.

(** The body of [for (let k = 0; k < Math.min(connections, distances.length); k++)]. *)
Definition connect (nodeA : Node) (st : EdgeState) (target : Candidate) : EdgeState :=
  let pair := pairId (node_id nodeA) (node_id (cand_node target)) in
  if includes (processedPairs st) pair then st
  else
    let (a1, r) := random (rng st) in
    let costFactor := 0.8 + r * 1.2 in
    let weight := round (cand_dist target * costFactor) in
    mkEdgeState a1
      (made st ++ [mkEdge (node_id nodeA) (node_id (cand_node target)) weight])
      (processedPairs st ++ [pair]).

(** The callback of [nodes.forEach((nodeA, i) => ...)]. *)
Definition connect_node (nodes : list Node) (st : EdgeState) (ia : nat * Node)
    : EdgeState :=
  let distances := candidates nodes (fst ia) (snd ia) in
  let (a1, r) := random (rng st) in
  let connections := (2 + (if num_lt 0.6 r then 1 else 0))%nat in
  fold_left (connect (snd ia)) (firstn connections distances)
            (mkEdgeState a1 (made st) (processedPairs st)).

Definition generateMapData (seedStr : string) (numNodes : Z) : MapData :=
  let seed := stringToSeed seedStr in
  let (a, nodes) := place_nodes 2000 numNodes seed [] in
  let st := fold_left (connect_node nodes) (combine (seq 0 (length nodes)) nodes)
                      (mkEdgeState a [] []) in
  mkMapData nodes (made st).

End MapGenerator.

(* ===================================================================== *)
(** * The shape of a generated map *)
(* ===================================================================== *)

Module GeneratedMaps.

Import MapGenerator.

Local Open Scope R_scope.

(** The straight-line distance of two nodes. *)
Definition distance (a b : Node) : R :=
  TrafficManager.dist (node_x a) (node_y a) (node_x b) (node_y b).

(** A node as the generator places it: labelled after its id, at whole
    coordinates inside the padded canvas. *)
Definition placed (numNodes : Z) (n : Node) : Prop :=
  node_label n = "Loc " +:+ node_id n
  /\ (exists zx zy, node_x n = IZR zx /\ node_y n = IZR zy)
  /\ 50 <= node_x n < width numNodes - 49
  /\ 50 <= node_y n < height numNodes - 49.

Definition apart (a b : Node) : Prop := 79 <= distance a b.

Definition nodes_ok (numNodes : Z) (ns : list Node) : Prop :=
  List.map node_id ns = List.map label_of (seq 0 (length ns))
  /\ List.Forall (placed numNodes) ns
  /\ ForallOrdPairs apart ns.

(** The edge [e] joins the nodes [a] and [b], in either direction. *)
Definition joins (e : Edge) (a b : Node) : Prop :=
  (source e = node_id a /\ target e = node_id b)
  \/ (source e = node_id b /\ target e = node_id a).


(** An edge as the generator makes it: between two different nodes of the
    map, its weight the rounded product of their distance and a factor of
    at least 0.8 and less than 2. *)
Definition edge_ok (ns : list Node) (e : Edge) : Prop :=
  exists a b,
    In a ns /\ In b ns
    /\ source e = node_id a /\ target e = node_id b
    /\ node_id a <> node_id b
    /\ 0.8 * distance a b - 0.5 < IZR (edge_weight e) < 2 * distance a b + 0.5
    /\ (63 <= edge_weight e)%Z.

(** The key of an edge in [processedPairs]. *)
Definition pair_of (e : Edge) : string := pairId (source e) (target e).

Definition edges_ok (ns : list Node) (st : EdgeState) : Prop :=
  processedPairs st = List.map pair_of (made st)
  /\ List.NoDup (processedPairs st)
  /\ List.Forall (edge_ok ns) (made st).

(** The generator, [edges] and [processedPairs] when [generateMapData]
    returns. *)
Definition final_state (seedStr : string) (numNodes : Z) : EdgeState :=
  let ns := snd (place_nodes 2000 numNodes (stringToSeed seedStr) []) in
  fold_left (connect_node ns) (combine (seq 0 (length ns)) ns)
    (mkEdgeState (fst (place_nodes 2000 numNodes (stringToSeed seedStr) [])) [] []).

(** No character of [s] is a hyphen. *)
Definition no_dash (s : string) : Prop :=
  ~ In "-"%char (list_ascii_of_string s).

End GeneratedMaps.

(* ===================================================================== *)
(** * Properties *)
(* ===================================================================== *)

(** ** Comparisons on numbers *)

Section NumFacts.

Import JS.
Local Open Scope R_scope.

Lemma num_lt_true (x y : R) : x < y -> num_lt x y = true.
Proof. intros H. unfold num_lt. destruct (Rlt_dec x y); [reflexivity | contradiction]. Qed.

Lemma num_lt_false (x y : R) : ~ x < y -> num_lt x y = false.
Proof. intros H. unfold num_lt. destruct (Rlt_dec x y); [contradiction | reflexivity]. Qed.

Lemma num_le_true (x y : R) : x <= y -> num_le x y = true.
Proof. intros H. unfold num_le. destruct (Rle_dec x y); [reflexivity | contradiction]. Qed.

Lemma num_le_false (x y : R) : ~ x <= y -> num_le x y = false.
Proof. intros H. unfold num_le. destruct (Rle_dec x y); [contradiction | reflexivity]. Qed.

Lemma num_lt_iff (x y : R) : num_lt x y = true <-> x < y.
Proof. unfold num_lt. destruct (Rlt_dec x y); split; intros; try easy. Qed.

Lemma num_le_iff (x y : R) : num_le x y = true <-> x <= y.
Proof. unfold num_le. destruct (Rle_dec x y); split; intros; try easy. Qed.

Lemma num_lt_irrefl (x : R) : num_lt x x = false.
Proof. apply num_lt_false. lra. Qed.

End NumFacts.

(** Decide the number comparisons of a goal over concrete values. *)
Ltac num_decide :=
  repeat first
    [ rewrite num_lt_true by lra
    | rewrite num_lt_false by lra
    | rewrite num_le_true by lra
    | rewrite num_le_false by lra ].

(* --------------------------------------------------------------------- *)
(** ** [findPath]: Dijkstra's invariants *)
(* --------------------------------------------------------------------- *)

Section TableFacts.

Import JS Pathfinding.

Lemma lookup_fold_insert_in {V : Type} (c : V) (l : list NodeId) (m : gmap NodeId V)
    (k : NodeId) :
  In k l -> fold_left (fun d k' => <[k' := c]> d) l m !! k = Some c.
Proof.
  revert m. induction l as [|a l IH]; intros m Hin; [destruct Hin|].
  simpl. destruct (in_dec string_dec k l) as [Hl | Hl].
  - apply IH. exact Hl.
  - destruct Hin as [-> | Hin]; [|contradiction].
    clear IH. revert m. induction l as [|b l IH]; intros m.
    + simpl. apply lookup_insert_eq.
    + simpl. rewrite insert_insert_ne.
      * apply IH. intros H. apply Hl. right. exact H.
      * intros ->. apply Hl. left. reflexivity.
Qed.

Lemma lookup_fold_insert_out {V : Type} (c : V) (l : list NodeId) (m : gmap NodeId V)
    (k : NodeId) :
  ~ In k l -> fold_left (fun d k' => <[k' := c]> d) l m !! k = m !! k.
Proof.
  revert m. induction l as [|a l IH]; intros m Hout; [reflexivity|].
  simpl. rewrite IH.
  - apply lookup_insert_ne. intros ->. apply Hout. left. reflexivity.
  - intros H. apply Hout. right. exact H.
Qed.

Lemma includes_false (l : list NodeId) (x : NodeId) :
  includes l x = false <-> ~ In x l.
Proof.
  unfold includes. split.
  - intros H Hin. assert (existsb (String.eqb x) l = true); [|congruence].
    apply existsb_exists. exists x. split; [exact Hin | apply String.eqb_refl].
  - intros H. destruct (existsb (String.eqb x) l) eqn:E; [|reflexivity].
    apply existsb_exists in E. destruct E as (y & Hy & He).
    apply String.eqb_eq in He. subst. contradiction.
Qed.

Lemma isEdgeAvoided_false (ae : list AvoidEdge) (u v : NodeId) :
  isEdgeAvoided ae u v = false <-> ~ PathSpec.edge_avoided ae u v.
Proof.
  unfold isEdgeAvoided, PathSpec.edge_avoided. split.
  - intros H (e & Hin & He).
    assert (existsb (fun e => (String.eqb (edge_u e) u && String.eqb (edge_v e) v)
                              || (String.eqb (edge_u e) v && String.eqb (edge_v e) u)) ae
            = true); [|congruence].
    apply existsb_exists. exists e. split; [exact Hin|].
    destruct He as [[-> ->] | [-> ->]]; rewrite !String.eqb_refl; simpl;
      [reflexivity | apply orb_true_r].
  - intros H. destruct (existsb _ ae) eqn:E; [|reflexivity].
    exfalso. apply H. apply existsb_exists in E. destruct E as (e & Hin & He).
    exists e. split; [exact Hin|].
    apply orb_true_iff in He. destruct He as [He | He];
      apply andb_true_iff in He; destruct He as [H1 H2];
      apply String.eqb_eq in H1; apply String.eqb_eq in H2; auto.
Qed.

Lemma graph_get_key (graph : Graph) (u : NodeId) (nbrs : list GraphNode) :
  graph_get graph u = Some nbrs -> In u (graph_keys graph).
Proof.
  unfold graph_get, graph_keys. intros H.
  destruct (List.find (fun kv => String.eqb (fst kv) u) graph) as [kv|] eqn:E;
    [|discriminate].
  apply find_some in E. destruct E as [Hin He].
  apply String.eqb_eq in He. subst. apply in_map. exact Hin.
Qed.

Lemma graph_get_of_key (graph : Graph) (u : NodeId) :
  In u (graph_keys graph) -> exists nbrs, graph_get graph u = Some nbrs.
Proof.
  unfold graph_get, graph_keys. intros H.
  apply in_map_iff in H. destruct H as ([k ns] & Hk & Hin). simpl in Hk. subst.
  destruct (List.find (fun kv => String.eqb (fst kv) u) graph) as [kv|] eqn:E.
  - eexists. reflexivity.
  - exfalso. apply (find_none _ _ E) in Hin. simpl in Hin.
    rewrite String.eqb_refl in Hin. discriminate.
Qed.

(** The order on table entries. *)
Lemma cost_lt_irrefl (a : option Cost) : cost_lt a a = false.
Proof. destruct a as [[x|]|]; simpl; [apply Z.ltb_irrefl | reflexivity | reflexivity]. Qed.

Lemma cost_lt_asym (a b : option Cost) : cost_lt a b = true -> cost_lt b a = false.
Proof.
  destruct a as [[x|]|], b as [[y|]|]; simpl; try reflexivity; try discriminate.
  intros H. apply Z.ltb_lt in H. apply Z.ltb_ge. lia.
Qed.

(** "Not smaller" is transitive on defined entries. *)
Lemma cost_ge_trans (a b c : Cost) :
  cost_lt (Some b) (Some a) = false -> cost_lt (Some c) (Some b) = false ->
  cost_lt (Some c) (Some a) = false.
Proof.
  destruct a as [x|], b as [y|], c as [z|]; simpl; try reflexivity; try discriminate.
  intros H1 H2. apply Z.ltb_ge in H1, H2. apply Z.ltb_ge. lia.
Qed.

Lemma sort_insert_perm (d : gmap NodeId Cost) (a : NodeId) (l : list NodeId) :
  Permutation (a :: l) (sort_insert d a l).
Proof.
  induction l as [|b l IH]; simpl; [reflexivity|].
  destruct (cmp_lt d b a).
  - rewrite perm_swap. constructor. exact IH.
  - reflexivity.
Qed.

Lemma sort_queue_perm (d : gmap NodeId Cost) (l : list NodeId) :
  Permutation l (sort_queue d l).
Proof.
  induction l as [|a l IH]; simpl; [reflexivity|].
  rewrite <- sort_insert_perm. constructor. exact IH.
Qed.

(** The head of the sorted queue has a least entry. *)
Lemma sort_queue_head (d : gmap NodeId Cost) (l : list NodeId) (u : NodeId) (rest : list NodeId) :
  (forall k, In k l -> exists c, d !! k = Some c) ->
  sort_queue d l = u :: rest ->
  forall y, In y l -> cost_lt (d !! y) (d !! u) = false.
Proof.
  revert u rest. induction l as [|a l IH]; intros u rest Hdef Hs y Hy;
    [destruct Hy|].
  simpl in Hs. destruct (sort_queue d l) as [|b l'] eqn:El.
  - simpl in Hs. injection Hs as <- <-.
    assert (l = []) as ->.
    { apply Permutation_nil. rewrite (sort_queue_perm d l), El. reflexivity. }
    destruct Hy as [<- | []]. apply cost_lt_irrefl.
  - simpl in Hs. unfold cmp_lt in Hs.
    assert (Hb : forall z, In z l -> cost_lt (d !! z) (d !! b) = false).
    { intros z Hz. eapply IH; eauto. intros k Hk. apply Hdef. right. exact Hk. }
    destruct (cost_lt (d !! b) (d !! a)) eqn:Hba.
    + injection Hs as <- <-. destruct Hy as [<- | Hy].
      * apply cost_lt_asym. exact Hba.
      * apply Hb. exact Hy.
    + injection Hs as <- <-. destruct Hy as [<- | Hy]; [apply cost_lt_irrefl|].
      destruct (Hdef a (or_introl eq_refl)) as [ca Ha].
      assert (Hbl : In b l).
      { apply (Permutation_in b (Permutation_sym (sort_queue_perm d l))).
        rewrite El. left. reflexivity. }
      destruct (Hdef b (or_intror Hbl)) as [cb Hcb].
      destruct (Hdef y (or_intror Hy)) as [cy Hcy].
      specialize (Hb y Hy). rewrite Ha, Hcb, Hcy in *.
      eapply cost_ge_trans; eassumption.
Qed.

End TableFacts.

Section RelaxFacts.

Import JS Pathfinding PathSpec DijkstraInv.

Variables (avoidNodes : list NodeId) (avoidEdges : list AvoidEdge).

Lemma cost_lt_trans (a b c : option Cost) :
  cost_lt a b = true -> cost_lt b c = true -> cost_lt a c = true.
Proof.
  destruct a as [[x|]|], b as [[y|]|], c as [[z|]|]; simpl;
    try reflexivity; try discriminate.
  intros H1 H2. apply Z.ltb_lt in H1, H2. apply Z.ltb_lt. lia.
Qed.

Lemma relax_eq (u : NodeId) (xu : Z) (d : gmap NodeId Cost)
    (p : gmap NodeId (option NodeId)) (gn : GraphNode) :
  d !! u = Some (Fin xu) ->
  relax avoidNodes avoidEdges u (d, p) gn
  = if includes avoidNodes (node gn) then (d, p)
    else if isEdgeAvoided avoidEdges u (node gn) then (d, p)
    else if cost_lt (Some (Fin (xu + weight gn))) (d !! node gn)
         then (<[node gn := Fin (xu + weight gn)]> d, <[node gn := Some u]> p)
         else (d, p).
Proof.
  intros Hu. unfold relax, alt_of. cbn [fst snd]. rewrite Hu. reflexivity.
Qed.

Lemma relax_step (u : NodeId) (xu : Z) (d : gmap NodeId Cost)
    (p : gmap NodeId (option NodeId)) (gn : GraphNode) :
  d !! u = Some (Fin xu) -> 0 < weight gn ->
  relaxed_from avoidNodes avoidEdges u xu [gn] d p
    (fst (relax avoidNodes avoidEdges u (d, p) gn))
    (snd (relax avoidNodes avoidEdges u (d, p) gn)).
Proof.
  intros Hu Hw. rewrite (relax_eq u xu d p gn Hu).
  destruct gn as [v w]. cbn [node weight] in *.
  unfold relaxed_from, passes.
  destruct (includes avoidNodes v) eqn:Hi.
  { cbn [fst snd]. split; [exact Hu|]. split; [intros k; left; auto|].
    intros v' w' c [Heq | []] [Hp _]. injection Heq as <- <-. congruence. }
  destruct (isEdgeAvoided avoidEdges u v) eqn:He.
  { cbn [fst snd]. split; [exact Hu|]. split; [intros k; left; auto|].
    intros v' w' c [Heq | []] [_ Hp]. injection Heq as <- <-. congruence. }
  destruct (cost_lt (Some (Fin (xu + w))) (d !! v)) eqn:Hlt; cbn [fst snd].
  - assert (Hvu : v <> u).
    { intros ->. rewrite Hu in Hlt. simpl in Hlt. apply Z.ltb_lt in Hlt. lia. }
    split; [rewrite lookup_insert_ne by exact Hvu; exact Hu|].
    split.
    + intros k. destruct (decide (k = v)) as [-> | Hk].
      * right. exists w. rewrite !lookup_insert_eq.
        repeat split; auto. left. reflexivity.
      * left. rewrite !lookup_insert_ne by congruence. auto.
    + intros v' w' c [Heq | []] _ _. injection Heq as <- <-.
      exists (xu + w). rewrite lookup_insert_eq. split; [reflexivity | lia].
  - split; [exact Hu|]. split; [intros k; left; auto|].
    intros v' w' c [Heq | []] _ Hc. injection Heq as <- <-.
    rewrite Hc in Hlt. destruct c as [y|]; simpl in Hlt; [|discriminate].
    exists y. split; [exact Hc|]. apply Z.ltb_ge in Hlt. lia.
Qed.

Lemma relax_fold (u : NodeId) (xu : Z) (nbrs : list GraphNode)
    (d : gmap NodeId Cost) (p : gmap NodeId (option NodeId)) :
  d !! u = Some (Fin xu) ->
  (forall gn, In gn nbrs -> 0 < weight gn) ->
  relaxed_from avoidNodes avoidEdges u xu nbrs d p
    (fst (fold_left (relax avoidNodes avoidEdges u) nbrs (d, p)))
    (snd (fold_left (relax avoidNodes avoidEdges u) nbrs (d, p))).
Proof.
  intros Hu. induction nbrs as [|gn l IH] using rev_ind; intros Hw.
  - simpl. split; [exact Hu|]. split; [intros k; left; auto|].
    intros v w c [].
  - rewrite fold_left_app. simpl fold_left.
    destruct (fold_left (relax avoidNodes avoidEdges u) l (d, p)) as [d1 p1] eqn:E1.
    simpl fst in IH. simpl snd in IH.
    destruct IH as (Hu1 & Hk1 & Hr1).
    { intros g Hg. apply Hw. apply in_or_app. left. exact Hg. }
    assert (Hwg : 0 < weight gn).
    { apply Hw. apply in_or_app. right. left. reflexivity. }
    destruct (relax_step u xu d1 p1 gn Hu1 Hwg) as (Hu2 & Hk2 & Hr2).
    set (st2 := relax avoidNodes avoidEdges u (d1, p1) gn) in *.
    split; [exact Hu2|]. split.
    + intros k. destruct (Hk2 k) as [[Hd2 Hp2] | (w & Hin & Hpass & Hd2 & Hp2 & Hlt)].
      * destruct (Hk1 k) as [[Hd1 Hp1] | (w & Hin & Hpass & Hd1 & Hp1 & Hlt)].
        -- left. split; congruence.
        -- right. exists w. repeat split; try congruence; try apply Hpass.
           apply in_or_app. left. exact Hin.
      * right. exists w. repeat split; try assumption; try apply Hpass.
        -- apply in_or_app. right. exact Hin.
        -- destruct (Hk1 k) as [[Hd1 Hp1] | (w1 & _ & _ & Hd1 & _ & Hlt1)].
           ++ rewrite <- Hd1. exact Hlt.
           ++ rewrite Hd1 in Hlt. eapply cost_lt_trans; eassumption.
    + intros v w c Hin Hpass Hc. apply in_app_or in Hin.
      assert (Hdef1 : exists c1, d1 !! v = Some c1).
      { destruct (Hk1 v) as [[Hd1 _] | (w1 & _ & _ & Hd1 & _)]; eauto.
        rewrite Hd1, Hc. eauto. }
      destruct Hin as [Hin | Hin].
      * destruct (Hr1 v w c Hin Hpass Hc) as (y & Hy & Hle).
        destruct (Hk2 v) as [[Hd2 _] | (w2 & _ & _ & Hd2 & _ & Hlt)].
        -- exists y. split; [congruence | exact Hle].
        -- exists (xu + w2). split; [exact Hd2|].
           rewrite Hy in Hlt. simpl in Hlt. apply Z.ltb_lt in Hlt. lia.
      * destruct Hdef1 as [c1 Hc1]. exact (Hr2 v w c1 Hin Hpass Hc1).
Qed.

End RelaxFacts.


Section Dijkstra.

Import JS Pathfinding PathSpec DijkstraInv.

Variables (graph : Graph) (start : NodeId)
          (avoidNodes : list NodeId) (avoidEdges : list AvoidEdge).

Hypothesis Hwf : graph_wf graph.
Hypothesis Hstart : In start (graph_keys graph).

Local Abbreviation keys := (graph_keys graph).
Local Abbreviation INV := (Inv graph start avoidNodes avoidEdges).
Local Abbreviation edge := (allowed_edge graph avoidNodes avoidEdges).
Local Abbreviation path_to := (walk graph avoidNodes avoidEdges).
Local Abbreviation is_settled := (settled graph).

Lemma edge_facts (u v : NodeId) (w : Z) :
  edge u v w -> In u keys /\ In v keys /\ 0 < w.
Proof.
  intros ((nbrs & Hg & Hin) & _ & _).
  destruct Hwf as (_ & _ & Hn).
  destruct (Hn u nbrs _ Hg Hin) as [Hk Hw]. simpl in Hk, Hw.
  split; [eapply graph_get_key; eassumption | split; assumption].
Qed.

Lemma edge_of_neighbor (u v : NodeId) (w : Z) (nbrs : list GraphNode) :
  graph_get graph u = Some nbrs -> In (mkGraphNode v w) nbrs ->
  passes avoidNodes avoidEdges u v -> edge u v w.
Proof.
  intros Hg Hin [Hi He]. split; [exists nbrs; auto|].
  split; [apply includes_false; exact Hi | apply isEdgeAvoided_false; exact He].
Qed.

Lemma neighbor_of_edge (u v : NodeId) (w : Z) (nbrs : list GraphNode) :
  graph_get graph u = Some nbrs -> edge u v w ->
  In (mkGraphNode v w) nbrs /\ passes avoidNodes avoidEdges u v.
Proof.
  intros Hg ((nbrs' & Hg' & Hin) & Hi & He).
  rewrite Hg in Hg'. injection Hg' as <-.
  split; [exact Hin|].
  split; [apply includes_false; exact Hi | apply isEdgeAvoided_false; exact He].
Qed.

Lemma walk_cost_nonneg (s t : NodeId) (steps : list NodeId) (c : Z) :
  path_to s steps t c -> 0 <= c.
Proof.
  induction 1 as [|s v t steps w c He _ IH]; [lia|].
  apply edge_facts in He. lia.
Qed.

Lemma walk_zero (s t : NodeId) (steps : list NodeId) (c : Z) :
  path_to s steps t c -> c <= 0 -> steps = [].
Proof.
  intros H Hc. destruct H as [|s v t steps w c He Hw]; [reflexivity|].
  apply edge_facts in He. apply walk_cost_nonneg in Hw. lia.
Qed.

Lemma walk_snoc (s u v : NodeId) (steps : list NodeId) (c w : Z) :
  path_to s steps u c -> edge u v w -> path_to s (steps ++ [v]) v (c + w).
Proof.
  induction 1 as [s|s b t steps w' c He _ IH]; intros Hv.
  - simpl. replace (0 + w) with (w + 0) by lia.
    apply walk_step; [exact Hv | apply walk_nil].
  - simpl. replace (w' + c + w) with (w' + (c + w)) by lia.
    apply walk_step; [exact He | apply IH; exact Hv].
Qed.

Lemma Inv_init :
  INV keys (fst (init_tables graph start)) (snd (init_tables graph start)).
Proof.
  unfold init_tables. cbn [fst snd].
  destruct Hwf as (Hnd & _ & _).
  assert (Hd : forall k, In k keys -> k <> start ->
             <[start := Fin 0]>
               (fold_left (fun d k' => <[k' := Infinity]> d) keys (∅ : gmap NodeId Cost))
               !! k = Some Infinity).
  { intros k Hk Hne. rewrite lookup_insert_ne by congruence.
    apply lookup_fold_insert_in. exact Hk. }
  assert (Hfin : forall k x,
             <[start := Fin 0]>
               (fold_left (fun d k' => <[k' := Infinity]> d) keys (∅ : gmap NodeId Cost))
               !! k = Some (Fin x) -> k = start /\ x = 0).
  { intros k x H. destruct (decide (k = start)) as [-> | Hne].
    - rewrite lookup_insert_eq in H. injection H as <-. auto.
    - rewrite lookup_insert_ne in H by congruence.
      destruct (in_dec string_dec k keys) as [Hk | Hk].
      + rewrite lookup_fold_insert_in in H by exact Hk. discriminate.
      + rewrite lookup_fold_insert_out in H by exact Hk.
        rewrite lookup_empty in H. discriminate. }
  constructor.
  - exact Hnd.
  - apply incl_refl.
  - intros k Hk. destruct (decide (k = start)) as [-> | Hne].
    + rewrite lookup_insert_eq. eauto.
    + rewrite Hd by assumption. eauto.
  - split; [apply lookup_insert_eq | apply lookup_fold_insert_in; exact Hstart].
  - intros k x H. apply Hfin in H. lia.
  - intros k Hk _. apply lookup_fold_insert_in. exact Hk.
  - intros k x _ Hne H. apply Hfin in H. destruct H. contradiction.
  - intros u [Hk Hn]. contradiction.
  - intros u v x [Hk Hn]. contradiction.
  - intros u v w x [Hk Hn]. contradiction.
Qed.

(** A walk that leaves the settled region passes a queued node whose
    entry is at most the cost walked so far. *)
Lemma frontier (Q : list NodeId) (d : gmap NodeId Cost) (p : gmap NodeId (option NodeId))
    (a v : NodeId) (steps : list NodeId) (c : Z) :
  INV Q d p -> path_to a steps v c ->
  forall x, is_settled Q a -> d !! a = Some (Fin x) -> In v Q ->
  exists y z, In y Q /\ d !! y = Some (Fin z) /\ z <= x + c.
Proof.
  intros HI Hw. induction Hw as [a|a b t steps w c He Hw IH]; intros x Hs Hx Hv.
  - destruct Hs as [_ Hn]. contradiction.
  - destruct (inv_relaxed _ _ _ _ _ _ _ HI a b w x Hs Hx He) as (yb & Hyb & Hle).
    pose proof (walk_cost_nonneg _ _ _ _ Hw) as Hc.
    destruct (edge_facts _ _ _ He) as (_ & Hbk & Hwpos).
    destruct (in_dec string_dec b Q) as [Hb | Hb].
    + exists b, yb. repeat split; auto. lia.
    + destruct (IH yb (conj Hbk Hb) Hyb Hv) as (y & z & Hy & Hz & Hzle).
      exists y, z. repeat split; auto. lia.
Qed.

(** The entry of a least queued node is a lower bound on the cost of every
    walk from the start to a queued node. *)
Lemma least_is_lower_bound (Q : list NodeId) (d : gmap NodeId Cost)
    (p : gmap NodeId (option NodeId)) (u v : NodeId) (steps : list NodeId) (c : Z) :
  INV Q d p -> In u Q ->
  (forall y, In y Q -> cost_lt (d !! y) (d !! u) = false) ->
  In v Q -> path_to start steps v c ->
  exists x, d !! u = Some (Fin x) /\ x <= c.
Proof.
  intros HI Hu Hmin Hv Hw.
  destruct (inv_dom _ _ _ _ _ _ _ HI u (inv_incl _ _ _ _ _ _ _ HI u Hu)) as [cu Hcu].
  assert (Hz : exists y z, In y Q /\ d !! y = Some (Fin z) /\ z <= c).
  { destruct (in_dec string_dec start Q) as [Hs | Hs].
    - exists start, 0. destruct (inv_start _ _ _ _ _ _ _ HI) as [Hd0 _].
      repeat split; auto. eapply walk_cost_nonneg; eassumption.
    - destruct (inv_start _ _ _ _ _ _ _ HI) as [Hd0 _].
      destruct (frontier Q d p start v steps c HI Hw 0 (conj Hstart Hs) Hd0 Hv)
        as (y & z & Hy & Hz & Hle).
      exists y, z. repeat split; auto. }
  destruct Hz as (y & z & Hy & Hdz & Hle).
  specialize (Hmin y Hy). rewrite Hdz, Hcu in Hmin.
  destruct cu as [x|]; simpl in Hmin; [|discriminate].
  exists x. split; [exact Hcu|]. apply Z.ltb_ge in Hmin. lia.
Qed.

Lemma settled_step (Q Q' : list NodeId) (u k : NodeId) :
  Permutation Q (u :: Q') -> List.NoDup Q -> In u keys ->
  (is_settled Q' k <-> is_settled Q k \/ k = u).
Proof.
  intros Hp Hnd Hu.
  assert (Hnd' : List.NoDup (u :: Q')) by (eapply Permutation_NoDup; eassumption).
  inversion Hnd' as [|? ? Hnu _]; subst.
  unfold settled. split.
  - intros [Hk Hn]. destruct (decide (k = u)) as [-> | Hne]; [right; reflexivity|].
    left. split; [exact Hk|]. intros Hin.
    apply (Permutation_in _ Hp) in Hin. destruct Hin as [-> | Hin]; contradiction.
  - intros [[Hk Hn] | ->].
    + split; [exact Hk|]. intros Hin. apply Hn.
      apply (Permutation_in _ (Permutation_sym Hp)). right. exact Hin.
    + split; assumption.
Qed.

Lemma Inv_step (Q Q' : list NodeId) (d : gmap NodeId Cost)
    (p : gmap NodeId (option NodeId)) (u : NodeId) (xu : Z) (nbrs : list GraphNode) :
  INV Q d p ->
  Permutation Q (u :: Q') ->
  (forall y, In y Q -> cost_lt (d !! y) (d !! u) = false) ->
  d !! u = Some (Fin xu) ->
  graph_get graph u = Some nbrs ->
  INV Q' (fst (fold_left (relax avoidNodes avoidEdges u) nbrs (d, p)))
         (snd (fold_left (relax avoidNodes avoidEdges u) nbrs (d, p))).
Proof.
  intros HI Hperm Hmin Hxu Hg.
  assert (Hwpos : forall gn, In gn nbrs -> 0 < weight gn).
  { intros gn Hin. destruct Hwf as (_ & _ & Hn). apply (Hn u nbrs gn Hg Hin). }
  destruct (relax_fold avoidNodes avoidEdges u xu nbrs d p Hxu Hwpos)
    as (Hu' & Hk & Hr).
  set (d' := fst (fold_left (relax avoidNodes avoidEdges u) nbrs (d, p))) in *.
  set (p' := snd (fold_left (relax avoidNodes avoidEdges u) nbrs (d, p))) in *.
  clearbody d' p'.
  pose proof (inv_nodup _ _ _ _ _ _ _ HI) as Hnd.
  assert (HuQ : In u Q).
  { apply (Permutation_in _ (Permutation_sym Hperm)). left. reflexivity. }
  assert (Huk : In u keys) by (apply (inv_incl _ _ _ _ _ _ _ HI); exact HuQ).
  assert (Hnd' : List.NoDup (u :: Q')) by (eapply Permutation_NoDup; eassumption).
  assert (HQ' : forall v, In v Q' -> In v Q).
  { intros v Hv. apply (Permutation_in _ (Permutation_sym Hperm)). right. exact Hv. }
  assert (Hxu0 : 0 <= xu) by (eapply inv_nonneg; eassumption).
  (* entries of settled nodes and of the start node are not touched *)
  assert (Hkeep : forall k, is_settled Q k -> d' !! k = d !! k /\ p' !! k = p !! k).
  { intros k Hs. destruct (Hk k) as [H | (w & Hin & _ & _ & _ & Hlt)]; [exact H|].
    exfalso. destruct (inv_settled_fin _ _ _ _ _ _ _ HI k Hs) as [xk Hxk].
    pose proof (inv_settled_le _ _ _ _ _ _ _ HI k u xk Hs HuQ Hxk) as Hle.
    rewrite Hxu in Hle. rewrite Hxk in Hlt. simpl in Hle, Hlt.
    apply Z.ltb_ge in Hle. apply Z.ltb_lt in Hlt.
    specialize (Hwpos _ Hin). simpl in Hwpos. lia. }
  assert (Hkeep0 : d' !! start = d !! start /\ p' !! start = p !! start).
  { destruct (Hk start) as [H | (w & Hin & _ & _ & _ & Hlt)]; [exact H|].
    exfalso. destruct (inv_start _ _ _ _ _ _ _ HI) as [H0 _].
    rewrite H0 in Hlt. simpl in Hlt. apply Z.ltb_lt in Hlt.
    specialize (Hwpos _ Hin). simpl in Hwpos. lia. }
  assert (Hset : forall k, is_settled Q' k -> is_settled Q k \/ k = u).
  { intros k. apply settled_step; assumption. }
  assert (Hset' : forall k, is_settled Q k -> is_settled Q' k).
  { intros k Hs. apply (settled_step Q Q' u k Hperm Hnd Huk). left. exact Hs. }
  assert (Hsetu : is_settled Q' u).
  { apply (settled_step Q Q' u u Hperm Hnd Huk). right. reflexivity. }
  constructor.
  - inversion Hnd'; assumption.
  - intros v Hv. apply (inv_incl _ _ _ _ _ _ _ HI). apply HQ'. exact Hv.
  - intros k Hkk. destruct (inv_dom _ _ _ _ _ _ _ HI k Hkk) as [c Hc].
    destruct (Hk k) as [[Hd _] | (w & _ & _ & Hd & _)]; [|eauto].
    rewrite Hd. eauto.
  - destruct Hkeep0 as [-> ->]. apply (inv_start _ _ _ _ _ _ _ HI).
  - intros k x Hx. destruct (Hk k) as [[Hd _] | (w & Hin & _ & Hd & _)].
    + rewrite Hd in Hx. eapply inv_nonneg; eassumption.
    + rewrite Hd in Hx. injection Hx as <-.
      specialize (Hwpos _ Hin). simpl in Hwpos. lia.
  - intros k Hkk Hinf. destruct (Hk k) as [[Hd Hp] | (w & _ & _ & Hd & _)].
    + rewrite Hp. apply (inv_inf _ _ _ _ _ _ _ HI k Hkk). congruence.
    + congruence.
  - intros k x Hkk Hne Hx.
    destruct (Hk k) as [[Hd Hp] | (w & Hin & Hpass & Hd & Hp & _)].
    + rewrite Hd in Hx.
      destruct (inv_tree _ _ _ _ _ _ _ HI k x Hkk Hne Hx)
        as (u0 & w & y & Hpk & Hs0 & Hy & He & Hxy).
      exists u0, w, y.
      refine (conj _ (conj (Hset' u0 Hs0) (conj _ (conj He Hxy)))).
      * congruence.
      * destruct (Hkeep u0 Hs0) as [-> _]. exact Hy.
    + rewrite Hd in Hx. injection Hx as <-.
      exists u, w, xu.
      refine (conj Hp (conj Hsetu (conj Hu' (conj _ eq_refl)))).
      eapply edge_of_neighbor; eassumption.
  - intros k Hs. destruct (Hset k Hs) as [Hs0 | ->].
    + destruct (Hkeep k Hs0) as [-> _]. eapply inv_settled_fin; eassumption.
    + eauto.
  - intros a v x Hs Hv Hx.
    assert (Hdv : cost_lt (d !! v) (Some (Fin x)) = false
                  /\ x <= xu).
    { destruct (Hset a Hs) as [Hs0 | ->].
      - destruct (Hkeep a Hs0) as [Ha _]. rewrite Ha in Hx.
        split; [eapply inv_settled_le; eauto|].
        pose proof (inv_settled_le _ _ _ _ _ _ _ HI a u x Hs0 HuQ Hx) as Hle.
        rewrite Hxu in Hle. simpl in Hle. apply Z.ltb_ge in Hle. lia.
      - rewrite Hu' in Hx. injection Hx as <-.
        split; [|lia]. rewrite <- Hxu. apply Hmin. apply HQ'. exact Hv. }
    destruct Hdv as [Hdv Hle].
    destruct (Hk v) as [[Hd _] | (w & Hin & _ & Hd & _)].
    + rewrite Hd. exact Hdv.
    + rewrite Hd. simpl. apply Z.ltb_ge.
      specialize (Hwpos _ Hin). simpl in Hwpos. lia.
  - intros a v w x Hs Hx He.
    destruct (edge_facts _ _ _ He) as (_ & Hvk & Hw).
    destruct (Hset a Hs) as [Hs0 | ->].
    + destruct (Hkeep a Hs0) as [Ha _]. rewrite Ha in Hx.
      destruct (inv_relaxed _ _ _ _ _ _ _ HI a v w x Hs0 Hx He) as (y & Hy & Hle).
      destruct (Hk v) as [[Hd _] | (w' & Hin & _ & Hd & _ & Hlt)].
      * exists y. split; [congruence | exact Hle].
      * exists (xu + w'). split; [exact Hd|].
        rewrite Hy in Hlt. simpl in Hlt. apply Z.ltb_lt in Hlt. lia.
    + rewrite Hu' in Hx. injection Hx as <-.
      destruct (neighbor_of_edge u v w nbrs Hg He) as [Hin Hpass].
      destruct (inv_dom _ _ _ _ _ _ _ HI v Hvk) as [c Hc].
      exact (Hr v w c Hin Hpass Hc).
Qed.

Lemma dijkstra_post (target : NodeId) (fuel : nat) (Q : list NodeId)
    (d : gmap NodeId Cost) (p : gmap NodeId (option NodeId)) :
  INV Q d p -> (length Q <= fuel)%nat -> In target Q ->
  loop_post graph start avoidNodes avoidEdges target
    (fst (dijkstra fuel graph target avoidNodes avoidEdges Q (d, p)))
    (snd (dijkstra fuel graph target avoidNodes avoidEdges Q (d, p))).
Proof.
  revert Q d p. induction fuel as [|fuel IH]; intros Q d p HI Hlen Ht.
  - destruct Q; [destruct Ht | simpl in Hlen; lia].
  - cbn [dijkstra fst].
    pose proof (sort_queue_perm d Q) as Hperm.
    destruct (sort_queue d Q) as [|u Q'] eqn:Hsort.
    { apply Permutation_sym, Permutation_nil in Hperm. subst. destruct Ht. }
    assert (Hdef : forall k, In k Q -> exists c, d !! k = Some c).
    { intros k Hk. apply (inv_dom _ _ _ _ _ _ _ HI).
      apply (inv_incl _ _ _ _ _ _ _ HI). exact Hk. }
    pose proof (sort_queue_head d Q u Q' Hdef Hsort) as Hmin.
    assert (HuQ : In u Q).
    { apply (Permutation_in _ (Permutation_sym Hperm)). left. reflexivity. }
    assert (Huk : In u keys) by (apply (inv_incl _ _ _ _ _ _ _ HI); exact HuQ).
    assert (Hne : String.eqb u "" = false).
    { apply String.eqb_neq. intros ->. destruct Hwf as (_ & He & _). contradiction. }
    rewrite Hne.
    assert (Hstop : loop_post graph start avoidNodes avoidEdges target d p
                    \/ (u <> target /\ exists xu, d !! u = Some (Fin xu))).
    { destruct (Hdef u HuQ) as [[xu|] Hcu].
      - destruct (decide (u = target)) as [-> | Hnt]; [|right; eauto].
        left. split; [exists Q; exact HI|]. intros steps c Hw.
        eapply least_is_lower_bound; eassumption.
      - left. split; [exists Q; exact HI|]. intros steps c Hw.
        destruct (least_is_lower_bound Q d p u target steps c HI HuQ Hmin Ht Hw)
          as (x & Hx & _). congruence. }
    destruct (String.eqb u target) eqn:Heq.
    { apply String.eqb_eq in Heq. subst u. cbn [fst snd].
      destruct Hstop as [H | [H _]]; [exact H | contradiction]. }
    apply String.eqb_neq in Heq.
    destruct (d !! u) as [[xu|]|] eqn:Hcu.
    + destruct (graph_get_of_key graph u Huk) as [nbrs Hg]. rewrite Hg.
      pose proof (Inv_step Q Q' d p u xu nbrs HI Hperm) as Hstep.
      rewrite Hcu in Hstep. specialize (Hstep Hmin eq_refl Hg).
      destruct (fold_left (relax avoidNodes avoidEdges u) nbrs (d, p)) as [d1 p1].
      apply IH.
      * exact Hstep.
      * apply Permutation_length in Hperm. simpl in Hperm. lia.
      * apply (Permutation_in _ Hperm) in Ht. destruct Ht as [-> | Ht];
          [contradiction | exact Ht].
    + cbn [fst snd]. destruct Hstop as [H | (_ & xu & Hx)]; [exact H | discriminate].
    + destruct (Hdef u HuQ) as [c Hc]. congruence.
Qed.

(** ** The [previous] chain *)

Lemma filter_length_lt {A : Type} (f g : A -> bool) (l : list A) (a : A) :
  (forall x, f x = true -> g x = true) ->
  In a l -> f a = false -> g a = true ->
  (length (List.filter f l) < length (List.filter g l))%nat.
Proof.
  intros Hfg Hin Hfa Hga.
  assert (Hle : forall l', (length (List.filter f l') <= length (List.filter g l'))%nat).
  { induction l' as [|x l' IH]; simpl; [lia|].
    destruct (f x) eqn:Hf.
    - rewrite (Hfg x Hf). simpl. lia.
    - destruct (g x); simpl; lia. }
  induction l as [|x l IH]; [destruct Hin|].
  simpl. destruct Hin as [-> | Hin].
  - rewrite Hfa, Hga. simpl. specialize (Hle l). lia.
  - specialize (IH Hin). destruct (f x) eqn:Hf.
    + rewrite (Hfg x Hf). simpl. lia.
    + destruct (g x); simpl; lia.
Qed.

Lemma rank_lt (d : gmap NodeId Cost) (u v : NodeId) (y x : Z) :
  In u keys -> d !! u = Some (Fin y) -> d !! v = Some (Fin x) -> y < x ->
  (rank graph d u < rank graph d v)%nat.
Proof.
  intros Hu Hy Hx Hlt. unfold rank.
  apply (filter_length_lt _ _ keys u).
  - intros k Hk. rewrite Hy in Hk. rewrite Hx.
    eapply cost_lt_trans; [exact Hk|]. simpl. apply Z.ltb_lt. exact Hlt.
  - exact Hu.
  - apply cost_lt_irrefl.
  - rewrite Hy, Hx. simpl. apply Z.ltb_lt. exact Hlt.
Qed.

Lemma rank_bound (d : gmap NodeId Cost) (v : NodeId) :
  (rank graph d v <= length keys)%nat.
Proof. unfold rank. apply List.filter_length_le. Qed.

Lemma walk_back_spec (Q : list NodeId) (d : gmap NodeId Cost)
    (p : gmap NodeId (option NodeId)) :
  INV Q d p ->
  forall fuel v x acc,
    In v keys -> d !! v = Some (Fin x) -> (rank graph d v < fuel)%nat ->
    exists l, walk_back fuel p v acc = Some (start :: l ++ acc)
              /\ path_to start l v x.
Proof.
  intros HI. induction fuel as [|fuel IH]; intros v x acc Hv Hx Hr; [lia|].
  cbn [walk_back].
  destruct (decide (v = start)) as [-> | Hne].
  - destruct (inv_start _ _ _ _ _ _ _ HI) as [H0 Hp0]. rewrite Hp0.
    rewrite H0 in Hx. injection Hx as <-.
    exists []. split; [reflexivity | apply walk_nil].
  - destruct (inv_tree _ _ _ _ _ _ _ HI v x Hv Hne Hx)
      as (u & w & y & Hp & [Huk _] & Hy & He & ->).
    rewrite Hp.
    destruct (edge_facts _ _ _ He) as (_ & _ & Hw).
    destruct (IH u y (v :: acc) Huk Hy) as (l & Hl & Hwalk).
    { pose proof (rank_lt d u v y (y + w) Huk Hy Hx). lia. }
    exists (l ++ [v]). split.
    + rewrite Hl. rewrite <- app_assoc. reflexivity.
    + eapply walk_snoc; eassumption.
Qed.

Lemma findPath_spec (target : NodeId) :
  In target keys ->
  exists steps,
    findPath start target graph avoidNodes avoidEdges = Some steps
    /\ (reachable graph avoidNodes avoidEdges start target ->
        min_cost_path graph avoidNodes avoidEdges start steps target)
    /\ (steps = [] <->
        start = target \/ ~ reachable graph avoidNodes avoidEdges start target).
Proof.
  intros Ht. unfold findPath.
  pose proof (dijkstra_post target (length keys) keys
                (fst (init_tables graph start)) (snd (init_tables graph start))
                Inv_init (Nat.le_refl _) Ht) as Hpost.
  rewrite <- surjective_pairing in Hpost.
  destruct (dijkstra (length keys) graph target avoidNodes avoidEdges keys
                     (init_tables graph start)) as [d p].
  cbn [fst snd] in *.
  destruct Hpost as [[Q HI] Hopt].
  destruct (inv_dom _ _ _ _ _ _ _ HI target Ht) as [[x|] Hx].
  - (* the target has a finite entry *)
    destruct (walk_back_spec Q d p HI (S (length keys)) target x [] Ht Hx)
      as (l & Hl & Hwalk).
    { pose proof (rank_bound d target). lia. }
    rewrite app_nil_r in Hl.
    assert (Hguard : (match p !! target with Some None => false | _ => true end
                      || String.eqb target start) = true).
    { destruct (decide (target = start)) as [-> | Hne].
      - rewrite String.eqb_refl. apply orb_true_r.
      - destruct (inv_tree _ _ _ _ _ _ _ HI target x Ht Hne Hx)
          as (u & w & y & Hp & _). rewrite Hp. reflexivity. }
    rewrite Hguard, Hl. cbn [tl].
    exists l. split; [reflexivity|]. split.
    + intros _. exists x. split; [exact Hwalk|].
      intros steps' c' Hw'. destruct (Hopt steps' c' Hw') as (x' & Hx' & Hle).
      congruence.
    + split.
      * intros ->. left. inversion Hwalk. reflexivity.
      * intros [<- | Hnr].
        -- destruct (inv_start _ _ _ _ _ _ _ HI) as [H0 _].
           rewrite H0 in Hx. injection Hx as <-.
           eapply walk_zero; [exact Hwalk | lia].
        -- exfalso. apply Hnr. exists l, x. exact Hwalk.
  - (* the target was never reached *)
    assert (Hnr : ~ reachable graph avoidNodes avoidEdges start target).
    { intros (steps & c & Hw). destruct (Hopt steps c Hw) as (x & Hx' & _).
      congruence. }
    assert (Hne : target <> start).
    { intros ->. destruct (inv_start _ _ _ _ _ _ _ HI) as [H0 _]. congruence. }
    rewrite (inv_inf _ _ _ _ _ _ _ HI target Ht Hx).
    apply String.eqb_neq in Hne. rewrite Hne. cbn [orb].
    exists []. split; [reflexivity|]. split.
    + intros Hr. contradiction.
    + split; [intros _; right; exact Hnr | reflexivity].
Qed.

End Dijkstra.

(* --------------------------------------------------------------------- *)
(** ** The executable well-formedness check is sound *)
(* --------------------------------------------------------------------- *)

Section CheckerFacts.

Import JS Pathfinding PathSpec.

Lemma distinct_NoDup (l : list NodeId) : distinct l = true -> List.NoDup l.
Proof.
  induction l as [|x l IH]; intros H; [constructor|].
  simpl in H. apply andb_prop in H. destruct H as [Hx Hl].
  constructor; [|apply IH; exact Hl].
  apply includes_false. destruct (includes l x); [discriminate | reflexivity].
Qed.

Lemma includes_true (l : list NodeId) (x : NodeId) : includes l x = true -> In x l.
Proof.
  unfold includes. intros H. apply existsb_exists in H.
  destruct H as (y & Hy & He). apply String.eqb_eq in He. subst. exact Hy.
Qed.

Lemma graph_wfb_sound (graph : Graph) : graph_wfb graph = true -> graph_wf graph.
Proof.
  unfold graph_wfb, graph_wf. intros H.
  apply andb_prop in H. destruct H as [H Hn].
  apply andb_prop in H. destruct H as [Hd He].
  split; [apply distinct_NoDup; exact Hd|].
  split.
  - apply includes_false. destruct (includes (graph_keys graph) ""); [discriminate|].
    reflexivity.
  - intros u nbrs gn Hg Hin. unfold graph_get in Hg.
    destruct (List.find (fun kv => String.eqb (fst kv) u) graph) as [kv|] eqn:E;
      [|discriminate].
    injection Hg as <-. apply find_some in E. destruct E as [Hkv _].
    rewrite forallb_forall in Hn. specialize (Hn kv Hkv).
    rewrite forallb_forall in Hn. specialize (Hn gn Hin).
    apply andb_prop in Hn. destruct Hn as [Hk Hw].
    split; [apply includes_true; exact Hk | apply Z.ltb_lt; exact Hw].
Qed.

End CheckerFacts.

(* --------------------------------------------------------------------- *)
(** ** The heading loops of the front sensor *)
(* --------------------------------------------------------------------- *)

Section HeadingFacts.
Import JS.
Local Open Scope R_scope.

Lemma atan2_range (y x : R) : - PI < atan2 y x <= PI.
Proof.
  pose proof PI_RGT_0 as Hpi. pose proof (atan_bound (y / x)) as [Hlo Hhi].
  unfold atan2.
  destruct (Rlt_dec 0 x) as [Hx|Hx]; [lra|].
  destruct (Rlt_dec x 0) as [Hx'|Hx'].
  - assert (Hinv : / x < 0) by (apply Rinv_lt_0_compat; exact Hx').
    destruct (Rle_dec 0 y) as [Hy|Hy].
    + assert (Hq : y / x <= 0) by (unfold Rdiv; nra).
      assert (atan (y / x) <= 0).
      { destruct Hq as [Hq|Hq]; [|rewrite Hq, atan_0; lra].
        apply atan_increasing in Hq. rewrite atan_0 in Hq. lra. }
      lra.
    + assert (Hq : 0 < y / x) by (unfold Rdiv; nra).
      apply atan_increasing in Hq. rewrite atan_0 in Hq. lra.
  - destruct (Rlt_dec 0 y); [lra|]. destruct (Rlt_dec y 0); lra.
Qed.

(** Both [while] loops of the heading test have ended within the two
    rounds the model gives them. *)
Lemma heading_loops_done (y1 x1 y2 x2 : R) :
  let diff := atan2 y1 x1 - atan2 y2 x2 in
  num_lt PI (wrap_down 2 diff) = false
  /\ num_lt (wrap_up 2 (wrap_down 2 diff)) (- PI) = false.
Proof.
  pose proof PI_RGT_0 as Hpi.
  pose proof (atan2_range y1 x1). pose proof (atan2_range y2 x2).
  cbv zeta. set (diff := atan2 y1 x1 - atan2 y2 x2) in *.
  assert (Hd : - (2 * PI) < diff < 2 * PI) by (unfold diff; lra).
  clearbody diff. unfold wrap_down, wrap_up, num_lt.
  repeat match goal with
         | |- context [Rlt_dec ?a ?b] =>
             lazymatch a with
             | context [Rlt_dec _ _] => fail
             | _ => destruct (Rlt_dec a b); try lra
             end
         end; split; reflexivity.
Qed.
End HeadingFacts.

(* --------------------------------------------------------------------- *)
(** ** The traffic arbiter *)
(* --------------------------------------------------------------------- *)

Section ArbiterFacts.

Import JS TrafficManager ArbiterSpec.
Local Open Scope R_scope.

Variables (ego : AGV) (egoNode nextNode : Node).

Lemma find_pointwise {A : Type} (f g : A -> bool) (l : list A) :
  (forall x, f x = g x) -> List.find f l = List.find g l.
Proof.
  intros H. induction l as [|x l IH]; simpl; [reflexivity|].
  rewrite H, IH. reflexivity.
Qed.

Lemma find_never {A : Type} (f : A -> bool) (l : list A) :
  (forall x, f x = false) -> List.find f l = None.
Proof.
  intros H. induction l as [|x l IH]; simpl; [reflexivity|].
  rewrite H. exact IH.
Qed.

Lemma reservation_check_spec (fleet : list AGV) :
  reservation_check ego fleet =
  match List.find (fires ego egoNode nextNode R0) fleet with
  | Some other => Some (verdict ego R0 other)
  | None => None
  end.
Proof.
  unfold reservation_check.
  destruct (path ego) as [|n rest] eqn:Hp.
  - rewrite andb_false_r.
    rewrite (find_never (fires ego egoNode nextNode R0)); [reflexivity|].
    intros o. unfold fires. rewrite Hp. simpl. rewrite !andb_false_r. reflexivity.
  - simpl hd_error. simpl length. rewrite andb_true_r.
    destruct (num_lt (progress ego) 0.05) eqn:Hlt.
    + rewrite (find_pointwise (fires ego egoNode nextNode R0)
                 (fun other => negb (agv_id other =? agv_id ego)%Z
                               && includes (reservedNodes other) n)).
      * unfold verdict. rewrite Hp. simpl.
        destruct (List.find _ fleet); reflexivity.
      * intros o. unfold fires. rewrite Hp, Hlt. reflexivity.
    + rewrite (find_never (fires ego egoNode nextNode R0)); [reflexivity|].
      intros o. unfold fires. rewrite Hlt. simpl. rewrite andb_false_r. reflexivity.
Qed.

Lemma num_le_lt_neg (a b : R) : num_le a b = negb (num_lt b a).
Proof.
  unfold num_le, num_lt.
  destruct (Rle_dec a b), (Rlt_dec b a); simpl; try reflexivity; lra.
Qed.

(** One loop iteration agrees with the first rule of R1 .. R5 that fires. *)
Lemma check_other_spec (other : AGV) :
  check_other ego egoNode nextNode other =
  match first_rule_of ego egoNode nextNode other with
  | Some r => Some (verdict ego r other)
  | None => None
  end.
Proof.
  unfold check_other, first_rule_of, fires, List.find.
  destruct (agv_id other =? agv_id ego)%Z eqn:Hid; simpl; [reflexivity|].
  unfold rule_head_on, rule_entry, rule_occupied, rule_merge, rule_sensor, toNext, verdict.
  destruct (opt_eqb (hd_error (path ego)) (Some (currentNode other))) eqn:E1;
  destruct (opt_eqb (hd_error (path other)) (Some (currentNode ego))) eqn:E2;
    simpl; try reflexivity;
  destruct (num_lt (progress ego) 0.05) eqn:E3; simpl;
  rewrite ?num_le_lt_neg, ?E3; simpl.
  all: repeat match goal with
       | |- context [if ?c then _ else _] =>
           let E := fresh "E" in destruct c eqn:E; simpl in *; try reflexivity; try congruence
       end.
Qed.

End ArbiterFacts.

Section ArbiterOrder.

Import JS TrafficManager ArbiterSpec Samples.
Local Open Scope R_scope.

Lemma scan_others_spec (ego : AGV) (egoNode nextNode : Node) (fleet : list AGV) :
  scan_others ego egoNode nextNode fleet = first_agv_any ego egoNode nextNode fleet.
Proof.
  induction fleet as [|o fl IH]; simpl; [reflexivity|].
  rewrite check_other_spec.
  destruct (first_rule_of ego egoNode nextNode o); [reflexivity | exact IH].
Qed.

Lemma checkTrafficRules_refines (ego : AGV) (egoNode nextNode : Node)
    (fleet : list AGV) :
  checkTrafficRules ego egoNode nextNode fleet
  = arbitrate_agv_major ego egoNode nextNode fleet.
Proof.
  unfold checkTrafficRules, arbitrate_agv_major.
  rewrite (reservation_check_spec ego egoNode nextNode).
  destruct (List.find (fires ego egoNode nextNode R0) fleet); [reflexivity|].
  apply scan_others_spec.
Qed.

(** C2 (as amended): [checkTrafficRules] tries R0 against the whole
    snapshot first; failing that, the verdict is that of the first AGV in
    snapshot order against which any of R1, R2a, R2b, R3, R4, R5 fires, and
    for that AGV of the first rule in this order. *)
Theorem checkTrafficRules_agv_major (ego : AGV) (egoNode nextNode : Node)
    (fleet : list AGV) :
  checkTrafficRules ego egoNode nextNode fleet
  = arbitrate_agv_major ego egoNode nextNode fleet.
Proof. apply checkTrafficRules_refines. Qed.

(** C2 fails as stated: an AGV of the snapshot triggers R1 against ego, the
    rule-major reading answers REPATH_HEAD_ON, and [checkTrafficRules]
    answers WAIT because an AGV listed earlier triggers R2a. *)
Lemma checkTrafficRules_not_rule_major :
  In oncomingAtB [parkedAtB; oncomingAtB]
  /\ fires egoAtA nodeA nodeB R1 oncomingAtB = true
  /\ action (arbitrate_rule_major egoAtA nodeA nodeB [parkedAtB; oncomingAtB])
     = REPATH_HEAD_ON
  /\ checkTrafficRules egoAtA nodeA nodeB [parkedAtB; oncomingAtB]
     = mkResult WAIT (Some "Dest B Occupied") None (Some 2%Z).
Proof.
  split; [right; left; reflexivity|].
  split; [reflexivity|].
  split.
  - unfold arbitrate_rule_major, rule_order, first_rule_any, List.find, fires.
    simpl. num_decide. reflexivity.
  - rewrite checkTrafficRules_refines.
    unfold arbitrate_agv_major, first_agv_any, first_rule_of, List.find, fires.
    simpl. num_decide. reflexivity.
Qed.

Lemma sensor_rule_needs_speed (ego : AGV) (egoNode nextNode : Node) (other : AGV) :
  currentSpeed ego = 0 -> rule_sensor ego egoNode nextNode other = None.
Proof.
  intros Hs. unfold rule_sensor. rewrite Hs.
  rewrite !Rmult_0_r, !Rplus_0_r, num_lt_irrefl.
  repeat match goal with
         | |- context [if ?c then _ else _] => destruct c
         end; reflexivity.
Qed.

Lemma sensor_rule_needs_edge (ego : AGV) (egoNode nextNode : Node) (other : AGV) :
  Outcomes.edge_length egoNode nextNode = 0 ->
  rule_sensor ego egoNode nextNode other = None.
Proof.
  intros H. unfold Outcomes.edge_length in H. apply sqrt_eq_0 in H;
    [|apply Rplus_le_le_0_compat; apply Rle_0_sqr].
  pose proof (Rle_0_sqr (node_x nextNode - node_x egoNode)) as Hx.
  pose proof (Rle_0_sqr (node_y nextNode - node_y egoNode)) as Hy.
  unfold Rsqr in Hx, Hy.
  assert (Hdx : node_x nextNode - node_x egoNode = 0)
    by (apply Rsqr_0_uniq; unfold Rsqr; lra).
  assert (Hdy : node_y nextNode - node_y egoNode = 0)
    by (apply Rsqr_0_uniq; unfold Rsqr; lra).
  unfold rule_sensor. rewrite Hdx, Hdy. unfold Rdiv.
  rewrite !Rmult_0_l, !Rplus_0_r, num_lt_irrefl.
  repeat match goal with
         | |- context [if ?c then _ else _] => destruct c
         end; reflexivity.
Qed.

Lemma R5_needs_speed (ego : AGV) (egoNode nextNode : Node) (other : AGV) :
  currentSpeed ego = 0 -> fires ego egoNode nextNode R5 other = false.
Proof.
  intros Hs. unfold fires. rewrite Hs.
  rewrite !Rmult_0_r, !Rplus_0_r, num_lt_irrefl.
  rewrite !andb_false_r. reflexivity.
Qed.

Lemma first_agv_any_cases (ego : AGV) (egoNode nextNode : Node) (fleet : list AGV) :
  first_agv_any ego egoNode nextNode fleet = no_conflict
  \/ exists r other,
       In other fleet /\ In r [R1; R2a; R2b; R3; R4; R5]
       /\ fires ego egoNode nextNode r other = true
       /\ first_agv_any ego egoNode nextNode fleet = verdict ego r other.
Proof.
  induction fleet as [|o fl IH]; simpl; [left; reflexivity|].
  destruct (first_rule_of ego egoNode nextNode o) as [r|] eqn:Hr.
  - right. exists r, o. apply find_some in Hr. destruct Hr as [Hin Hf].
    repeat split; auto.
  - destruct IH as [IH | (r & other & Hin & Hr' & Hf & Heq)]; [left; exact IH|].
    right. exists r, other. repeat split; auto.
Qed.

(** C10: with [currentSpeed = 0] rule 5 (the front sensor) fires against
    no AGV, so the verdict of [checkTrafficRules] is MOVE or the verdict of
    one of R0, R1, R2a, R2b, R3, R4 against some AGV of the snapshot; it is
    never "Front Sensor: Stop". *)
Theorem stopped_ego_never_front_sensor (ego : AGV) (egoNode nextNode : Node)
    (fleet : list AGV) :
  currentSpeed ego = 0 ->
  (forall other, rule_sensor ego egoNode nextNode other = None)
  /\ (checkTrafficRules ego egoNode nextNode fleet = no_conflict
      \/ exists r other,
           In other fleet /\ In r [R0; R1; R2a; R2b; R3; R4]
           /\ fires ego egoNode nextNode r other = true
           /\ checkTrafficRules ego egoNode nextNode fleet = verdict ego r other)
  /\ conflictReason (checkTrafficRules ego egoNode nextNode fleet)
     <> Some "Front Sensor: Stop".
Proof.
  intros Hs.
  assert (Hcases :
    checkTrafficRules ego egoNode nextNode fleet = no_conflict
    \/ exists r other,
         In other fleet /\ In r [R0; R1; R2a; R2b; R3; R4]
         /\ fires ego egoNode nextNode r other = true
         /\ checkTrafficRules ego egoNode nextNode fleet = verdict ego r other).
  { rewrite checkTrafficRules_refines. unfold arbitrate_agv_major.
    destruct (List.find (fires ego egoNode nextNode R0) fleet) as [o|] eqn:H0.
    - right. exists R0, o. apply find_some in H0. destruct H0 as [Hin Hf].
      repeat split; auto. left; reflexivity.
    - destruct (first_agv_any_cases ego egoNode nextNode fleet)
        as [Hm | (r & other & Hin & Hr & Hf & Heq)]; [left; exact Hm|].
      right. exists r, other. repeat split; auto.
      simpl in Hr.
      destruct Hr as [<-|[<-|[<-|[<-|[<-|[<-|[]]]]]]]; simpl; auto 10.
      rewrite R5_needs_speed in Hf by exact Hs. discriminate. }
  split; [intros other; apply sensor_rule_needs_speed; exact Hs|].
  split; [exact Hcases|].
  destruct Hcases as [-> | (r & other & _ & Hr & _ & ->)]; [discriminate|].
  simpl in Hr.
  destruct Hr as [<-|[<-|[<-|[<-|[<-|[<-|[]]]]]]]; simpl; discriminate.
Qed.

Lemma stopped_ego_never_front_sensor_witness :
  conflictReason (checkTrafficRules egoAtA nodeA nodeB [parkedAtB; oncomingAtB])
  <> Some "Front Sensor: Stop".
Proof.
  apply (stopped_ego_never_front_sensor egoAtA nodeA nodeB [parkedAtB; oncomingAtB]).
  reflexivity.
Defined.

End ArbiterOrder.

(* --------------------------------------------------------------------- *)
(** ** The per-AGV update *)
(* --------------------------------------------------------------------- *)

Section TickFacts.

Import JS Pathfinding TrafficManager Simulation Outcomes.
Local Open Scope R_scope.

Variables (mapData : MapData) (graph : Graph).

(** With auto-pilot off the update is the movement logic. *)
Lemma updateAgv_manual (prevAgvs : list AGV) (agv : AGV) (w : World) :
  updateAgv mapData graph false prevAgvs agv w = movement mapData graph prevAgvs agv w.
Proof. reflexivity. Qed.

(** The auto-pilot block is skipped for an AGV that is neither IDLE nor
    COMPLETED. *)
Lemma updateAgv_busy (rm : bool) (prevAgvs : list AGV) (agv : AGV) (w : World) :
  status agv <> IDLE -> status agv <> COMPLETED ->
  updateAgv mapData graph rm prevAgvs agv w = movement mapData graph prevAgvs agv w.
Proof.
  intros Hi Hc. unfold updateAgv, autoPilot.
  destruct (status agv); try congruence; rewrite ?andb_false_r; reflexivity.
Qed.

Lemma movement_no_target (prevAgvs : list AGV) (agv : AGV) (w : World) :
  targetNode agv = None ->
  movement mapData graph prevAgvs agv w = (Normal (idle_record agv), w).
Proof. intros H. unfold movement. rewrite H. reflexivity. Qed.

Lemma movement_no_path (prevAgvs : list AGV) (agv : AGV) (w : World) :
  path agv = [] ->
  movement mapData graph prevAgvs agv w = (Normal (idle_record agv), w).
Proof. intros H. unfold movement. rewrite H. simpl. rewrite orb_true_r. reflexivity. Qed.

Lemma movement_dispatch (prevAgvs : list AGV) (agv : AGV) (w : World)
    (t n : NodeId) (rest : list NodeId) (cn nn : Node) :
  targetNode agv = Some t -> t <> "" ->
  path agv = n :: rest ->
  find_node mapData (currentNode agv) = Some cn ->
  find_node mapData n = Some nn ->
  movement mapData graph prevAgvs agv w =
  match action (verdict_for prevAgvs agv cn nn) with
  | REPATH_HEAD_ON =>
      repath_head_on graph agv t n (edge_length cn nn)
                     (avoidData (verdict_for prevAgvs agv cn nn)) w
  | WAIT =>
      wait_branch graph prevAgvs agv t n (edge_length cn nn)
                  (conflictReason (verdict_for prevAgvs agv cn nn))
                  (blockerId (verdict_for prevAgvs agv cn nn)) w
  | MOVE =>
      finite (physics agv n cn nn (slice0 (path agv) (hardBorrowLength agv))) w
  end.
Proof.
  intros Ht Hne Hp Hc Hn. unfold movement.
  rewrite Ht, Hp, Hc, Hn. unfold truthy.
  apply String.eqb_neq in Hne. rewrite Hne. simpl.
  unfold verdict_for, edge_length. rewrite Hp.
  destruct (action _); reflexivity.
Qed.

Lemma call_findPath_some (s t : NodeId) (an : list NodeId) (ae : list AvoidEdge)
    (p : list NodeId) (w : World) :
  findPath s t graph an ae = Some p ->
  call_findPath s t graph an ae w = (Normal p, w).
Proof. intros H. unfold call_findPath. rewrite H. reflexivity. Qed.




End TickFacts.

(* --------------------------------------------------------------------- *)
(** ** The head-on scenario on the diamond map *)
(* --------------------------------------------------------------------- *)

Section HeadOnScenario.

Import JS Pathfinding TrafficManager ArbiterSpec Simulation Outcomes Samples.
Local Open Scope R_scope.






End HeadOnScenario.

(* --------------------------------------------------------------------- *)
(** ** Speed bounds *)
(* --------------------------------------------------------------------- *)

(** Split the monadic computation in hypothesis [H] into its branches. *)
Ltac monad_cases H :=
  repeat first
    [ progress (unfold bind, ret, throwTypeError, loops, nonFinite, defined, finite,
                call_findPath, Date_now, Math_random in H)
    | match type of H with
      | context [match ?x with _ => _ end] => destruct x eqn:?
      end
    | discriminate H ].

Section SpeedFacts.

Import JS Pathfinding TrafficManager Simulation Outcomes.
Local Open Scope R_scope.

Variables (mapData : MapData) (graph : Graph).


Lemma newSpeed_range (agv : AGV) (T : R) :
  speed_pre agv -> T = 0 \/ T = maxSpeed agv ->
  0 <= physics_newSpeed agv T <= maxSpeed agv
  /\ physics_newSpeed agv T - currentSpeed agv <= acceleration agv
  /\ Rabs (physics_newSpeed agv T - currentSpeed agv)
     <= Rmax (acceleration agv) (deceleration agv).
Proof.
  intros (Hs & Ha & Hd) HT. unfold physics_newSpeed, num_lt.
  destruct (Rlt_dec (currentSpeed agv) T), (Rlt_dec T (currentSpeed agv));
    unfold Rmax, Rmin, Rabs;
    repeat match goal with
           | |- context [Rle_dec ?a ?b] => destruct (Rle_dec a b)
           | |- context [Rcase_abs ?a] => destruct (Rcase_abs a)
           end; destruct HT; subst; repeat split; lra.
Qed.

Lemma targetSpeed_cases (agv : AGV) (d : R) :
  physics_targetSpeed agv d = 0 \/ physics_targetSpeed agv d = maxSpeed agv.
Proof.
  unfold physics_targetSpeed. cbv zeta. destruct (_ && _); auto.
Qed.








End SpeedFacts.

(* --------------------------------------------------------------------- *)
(** ** The ranked retry *)
(* --------------------------------------------------------------------- *)

Section RetryFacts.

Import JS Pathfinding TrafficManager Simulation Outcomes.
Local Open Scope R_scope.

Variables (mapData : MapData) (graph : Graph).

Lemma standard_retry_result (agv : AGV) (t n : NodeId) (len : R)
    (reason : option string) (detour : list NodeId) (w : World) :
  findPath (currentNode agv) t graph [n] [] = Some detour ->
  standard_retry graph agv t n len reason
    (Rmax 0 (currentSpeed agv - deceleration agv)) (retryCount agv + 1)%Z w
  = (Normal (retry_record agv n detour len reason), w).
Proof.
  intros Hf. unfold standard_retry, bind.
  rewrite (call_findPath_some _ _ _ _ _ _ _ Hf).
  destruct detour as [|d ds]; [reflexivity|].
  simpl. unfold detour_record. destruct (num_lt 0 (progress agv)); reflexivity.
Qed.

Lemma wait_branch_retry (prevAgvs : list AGV) (agv : AGV) (t n : NodeId) (len : R)
    (reason : option string) (blocker : option Z) (w : World) :
  (RETRY_INTERVAL < waitTimer agv + 1)%Z ->
  stepBack_skipped graph prevAgvs agv n blocker w ->
  wait_branch graph prevAgvs agv t n len reason blocker w
  = standard_retry graph agv t n len reason
      (Rmax 0 (currentSpeed agv - deceleration agv)) (retryCount agv + 1)%Z w.
Proof.
  intros Ht Hskip. unfold wait_branch.
  apply Z.ltb_lt in Ht. rewrite Ht.
  destruct Hskip as [Hb | (sb & b & Hc & Hsb)].
  - rewrite Hb, andb_false_r. reflexivity.
  - destruct ((3 <=? retryCount agv + 1)%Z && isBlockerWaiting prevAgvs blocker);
      [|reflexivity].
    unfold bind. rewrite Hc.
    destruct sb as [x|]; [|reflexivity]. rewrite Hsb. reflexivity.
Qed.

End RetryFacts.

(* --------------------------------------------------------------------- *)
(** ** An update returns *)
(* --------------------------------------------------------------------- *)

Section Returns.

Import JS Pathfinding PathSpec TrafficManager Simulation Outcomes.
Local Open Scope R_scope.

Variables (mapData : MapData) (graph : Graph).
Hypothesis Hwf : graph_wf graph.


Lemma index_floor (A : Type) (l : list A) (r : R) :
  0 <= r < 1 -> l <> [] ->
  exists x, index l (floor (r * INR (length l))) = Some x /\ In x l.
Proof.
  intros [Hr0 Hr1] Hl.
  assert (Hn : 0 < INR (length l)).
  { apply lt_0_INR. destruct l; [congruence | simpl; lia]. }
  unfold index, floor.
  destruct (base_Int_part (r * INR (length l))) as [Hlo Hhi].
  set (k := Int_part (r * INR (length l))) in *.
  assert (H0 : (0 <= k)%Z).
  { assert (IZR (-1) < IZR k) by (simpl; nra).
    apply lt_IZR in H. lia. }
  assert (H1 : (k < Z.of_nat (length l))%Z).
  { apply lt_IZR. rewrite <- INR_IZR_INZ. nra. }
  destruct (k <? 0)%Z eqn:E; [apply Z.ltb_lt in E; lia|].
  destruct (nth_error l (Z.to_nat k)) as [x|] eqn:Ex.
  - exists x. split; [reflexivity | eapply nth_error_In; exact Ex].
  - apply nth_error_None in Ex. lia.
Qed.










End Returns.

Section TickClaims.

Import JS Pathfinding TrafficManager Simulation Outcomes.
Local Open Scope R_scope.

Variables (mapData : MapData) (graph : Graph).

Lemma updateAgv_is_movement (rm : bool) (prevAgvs : list AGV) (agv : AGV) (w : World) :
  rm = false \/ (status agv <> IDLE /\ status agv <> COMPLETED) ->
  updateAgv mapData graph rm prevAgvs agv w = movement mapData graph prevAgvs agv w.
Proof.
  intros [-> | [Hi Hc]]; [apply updateAgv_manual | apply updateAgv_busy; assumption].
Qed.

(** C5 (as amended): when the wait timer crosses RETRY_INTERVAL, the
    incremented retry count has reached 3 and the step-back block returns
    nothing, the standard retry never advances [pathRank]: it is reset to 0
    when a detour avoiding the blocked node is found and left as it was
    otherwise (with [retryCount] incremented). *)
Theorem ranked_retry_keeps_rank (rm : bool) (prevAgvs : list AGV) (agv : AGV)
    (w : World) (t n : NodeId) (rest : list NodeId) (cn nn : Node)
    (detour : list NodeId) :
  rm = false \/ (status agv <> IDLE /\ status agv <> COMPLETED) ->
  targetNode agv = Some t -> t <> "" ->
  path agv = n :: rest ->
  find_node mapData (currentNode agv) = Some cn ->
  find_node mapData n = Some nn ->
  action (verdict_for prevAgvs agv cn nn) = WAIT ->
  (RETRY_INTERVAL < waitTimer agv + 1)%Z ->
  (3 <= retryCount agv + 1)%Z ->
  stepBack_skipped graph prevAgvs agv n (blockerId (verdict_for prevAgvs agv cn nn)) w ->
  findPath (currentNode agv) t graph [n] [] = Some detour ->
  exists agv',
    updateAgv mapData graph rm prevAgvs agv w = (Normal agv', w)
    /\ pathRank agv' = match detour with [] => pathRank agv | _ :: _ => 0%Z end
    /\ retryCount agv' = match detour with
                         | [] => (retryCount agv + 1)%Z
                         | _ :: _ => 0%Z
                         end
    /\ status agv' = match detour with [] => WAITING | _ :: _ => DETOUR end
    /\ ((0 <= pathRank agv)%Z -> pathRank agv' <> (pathRank agv + 1)%Z).
Proof.
  intros Hrm Ht Hne Hp Hc Hn Hact Htimer Hretry Hskip Hf.
  exists (retry_record agv n detour (edge_length cn nn)
            (conflictReason (verdict_for prevAgvs agv cn nn))).
  split.
  - rewrite updateAgv_is_movement by exact Hrm.
    rewrite (movement_dispatch mapData graph prevAgvs agv w t n rest cn nn)
      by assumption.
    rewrite Hact, wait_branch_retry by assumption.
    apply standard_retry_result. exact Hf.
  - destruct detour as [|d ds]; simpl.
    + repeat split. lia.
    + unfold detour_record. destruct (num_lt 0 (progress agv)); simpl;
        repeat split; lia.
Qed.

Lemma no_target_goes_idle (prevAgvs : list AGV) (agv : AGV) (w : World) :
  targetNode agv = None ->
  updateAgv mapData graph false prevAgvs agv w = (Normal (idle_record agv), w).
Proof. intros H. rewrite updateAgv_manual. apply movement_no_target. exact H. Qed.

Lemma idle_forever (agv agv' : AGV) :
  targetNode agv = None ->
  clos_trans AGV (tick_successor mapData graph) agv agv' ->
  status agv' = IDLE /\ targetNode agv' = None.
Proof.
  intros Ht Hsteps. induction Hsteps as [a b (prev & w & w' & Hstep) | a b c _ IH1 _ IH2].
  - rewrite no_target_goes_idle in Hstep by exact Ht.
    inversion Hstep; subst. simpl. auto.
  - apply IH2. apply IH1. exact Ht.
Qed.

(** C6 (as amended): COMPLETED lasts for one snapshot.  With auto-pilot off
    the next update of an AGV whose trip is completed (status COMPLETED, no
    target) returns it with status IDLE, and the status is IDLE after every
    later update as long as no target is set. *)
Theorem completed_turns_idle (agv : AGV) :
  status agv = COMPLETED -> targetNode agv = None ->
  (forall prevAgvs w,
      exists agv', updateAgv mapData graph false prevAgvs agv w = (Normal agv', w)
                   /\ status agv' = IDLE)
  /\ (forall agv', clos_trans AGV (tick_successor mapData graph) agv agv' ->
                  status agv' = IDLE /\ targetNode agv' = None).
Proof.
  intros Hs Ht. split.
  - intros prevAgvs w. exists (idle_record agv). split; [|reflexivity].
    apply no_target_goes_idle. exact Ht.
  - intros agv'. apply idle_forever. exact Ht.
Qed.


End TickClaims.

(* --------------------------------------------------------------------- *)
(** ** Scenarios: the update on the sample fleets *)
(* --------------------------------------------------------------------- *)

Section Scenarios.

Import JS Pathfinding TrafficManager ArbiterSpec Simulation Outcomes Samples Engine.
Local Open Scope R_scope.





Lemma verdict_egoWaitingAtA :
  verdict_for [egoWaitingAtA; parkedAtB] egoWaitingAtA nodeA nodeB
  = mkResult WAIT (Some "Dest B Occupied") None (Some 2%Z).
Proof.
  unfold verdict_for. rewrite checkTrafficRules_refines.
  unfold arbitrate_agv_major, first_agv_any, first_rule_of, List.find, fires.
  simpl. num_decide. reflexivity.
Qed.

Lemma bypass_around_B : findPath "A" "C" diamondGraph ["B"] [] = Some ["D"; "C"].
Proof. vm_compute. reflexivity. Qed.

Lemma no_bypass_in_corridor : findPath "A" "C" corridorGraph ["B"] [] = Some [].
Proof. vm_compute. reflexivity. Qed.

Lemma egoWaitingAtA_update (mapData : MapData) (graph : Graph)
    (detour : list NodeId) (w : World) :
  find_node mapData "A" = Some nodeA ->
  find_node mapData "B" = Some nodeB ->
  findPath "A" "C" graph ["B"] [] = Some detour ->
  updateAgv mapData graph false [egoWaitingAtA; parkedAtB] egoWaitingAtA w
  = (Normal (retry_record egoWaitingAtA "B" detour (edge_length nodeA nodeB)
                          (Some "Dest B Occupied")), w).
Proof.
  intros HA HB Hf.
  rewrite updateAgv_manual.
  rewrite (movement_dispatch mapData graph [egoWaitingAtA; parkedAtB] egoWaitingAtA w
             "C" "B" ["C"] nodeA nodeB); try reflexivity; try discriminate;
    try assumption.
  rewrite verdict_egoWaitingAtA. simpl action. simpl conflictReason.
  simpl blockerId. cbv iota.
  rewrite wait_branch_retry.
  - apply standard_retry_result. exact Hf.
  - reflexivity.
  - left. reflexivity.
Qed.

Lemma ranked_retry_keeps_rank_witness :
  exists agv',
    updateAgv diamond diamondGraph false [egoWaitingAtA; parkedAtB] egoWaitingAtA world0
    = (Normal agv', world0)
    /\ pathRank agv' = 0%Z
    /\ retryCount agv' = 0%Z
    /\ status agv' = DETOUR
    /\ ((0 <= pathRank egoWaitingAtA)%Z
        -> pathRank agv' <> (pathRank egoWaitingAtA + 1)%Z).
Proof.
  apply (ranked_retry_keeps_rank diamond diamondGraph false
           [egoWaitingAtA; parkedAtB] egoWaitingAtA world0 "C" "B" ["C"]
           nodeA nodeB ["D"; "C"]).
  - left. reflexivity.
  - reflexivity.
  - discriminate.
  - reflexivity.
  - reflexivity.
  - reflexivity.
  - rewrite verdict_egoWaitingAtA. reflexivity.
  - reflexivity.
  - simpl. lia.
  - left. rewrite verdict_egoWaitingAtA. reflexivity.
  - exact bypass_around_B.
Defined.

(** C5 fails as stated: the wait timer crosses 60, the retry count reaches
    3, the blocker is not waiting (no step-back), and [pathRank] is 0
    afterwards, on the diamond (a detour is found) as in the corridor (none
    is found), not [pathRank + 1 = 1]. *)
Lemma retry_does_not_advance_rank :
  (RETRY_INTERVAL < waitTimer egoWaitingAtA + 1)%Z
  /\ (3 <= retryCount egoWaitingAtA + 1)%Z
  /\ pathRank egoWaitingAtA = 0%Z
  /\ (exists agv',
        updateAgv diamond diamondGraph false [egoWaitingAtA; parkedAtB]
                  egoWaitingAtA world0 = (Normal agv', world0)
        /\ status agv' = DETOUR /\ pathRank agv' = 0%Z)
  /\ (exists agv',
        updateAgv corridor corridorGraph false [egoWaitingAtA; parkedAtB]
                  egoWaitingAtA world0 = (Normal agv', world0)
        /\ status agv' = WAITING /\ retryCount agv' = 3%Z /\ pathRank agv' = 0%Z).
Proof.
  split; [reflexivity|]. split; [simpl; lia|]. split; [reflexivity|]. split.
  - eexists. split.
    + apply egoWaitingAtA_update; [reflexivity | reflexivity | exact bypass_around_B].
    + unfold retry_record, detour_record.
      destruct (num_lt 0 (progress egoWaitingAtA)); split; reflexivity.
  - eexists. split.
    + apply egoWaitingAtA_update;
        [reflexivity | reflexivity | exact no_bypass_in_corridor].
    + repeat split; reflexivity.
Qed.

Lemma completed_turns_idle_witness :
  (forall prevAgvs w,
      exists agv',
        updateAgv corridor corridorGraph false prevAgvs arrivedAtC w = (Normal agv', w)
        /\ status agv' = IDLE)
  /\ (forall agv',
        clos_trans AGV (tick_successor corridor corridorGraph) arrivedAtC agv' ->
        status agv' = IDLE /\ targetNode agv' = None).
Proof.
  apply (completed_turns_idle corridor corridorGraph arrivedAtC); reflexivity.
Defined.

(** C6 fails as stated: one frame after an AGV has completed its trip its
    status is IDLE, not COMPLETED, although no target was set. *)
Lemma completed_is_not_absorbing :
  status arrivedAtC = COMPLETED
  /\ exists s',
       updateSimulation corridor corridorGraph (playing [arrivedAtC]) world0
       = (Normal s', world0)
       /\ List.map status (agvs s') = [IDLE].
Proof.
  split; [reflexivity|].
  eexists. split.
  - unfold updateSimulation, playing. simpl. unfold bind.
    rewrite no_target_goes_idle by reflexivity. reflexivity.
  - reflexivity.
Qed.

End Scenarios.

(* --------------------------------------------------------------------- *)
(** ** Spawning *)
(* --------------------------------------------------------------------- *)

Section SpawnFacts.

Import JS Pathfinding TrafficManager Simulation Outcomes Samples Engine.
Local Open Scope R_scope.





Lemma floor_zero (x : R) : floor (0 * x) = 0%Z.
Proof.
  unfold floor. rewrite Rmult_0_l.
  change 0 with (INR 0). rewrite Int_part_INR. reflexivity.
Qed.

Lemma floor_half_of_3 : floor (0.5 * INR 3) = 1%Z.
Proof.
  unfold floor. symmetry. apply Int_part_spec. simpl. lra.
Qed.

Lemma spawn_world0 :
  run corridor corridorGraph [Spawn] (playing []) world0
  = [[ {| agv_id := 0; agv_x := 0; agv_y := 0;
          currentNode := "A"; previousNode := None; targetNode := None; path := [];
          progress := 0; progressDistance := 0; orientation := 0;
          status := IDLE; color := 0 * 360; waitTimer := 0; waitReason := None;
          maxSpeed := 1.4; acceleration := 0.1; deceleration := 0.15;
          safetyDistance := 35; hardBorrowLength := 1;
          currentSpeed := 0; retryCount := 0; pathRank := 0;
          reservedNodes := []; pathPlanningTime := 0 |} ]].
Proof.
  unfold run, perform, spawnAgv, safeNodes, playing. simpl.
  unfold bind, Math_random, Date_now. simpl.
  rewrite floor_zero. reflexivity.
Qed.

Lemma spawn_world1 :
  run corridor corridorGraph [Spawn] (playing []) world1
  = [[ {| agv_id := 1000; agv_x := 100; agv_y := 0;
          currentNode := "B"; previousNode := None; targetNode := None; path := [];
          progress := 0; progressDistance := 0; orientation := 0;
          status := IDLE; color := 0.5 * 360; waitTimer := 0; waitReason := None;
          maxSpeed := 1.4; acceleration := 0.1; deceleration := 0.15;
          safetyDistance := 35; hardBorrowLength := 1;
          currentSpeed := 0; retryCount := 0; pathRank := 0;
          reservedNodes := []; pathPlanningTime := 1000 |} ]].
Proof.
  unfold run, perform, spawnAgv, safeNodes, playing. simpl.
  unfold bind, Math_random, Date_now. simpl.
  change (0.5 * (1 + 1 + 1)) with (0.5 * INR 3).
  rewrite floor_half_of_3. reflexivity.
Qed.

(** C1 fails as stated: with the same map, the same (empty) initial fleet
    and the same command, two hosts whose [Math.random()] and [Date.now()]
    answer differently give different snapshots: the spawned AGV differs in
    its identity and in its position. *)
Lemma spawn_depends_on_host :
  run corridor corridorGraph [Spawn] (playing []) world0
  <> run corridor corridorGraph [Spawn] (playing []) world1
  /\ List.map (List.map agv_id) (run corridor corridorGraph [Spawn] (playing []) world0)
     = [[0%Z]]
  /\ List.map (List.map agv_id) (run corridor corridorGraph [Spawn] (playing []) world1)
     = [[1000%Z]]
  /\ List.map (List.map currentNode)
              (run corridor corridorGraph [Spawn] (playing []) world0) = [["A"]]
  /\ List.map (List.map currentNode)
              (run corridor corridorGraph [Spawn] (playing []) world1) = [["B"]].
Proof.
  rewrite spawn_world0, spawn_world1.
  split; [|repeat split; reflexivity].
  intros H. apply (f_equal (List.map (List.map agv_id))) in H.
  simpl in H. discriminate H.
Qed.

End SpawnFacts.

(* --------------------------------------------------------------------- *)
(** ** Reproducibility without spawns and auto-pilot *)
(* --------------------------------------------------------------------- *)

Section Reproducibility.

Import JS Pathfinding TrafficManager Simulation Outcomes Engine.
Local Open Scope R_scope.

Variables (mapData : MapData) (graph : Graph).

Lemma find_map_erase (f : AGV -> bool) (l : list AGV) :
  List.find f (List.map erase_time l)
  = option_map erase_time (List.find (fun x => f (erase_time x)) l).
Proof.
  induction l as [|x l IH]; simpl; [reflexivity|].
  destruct (f (erase_time x)); [reflexivity | exact IH].
Qed.

Lemma scan_others_erase (a a' : AGV) (cn nn : Node) (prev : list AGV) :
  erase_time a' = erase_time a ->
  scan_others a' cn nn (List.map erase_time prev) = scan_others a cn nn prev.
Proof.
  intros H. destruct a, a'. unfold erase_time, set_pathPlanningTime in H.
  simpl in H. injection H as -> -> -> -> -> -> -> -> -> -> -> -> -> -> -> -> -> -> -> -> -> -> ->.
  induction prev as [|o prev IH]; simpl; [reflexivity|].
  rewrite IH. reflexivity.
Qed.

Lemma reservation_check_erase (a a' : AGV) (prev : list AGV) :
  erase_time a' = erase_time a ->
  reservation_check a' (List.map erase_time prev) = reservation_check a prev.
Proof.
  intros H. destruct a, a'. unfold erase_time, set_pathPlanningTime in H.
  simpl in H. injection H as -> -> -> -> -> -> -> -> -> -> -> -> -> -> -> -> -> -> -> -> -> -> ->.
  unfold reservation_check. simpl.
  destruct (_ && _); [|reflexivity].
  destruct (hd_error _) as [n|]; [|reflexivity].
  rewrite find_map_erase. simpl.
  destruct (List.find _ prev); reflexivity.
Qed.

Lemma checkTrafficRules_erase (a a' : AGV) (cn nn : Node) (prev : list AGV) :
  erase_time a' = erase_time a ->
  checkTrafficRules a' cn nn (List.map erase_time prev)
  = checkTrafficRules a cn nn prev.
Proof.
  intros H. unfold checkTrafficRules.
  rewrite (reservation_check_erase a a' prev H), (scan_others_erase a a' cn nn prev H).
  reflexivity.
Qed.

Lemma isBlockerWaiting_erase (prev : list AGV) (b : option Z) :
  isBlockerWaiting (List.map erase_time prev) b = isBlockerWaiting prev b.
Proof.
  unfold isBlockerWaiting. destruct b as [b|]; [|reflexivity].
  rewrite find_map_erase. simpl.
  destruct (List.find _ prev); reflexivity.
Qed.


Ltac unfold_records :=
  cbv [turn_on_edge erase_time
       set_agv_x set_agv_y set_currentNode set_previousNode set_targetNode
       set_path set_progress set_progressDistance set_orientation set_status
       set_waitTimer set_waitReason set_currentSpeed set_retryCount set_pathRank
       set_reservedNodes set_pathPlanningTime
       agv_id agv_x agv_y currentNode previousNode targetNode path progress
       progressDistance orientation status color waitTimer waitReason maxSpeed
       acceleration deceleration safetyDistance hardBorrowLength currentSpeed
       retryCount pathRank reservedNodes pathPlanningTime].

Ltac split_sim H :=
  unfold agv_sim, erase_time, set_pathPlanningTime in H;
  cbn [agv_id agv_x agv_y currentNode previousNode targetNode path progress
       progressDistance orientation status color waitTimer waitReason maxSpeed
       acceleration deceleration safetyDistance hardBorrowLength currentSpeed
       retryCount pathRank reservedNodes pathPlanningTime] in H;
  injection H as -> -> -> -> -> -> -> -> -> -> -> -> -> -> -> -> -> -> -> -> -> -> ->.

Ltac innermost_case :=
  match goal with
  | |- context [match ?x with _ => _ end] =>
      lazymatch x with
      | context [match _ with _ => _ end] => fail
      | _ => destruct x
      end
  end.

Ltac sim_cases :=
  unfold same_outcome, call_findPath, defined, Date_now;
  unfold bind, ret, loops, throwTypeError;
  unfold_records;
  repeat (cbn [fst snd ret bind loops throwTypeError]; innermost_case);
  cbn [fst snd ret bind loops throwTypeError];
  try exact I; try (unfold agv_sim; unfold_records; reflexivity).

Lemma repath_sim (a1 a2 : AGV) (t n : NodeId) (len : R) (avoid : option AvoidEdge)
    (w1 w2 : World) :
  agv_sim a1 a2 ->
  same_outcome agv_sim (repath_head_on graph a1 t n len avoid w1)
                       (repath_head_on graph a2 t n len avoid w2).
Proof.
  intros H. destruct a1, a2. split_sim H.
  unfold repath_head_on. sim_cases.
Qed.

Lemma wait_sim (prev1 prev2 : list AGV) (a1 a2 : AGV) (t n : NodeId) (len : R)
    (reason : option string) (blocker : option Z) (w1 w2 : World) :
  fleet_sim prev1 prev2 -> agv_sim a1 a2 ->
  same_outcome agv_sim (wait_branch graph prev1 a1 t n len reason blocker w1)
                       (wait_branch graph prev2 a2 t n len reason blocker w2).
Proof.
  intros Hf H. destruct a1, a2. split_sim H.
  unfold wait_branch.
  rewrite <- (isBlockerWaiting_erase prev1), <- (isBlockerWaiting_erase prev2).
  unfold fleet_sim in Hf. rewrite Hf.
  generalize (isBlockerWaiting (List.map erase_time prev2) blocker). intros bw.
  unfold standard_retry, choose_stepBack. sim_cases.
Qed.


Lemma physics_sim (a1 a2 : AGV) (n : NodeId) (cn nn : Node) (res : list NodeId) :
  agv_sim a1 a2 ->
  match physics a1 n cn nn res, physics a2 n cn nn res with
  | Some b1, Some b2 => agv_sim b1 b2
  | None, None => True
  | _, _ => False
  end.
Proof.
  intros H. destruct a1, a2. split_sim H.
  unfold physics, physics_targetSpeed, physics_newSpeed.
  unfold_records. cbv zeta.
  repeat match goal with
         | |- context [if ?x then _ else _] => destruct x eqn:?
         end; try exact I; unfold agv_sim; unfold_records; reflexivity.
Qed.

Lemma movement_sim (prev1 prev2 : list AGV) (a1 a2 : AGV) (w1 w2 : World) :
  fleet_sim prev1 prev2 -> agv_sim a1 a2 ->
  same_outcome agv_sim (movement mapData graph prev1 a1 w1)
                       (movement mapData graph prev2 a2 w2).
Proof.
  intros Hf H.
  assert (Hv : forall cn nn,
    checkTrafficRules (set_reservedNodes (slice0 (path a1) (hardBorrowLength a1)) a1)
                      cn nn prev1
    = checkTrafficRules (set_reservedNodes (slice0 (path a2) (hardBorrowLength a2)) a2)
                        cn nn prev2).
  { intros cn nn.
    rewrite <- (checkTrafficRules_erase _ _ cn nn prev1 eq_refl).
    rewrite <- (checkTrafficRules_erase
                  (set_reservedNodes (slice0 (path a2) (hardBorrowLength a2)) a2)
                  (set_reservedNodes (slice0 (path a1) (hardBorrowLength a1)) a1)
                  cn nn prev2).
    - unfold fleet_sim in Hf. rewrite Hf. reflexivity.
    - destruct a1, a2. split_sim H. reflexivity. }
  assert (Ht : targetNode a1 = targetNode a2) by (destruct a1, a2; split_sim H; reflexivity).
  assert (Hp : path a1 = path a2) by (destruct a1, a2; split_sim H; reflexivity).
  assert (Hc : currentNode a1 = currentNode a2) by (destruct a1, a2; split_sim H; reflexivity).
  assert (Hh : hardBorrowLength a1 = hardBorrowLength a2)
    by (destruct a1, a2; split_sim H; reflexivity).
  rewrite Hp, Hh in Hv.
  unfold movement. rewrite Ht, Hp, Hc, Hh.
  destruct (negb (truthy (targetNode a2)) || (length (path a2) =? 0)%nat).
  { unfold same_outcome, ret. simpl. destruct a1, a2. split_sim H. reflexivity. }
  destruct (targetNode a2) as [t|]; [|exact H].
  destruct (path a2) as [|n rest] eqn:Hp2; [exact H|].
  destruct (find_node mapData (currentNode a2)) as [cn|]; [|exact H].
  destruct (find_node mapData n) as [nn|]; [|exact H].
  rewrite Hv.
  destruct (action _).
  - pose proof (physics_sim a1 a2 n cn nn
                  (reservedNodes (set_reservedNodes
                     (slice0 (n :: rest) (hardBorrowLength a2)) a2)) H) as Hm.
    replace (reservedNodes (set_reservedNodes
               (slice0 (n :: rest) (hardBorrowLength a2)) a1))
      with (reservedNodes (set_reservedNodes
               (slice0 (n :: rest) (hardBorrowLength a2)) a2))
      by (destruct a1, a2; reflexivity).
    unfold same_outcome, finite.
    destruct (physics a1 n cn nn _), (physics a2 n cn nn _); exact Hm.
  - apply wait_sim; assumption.
  - apply repath_sim; assumption.
Qed.

Lemma updateAgv_sim (prev1 prev2 : list AGV) (a1 a2 : AGV) (w1 w2 : World) :
  fleet_sim prev1 prev2 -> agv_sim a1 a2 ->
  same_outcome agv_sim (updateAgv mapData graph false prev1 a1 w1)
                       (updateAgv mapData graph false prev2 a2 w2).
Proof.
  intros Hf H. rewrite !updateAgv_manual. apply movement_sim; assumption.
Qed.

Lemma map_eq_Forall2 {A B : Type} (f : A -> B) (l1 l2 : list A) :
  List.map f l1 = List.map f l2 <-> Forall2 (fun a b => f a = f b) l1 l2.
Proof.
  split.
  - revert l2. induction l1 as [|a l1 IH]; intros [|b l2] H; simpl in H;
      try discriminate; constructor.
    + injection H as H _. exact H.
    + apply IH. injection H as _ H. exact H.
  - induction 1 as [|a b l1' l2' Hab _ IH]; simpl; [reflexivity|].
    rewrite Hab, IH. reflexivity.
Qed.

Lemma fleet_sim_Forall2 (l1 l2 : list AGV) :
  fleet_sim l1 l2 <-> Forall2 agv_sim l1 l2.
Proof. apply map_eq_Forall2. Qed.

Lemma mapM_sim {A B : Type} (relA : A -> A -> Prop) (relB : B -> B -> Prop)
    (f1 f2 : A -> M B) (l1 l2 : list A) :
  Forall2 relA l1 l2 ->
  (forall a b, relA a b -> forall w1 w2, same_outcome relB (f1 a w1) (f2 b w2)) ->
  forall w1 w2, same_outcome (Forall2 relB) (mapM f1 l1 w1) (mapM f2 l2 w2).
Proof.
  intros Hl Hf. induction Hl as [|a b l1 l2 Hab _ IH]; intros w1 w2.
  - simpl. constructor.
  - simpl. unfold bind.
    specialize (Hf a b Hab w1 w2). unfold same_outcome in Hf.
    destruct (f1 a w1) as [[x| | |] w1'], (f2 b w2) as [[y| | |] w2'];
      simpl in Hf; try contradiction; try exact I.
    specialize (IH w1' w2'). unfold same_outcome in IH.
    destruct (mapM f1 l1 w1') as [[xs| | |] w1''], (mapM f2 l2 w2') as [[ys| | |] w2''];
      simpl in IH; try contradiction; try exact I.
    simpl. constructor; assumption.
Qed.

Lemma retarget_sim (nodeId : NodeId) (a1 a2 : AGV) (w1 w2 : World) :
  agv_sim a1 a2 ->
  same_outcome agv_sim (retarget graph nodeId a1 w1) (retarget graph nodeId a2 w2).
Proof.
  intros H. destruct a1, a2. split_sim H.
  unfold retarget. sim_cases.
Qed.


Lemma bind_sim {A B : Type} (relA : A -> A -> Prop) (relB : B -> B -> Prop)
    (m1 m2 : M A) (k1 k2 : A -> M B) (w1 w2 : World) :
  same_outcome relA (m1 w1) (m2 w2) ->
  (forall a b w1' w2', relA a b -> same_outcome relB (k1 a w1') (k2 b w2')) ->
  same_outcome relB (bind m1 k1 w1) (bind m2 k2 w2).
Proof.
  unfold same_outcome, bind. intros Hm Hk.
  destruct (m1 w1) as [[x| | |] w1'], (m2 w2) as [[y| | |] w2'];
    simpl in Hm |- *; try contradiction; try exact I.
  apply Hk. exact Hm.
Qed.

Lemma updateSimulation_sim (s1 s2 : SimState) (w1 w2 : World) :
  manual_sim s1 s2 ->
  same_outcome manual_sim (updateSimulation mapData graph s1 w1)
                          (updateSimulation mapData graph s2 w2).
Proof.
  intros Hs. pose proof Hs as [(Hf & Hp & Hr & Hsel & Hc) Hoff].
  unfold updateSimulation. rewrite <- Hp, <- Hr, Hoff.
  destruct (isPlaying s1) eqn:Hplay; [|exact Hs].
  simpl negb. cbv iota.
  apply (bind_sim (Forall2 agv_sim)).
  - apply (mapM_sim agv_sim agv_sim).
    + apply fleet_sim_Forall2. exact Hf.
    + intros a b Hab w1' w2'. apply updateAgv_sim; assumption.
  - intros xs ys w1' w2' Hxs. apply fleet_sim_Forall2 in Hxs.
    unfold same_outcome, ret. simpl.
    repeat split; simpl; try assumption; congruence.
Qed.

Lemma handleNodeClick_sim (nodeId : NodeId) (s1 s2 : SimState) (w1 w2 : World) :
  manual_sim s1 s2 ->
  same_outcome manual_sim (handleNodeClick graph nodeId s1 w1)
                          (handleNodeClick graph nodeId s2 w2).
Proof.
  intros Hs. pose proof Hs as [(Hf & Hp & Hr & Hsel & Hc) Hoff].
  unfold handleNodeClick. rewrite <- Hsel.
  destruct (selectedAgvId s1) as [sel|] eqn:Hsel1; [|exact Hs].
  destruct (sel =? 0)%Z; [exact Hs|].
  apply (bind_sim (Forall2 agv_sim)).
  - apply (mapM_sim agv_sim agv_sim).
    + apply fleet_sim_Forall2. exact Hf.
    + intros a b Hab w1' w2'.
      assert (Hid : agv_id a = agv_id b) by (destruct a, b; split_sim Hab; reflexivity).
      rewrite Hid. destruct (negb (agv_id b =? sel)%Z).
      * exact Hab.
      * apply retarget_sim. exact Hab.
  - intros xs ys w1' w2' Hxs. apply fleet_sim_Forall2 in Hxs.
    unfold same_outcome, ret. simpl.
    repeat split; simpl; try assumption; congruence.
Qed.

Lemma perform_sim (c : Command) (s1 s2 : SimState) (w1 w2 : World) :
  manual c = true -> manual_sim s1 s2 ->
  same_outcome manual_sim (perform mapData graph c s1 w1)
                          (perform mapData graph c s2 w2).
Proof.
  intros Hc Hs. destruct c; simpl in Hc; try discriminate; simpl perform.
  - apply updateSimulation_sim. exact Hs.
  - apply handleNodeClick_sim. exact Hs.
  - destruct Hs as [(Hf & Hp & Hr & Hsel & Hcfg) Hoff].
    simpl. repeat split; assumption.
  - destruct Hs as [(Hf & Hp & Hr & Hsel & Hcfg) Hoff].
    simpl. repeat split; assumption.
  - destruct b; [discriminate|].
    destruct Hs as [(Hf & Hp & Hr & Hsel & Hcfg) Hoff].
    simpl. repeat split; assumption.
Qed.

Lemma run_sim (cs : list Command) (s1 s2 : SimState) (w1 w2 : World) :
  forallb manual cs = true -> manual_sim s1 s2 ->
  erase_times (run mapData graph cs s1 w1) = erase_times (run mapData graph cs s2 w2).
Proof.
  revert s1 s2 w1 w2. induction cs as [|c cs IH]; intros s1 s2 w1 w2 Hcs Hs;
    [reflexivity|].
  simpl in Hcs. apply andb_prop in Hcs. destruct Hcs as [Hc Hcs].
  pose proof (perform_sim c s1 s2 w1 w2 Hc Hs) as Hp.
  unfold same_outcome in Hp. simpl run.
  destruct (perform mapData graph c s1 w1) as [[s1'| | |] w1'],
           (perform mapData graph c s2 w2) as [[s2'| | |] w2'];
    simpl in Hp; try contradiction; try reflexivity.
  - unfold erase_times in *. simpl. rewrite (IH s1' s2' w1' w2' Hcs Hp).
    destruct Hp as [(Hf & _) _]. unfold fleet_sim in Hf. rewrite Hf. reflexivity.
  - unfold erase_times in *. simpl. rewrite (IH s1 s2 w1' w2' Hcs Hs).
    destruct Hs as [(Hf & _) _]. unfold fleet_sim in Hf. rewrite Hf. reflexivity.
Qed.

(** C1 (as amended): for a fixed map, initial fleet and sequence of
    commands that contains no spawn and keeps the auto-pilot off, two runs
    give the same snapshot sequence up to the [pathPlanningTime] stamps,
    whatever [Math.random()] and [Date.now()] answer. *)
Theorem manual_runs_reproducible (cs : list Command) (s : SimState) (w1 w2 : World) :
  randomMoveMode s = false ->
  forallb manual cs = true ->
  erase_times (run mapData graph cs s w1) = erase_times (run mapData graph cs s w2).
Proof.
  intros Hoff Hcs. apply run_sim; [exact Hcs|].
  split; [|exact Hoff]. repeat split; reflexivity.
Qed.

End Reproducibility.

Section ReproducibilityWitness.

Import Simulation Engine Samples.

Lemma manual_runs_reproducible_witness :
  erase_times (run diamond diamondGraph [Tick; Select (Some 2%Z); SetTarget "C"; Tick]
                   (playing [egoMidEdge; facingEgo]) world0)
  = erase_times (run diamond diamondGraph [Tick; Select (Some 2%Z); SetTarget "C"; Tick]
                     (playing [egoMidEdge; facingEgo]) world1).
Proof.
  apply (manual_runs_reproducible diamond diamondGraph
           [Tick; Select (Some 2%Z); SetTarget "C"; Tick]
           (playing [egoMidEdge; facingEgo]) world0 world1);
    reflexivity.
Defined.

End ReproducibilityWitness.

(* --------------------------------------------------------------------- *)
(** ** [findPath] returns a cheapest path *)
(* --------------------------------------------------------------------- *)

Section FindPathClaims.

Import JS Pathfinding PathSpec Samples.

Lemma graphs_of_samples :
  buildGraph (nodes corridor) (edges corridor) = Some corridorGraph
  /\ buildGraph (nodes diamond) (edges diamond) = Some diamondGraph
  /\ buildGraph (nodes islands) (edges islands) = Some islandsGraph.
Proof. repeat split; reflexivity. Qed.

(** C3 (as amended): on a well-formed graph with positive integer weights
    and for a start and a goal that are nodes of the graph, [findPath]
    returns (it terminates); what it returns is a minimum-cost path from
    start to goal among the paths whose nodes after the start avoid
    [avoidNodes] and whose edges avoid [avoidEdges], written without the
    start node, whenever such a path exists; and it is the empty sequence
    exactly when no such path exists or start = goal. *)
Theorem findPath_min_cost (graph : Graph) (start goal : NodeId)
    (avoidNodes : list NodeId) (avoidEdges : list AvoidEdge) :
  graph_wf graph ->
  In start (graph_keys graph) ->
  In goal (graph_keys graph) ->
  exists steps,
    findPath start goal graph avoidNodes avoidEdges = Some steps
    /\ (reachable graph avoidNodes avoidEdges start goal ->
        min_cost_path graph avoidNodes avoidEdges start steps goal)
    /\ (steps = [] <->
        start = goal \/ ~ reachable graph avoidNodes avoidEdges start goal).
Proof.
  intros Hwf Hs Hg. apply findPath_spec; assumption.
Qed.

Lemma findPath_min_cost_witness :
  exists steps,
    findPath "A" "C" diamondGraph ["B"] [] = Some steps
    /\ (reachable diamondGraph ["B"] [] "A" "C" ->
        min_cost_path diamondGraph ["B"] [] "A" steps "C")
    /\ (steps = [] <-> "A" = "C" \/ ~ reachable diamondGraph ["B"] [] "A" "C").
Proof.
  apply (findPath_min_cost diamondGraph "A" "C" ["B"] []).
  - apply graph_wfb_sound. vm_compute. reflexivity.
  - simpl. auto.
  - simpl. auto 10.
Defined.

(** C3 fails as stated: for start = goal the empty sequence is returned
    although a path from start to goal (the one without steps) exists. *)
Lemma findPath_empty_but_reachable :
  graph_wf corridorGraph
  /\ findPath "A" "A" corridorGraph [] [] = Some []
  /\ reachable corridorGraph [] [] "A" "A".
Proof.
  split; [apply graph_wfb_sound; vm_compute; reflexivity|].
  split; [vm_compute; reflexivity|].
  exists [], 0. apply walk_nil.
Qed.

End FindPathClaims.

(* --------------------------------------------------------------------- *)
(** ** Setting a target that cannot be reached *)
(* --------------------------------------------------------------------- *)

Section RetargetClaims.

Import JS Pathfinding PathSpec TrafficManager Simulation Outcomes Samples Engine.
Local Open Scope R_scope.

Lemma slice0_nil {A : Type} (n : Z) : slice0 (@nil A) n = [].
Proof. unfold slice0. destruct (n <? 0)%Z; apply firstn_nil. Qed.

Lemma unreachable_findPath (graph : Graph) (s t : NodeId) :
  graph_wf graph -> In s (graph_keys graph) -> In t (graph_keys graph) ->
  ~ reachable graph [] [] s t ->
  findPath s t graph [] [] = Some [].
Proof.
  intros Hwf Hs Ht Hnr.
  destruct (findPath_spec graph s [] [] Hwf Hs t Ht) as (steps & Hf & _ & Hnil).
  rewrite Hf. f_equal. apply Hnil. right. exact Hnr.
Qed.

(** The record the target handler returns when no route is found for an
    AGV that is not on an edge. *)
Lemma retarget_no_route (graph : Graph) (nodeId : NodeId) (agv : AGV) (w : World) :
  findPath (currentNode agv) nodeId graph [] [] = Some [] ->
  path agv = [] \/ ~ 0 < progress agv ->
  retarget graph nodeId agv w
  = (Normal (set_reservedNodes []
              (set_pathRank 0%Z (set_retryCount 0%Z (set_waitReason None
                (set_waitTimer 0%Z (set_status PLANNING (set_path []
                  (set_targetNode (Some nodeId) agv)))))))), w).
Proof.
  intros Hf Hrest. unfold retarget.
  assert (Hmid : (0 <? length (path agv))%nat && num_lt 0 (progress agv) = false).
  { destruct Hrest as [-> | Hp]; [reflexivity|].
    rewrite (num_lt_false _ _ Hp). apply andb_false_r. }
  rewrite Hmid. unfold bind. rewrite (call_findPath_some _ _ _ _ _ _ _ Hf).
  simpl app. rewrite slice0_nil. reflexivity.
Qed.

(** C8 (as amended): for an AGV resting at a node and a target node that
    is unreachable from it, the target handler returns no error value: it
    leaves the AGV with status PLANNING, the target recorded, an empty path
    and [waitReason] null; with auto-pilot off the next tick turns the
    status to IDLE, with the path still empty and [waitReason] still null. *)
Theorem unreachable_target_plans_then_idles (mapData : MapData) (graph : Graph)
    (nodeId : NodeId) (agv : AGV) (w : World) :
  graph_wf graph ->
  In (currentNode agv) (graph_keys graph) ->
  In nodeId (graph_keys graph) ->
  ~ reachable graph [] [] (currentNode agv) nodeId ->
  path agv = [] \/ ~ 0 < progress agv ->
  exists agv',
    retarget graph nodeId agv w = (Normal agv', w)
    /\ status agv' = PLANNING
    /\ targetNode agv' = Some nodeId
    /\ path agv' = []
    /\ reservedNodes agv' = []
    /\ waitReason agv' = None
    /\ forall prevAgvs w',
         exists agv'',
           updateAgv mapData graph false prevAgvs agv' w' = (Normal agv'', w')
           /\ status agv'' = IDLE
           /\ path agv'' = []
           /\ waitReason agv'' = None.
Proof.
  intros Hwf Hc Hn Hnr Hrest.
  eexists. split.
  - apply retarget_no_route; [|exact Hrest].
    apply unreachable_findPath; assumption.
  - repeat split.
    intros prevAgvs w'. eexists. split.
    + rewrite updateAgv_manual. apply movement_no_path. reflexivity.
    + repeat split.
Qed.

Lemma islands_wf : graph_wf islandsGraph.
Proof. apply graph_wfb_sound. vm_compute. reflexivity. Qed.

Lemma C_unreachable_from_A : ~ reachable islandsGraph [] [] "A" "C".
Proof.
  destruct (findPath_spec islandsGraph "A" [] [] islands_wf) with (target := "C")
    as (steps & Hf & _ & Hnil).
  - simpl. auto.
  - simpl. auto.
  - assert (Hs : steps = []).
    { assert (E : findPath "A" "C" islandsGraph [] [] = Some [])
        by (vm_compute; reflexivity).
      congruence. }
    apply Hnil in Hs. destruct Hs as [Hs | Hs]; [discriminate | exact Hs].
Qed.

Lemma unreachable_target_plans_then_idles_witness :
  exists agv',
    retarget islandsGraph "C" idleAtA world0 = (Normal agv', world0)
    /\ status agv' = PLANNING
    /\ targetNode agv' = Some "C"
    /\ path agv' = []
    /\ reservedNodes agv' = []
    /\ waitReason agv' = None
    /\ forall prevAgvs w',
         exists agv'',
           updateAgv islands islandsGraph false prevAgvs agv' w' = (Normal agv'', w')
           /\ status agv'' = IDLE
           /\ path agv'' = []
           /\ waitReason agv'' = None.
Proof.
  apply (unreachable_target_plans_then_idles islands islandsGraph "C" idleAtA world0).
  - exact islands_wf.
  - simpl. auto.
  - simpl. auto.
  - exact C_unreachable_from_A.
  - left. reflexivity.
Defined.

(** C8 fails as stated: after a click on the unreachable node C the AGV
    resting at A has status PLANNING, not IDLE, and its [waitReason] is
    null, not "no path". *)
Lemma unreachable_target_not_idle :
  ~ reachable islandsGraph [] [] "A" "C"
  /\ exists s',
       handleNodeClick islandsGraph "C" (selected 1 [idleAtA]) world0
       = (Normal s', world0)
       /\ List.map status (agvs s') = [PLANNING]
       /\ List.map waitReason (agvs s') = [None]
       /\ List.map targetNode (agvs s') = [Some "C"].
Proof.
  split; [exact C_unreachable_from_A|].
  eexists. split.
  - unfold handleNodeClick, selected. simpl. unfold bind.
    rewrite (retarget_no_route islandsGraph "C" idleAtA world0).
    + reflexivity.
    + vm_compute. reflexivity.
    + left. reflexivity.
  - repeat split.
Qed.

End RetargetClaims.

(* ===================================================================== *)
(** * Further properties of the code *)
(* ===================================================================== *)

Section ArbiterSafety.

Import JS TrafficManager ArbiterSpec Samples Fleets.
Local Open Scope R_scope.

Variables (ego : AGV) (egoNode nextNode : Node).

Lemma verdict_cases (fleet : list AGV) :
  checkTrafficRules ego egoNode nextNode fleet = no_conflict
  \/ exists r other,
       In other fleet
       /\ fires ego egoNode nextNode r other = true
       /\ checkTrafficRules ego egoNode nextNode fleet = verdict ego r other.
Proof.
  rewrite checkTrafficRules_refines. unfold arbitrate_agv_major.
  destruct (List.find (fires ego egoNode nextNode R0) fleet) as [o|] eqn:E.
  - right. exists R0, o. apply find_some in E. destruct E as [Hin Hf]. auto.
  - destruct (first_agv_any_cases ego egoNode nextNode fleet)
      as [H | (r & o & Hin & _ & Hf & Heq)]; [left; exact H|].
    right. exists r, o. auto.
Qed.

Lemma verdict_not_move (r : Rule) (other : AGV) :
  action (verdict ego r other) <> MOVE.
Proof. destruct r; discriminate. Qed.

Lemma first_agv_any_move (fleet : list AGV) :
  action (first_agv_any ego egoNode nextNode fleet) = MOVE ->
  forall other, In other fleet -> first_rule_of ego egoNode nextNode other = None.
Proof.
  induction fleet as [|o fl IH]; simpl; intros H other Hin; [contradiction|].
  destruct (first_rule_of ego egoNode nextNode o) as [r|] eqn:Hr.
  - exfalso. exact (verdict_not_move r o H).
  - destruct Hin as [<- | Hin]; [exact Hr | apply IH; assumption].
Qed.

(** MOVE is answered exactly when no rule fires against any AGV. *)
Lemma move_iff_quiet (fleet : list AGV) :
  action (checkTrafficRules ego egoNode nextNode fleet) = MOVE
  <-> forall other r, In other fleet -> fires ego egoNode nextNode r other = false.
Proof.
  split.
  - intros H other r Hin. rewrite checkTrafficRules_refines in H.
    unfold arbitrate_agv_major in H.
    destruct (List.find (fires ego egoNode nextNode R0) fleet) as [o|] eqn:E.
    { exfalso. exact (verdict_not_move R0 o H). }
    pose proof (find_none _ _ E other Hin) as H0.
    pose proof (first_agv_any_move fleet H other Hin) as H1.
    unfold first_rule_of in H1.
    destruct r; [exact H0| | | | | |];
      match goal with
      | |- fires _ _ _ ?r _ = false =>
          apply (find_none _ _ H1 r); simpl; auto 10
      end.
  - intros H. destruct (verdict_cases fleet) as [-> | (r & o & Hin & Hf & _)];
      [reflexivity|].
    rewrite (H o r Hin) in Hf. discriminate.
Qed.

Lemma find_filter {A : Type} (f g : A -> bool) (l : list A) :
  (forall x, f x = true -> g x = true) ->
  List.find f (List.filter g l) = List.find f l.
Proof.
  intros H. induction l as [|x l IH]; simpl; [reflexivity|].
  destruct (g x) eqn:Eg; simpl.
  - rewrite IH. reflexivity.
  - destruct (f x) eqn:Ef; [|exact IH].
    rewrite (H x Ef) in Eg. discriminate.
Qed.

Lemma fires_other (r : Rule) (other : AGV) :
  fires ego egoNode nextNode r other = true ->
  negb (agv_id other =? agv_id ego)%Z = true.
Proof. unfold fires. intros H. apply andb_prop in H. apply H. Qed.

Lemma first_agv_any_filter (fleet : list AGV) :
  first_agv_any ego egoNode nextNode
    (List.filter (fun a => negb (agv_id a =? agv_id ego)%Z) fleet)
  = first_agv_any ego egoNode nextNode fleet.
Proof.
  induction fleet as [|o fl IH]; simpl; [reflexivity|].
  destruct (negb (agv_id o =? agv_id ego)%Z) eqn:Eo; simpl.
  - rewrite IH. reflexivity.
  - assert (Hn : first_rule_of ego egoNode nextNode o = None).
    { unfold first_rule_of. apply find_never. intros r. unfold fires.
      rewrite Eo. reflexivity. }
    rewrite Hn. exact IH.
Qed.

(** X1: the ego's own entry in the snapshot plays no part in the verdict:
    [checkTrafficRules] answers the same with it and without it, and the
    blocker it names is never the ego. *)
Theorem arbiter_ignores_ego (fleet : list AGV) :
  checkTrafficRules ego egoNode nextNode
    (List.filter (fun a => negb (agv_id a =? agv_id ego)%Z) fleet)
  = checkTrafficRules ego egoNode nextNode fleet
  /\ blockerId (checkTrafficRules ego egoNode nextNode fleet) <> Some (agv_id ego).
Proof.
  split.
  - rewrite !checkTrafficRules_refines. unfold arbitrate_agv_major.
    rewrite find_filter by (intros x Hx; exact (fires_other R0 x Hx)).
    rewrite first_agv_any_filter. reflexivity.
  - destruct (verdict_cases fleet) as [-> | (r & o & _ & Hf & ->)];
      [discriminate|].
    apply fires_other in Hf. apply negb_true_iff, Z.eqb_neq in Hf.
    destruct r; simpl; congruence.
Qed.

Lemma opt_eqb_eq (a b : option string) : opt_eqb a b = true <-> a = b.
Proof.
  destruct a as [x|], b as [y|]; simpl; split; intros H;
    try discriminate; try reflexivity.
  - apply String.eqb_eq in H. congruence.
  - injection H as ->. apply String.eqb_refl.
Qed.

(** X2: the fields of a verdict go together.  MOVE carries no blocker and
    no reason, WAIT and REPATH_HEAD_ON carry both; [avoidData] is set
    exactly for REPATH_HEAD_ON and is then the edge from the ego's node to
    the head of its path; a blocker is an AGV of the snapshot. *)
Theorem verdict_fields_agree (fleet : list AGV) :
  let r := checkTrafficRules ego egoNode nextNode fleet in
  (action r = MOVE <-> blockerId r = None)
  /\ (action r = MOVE <-> conflictReason r = None)
  /\ (action r = REPATH_HEAD_ON <-> avoidData r <> None)
  /\ (forall e, avoidData r = Some e ->
        edge_u e = currentNode ego /\ hd_error (path ego) = Some (edge_v e))
  /\ (forall b, blockerId r = Some b ->
        exists other, In other fleet /\ agv_id other = b).
Proof.
  cbv zeta.
  destruct (verdict_cases fleet) as [-> | (r & o & Hin & Hf & ->)].
  - simpl. repeat split; try discriminate; try tauto.
  - split; [|split; [|split; [|split]]].
    + destruct r; simpl; split; discriminate.
    + destruct r; simpl; split; discriminate.
    + destruct r; simpl; split; try discriminate; congruence.
    + intros e He. destruct r; simpl in He; try discriminate.
      injection He as <-. simpl. split; [reflexivity|].
      unfold fires in Hf. apply andb_prop in Hf. destruct Hf as [_ Hf].
      apply andb_prop in Hf. destruct Hf as [Hf _].
      apply opt_eqb_eq in Hf. exact Hf.
    + intros b Hb. exists o. split; [exact Hin|].
      destruct r; simpl in Hb; congruence.
Qed.

(** X3: what MOVE rules out.  When the verdict is MOVE, no other AGV of
    the snapshot is head-on with the ego; an AGV that stands on the ego's
    next node is at least 60 away from the ego's node; and while the ego is
    at the start of its edge ([progress < 0.05]) no other AGV has reserved
    its next node or rests on it. *)
Theorem move_means_clear (fleet : list AGV) (other : AGV) (n : NodeId) :
  action (checkTrafficRules ego egoNode nextNode fleet) = MOVE ->
  In other fleet -> agv_id other <> agv_id ego ->
  hd_error (path ego) = Some n ->
  ~ (currentNode other = n /\ hd_error (path other) = Some (currentNode ego))
  /\ (currentNode other = n ->
      60 <= dist (node_x egoNode) (node_y egoNode) (agv_x other) (agv_y other))
  /\ (progress ego < 0.05 ->
      ~ In n (reservedNodes other)
      /\ ~ (currentNode other = n /\ progress other < 0.05)).
Proof.
  intros Hmove Hin Hid Hn.
  pose proof (proj1 (move_iff_quiet fleet) Hmove other) as Hq.
  apply Z.eqb_neq in Hid.
  split; [|split].
  - intros [Hc Hp]. specialize (Hq R1 Hin). unfold fires in Hq.
    rewrite Hid, Hn, Hc, Hp in Hq. simpl in Hq. rewrite !String.eqb_refl in Hq.
    discriminate.
  - intros Hc. specialize (Hq R3 Hin). unfold fires in Hq.
    rewrite Hid, Hn, Hc in Hq. simpl in Hq. rewrite String.eqb_refl in Hq.
    simpl in Hq. unfold num_lt in Hq. destruct (Rlt_dec _ 60); [discriminate | lra].
  - intros Hp. apply num_lt_true in Hp. split.
    + intros Hr. specialize (Hq R0 Hin). unfold fires in Hq.
      rewrite Hid, Hn, Hp in Hq. simpl in Hq.
      assert (Hi : includes (reservedNodes other) n = true).
      { unfold includes. apply existsb_exists. exists n. split; [exact Hr|].
        apply String.eqb_refl. }
      rewrite Hi in Hq. discriminate.
    + intros [Hc Ho]. apply num_lt_true in Ho. specialize (Hq R2a Hin).
      unfold fires in Hq. rewrite Hid, Hn, Hp, Hc, Ho in Hq. simpl in Hq.
      rewrite String.eqb_refl in Hq. discriminate.
Qed.

End ArbiterSafety.

Section EntryContention.

Import JS TrafficManager ArbiterSpec Samples Fleets.
Local Open Scope R_scope.

Lemma dist_same_y (x1 x2 y : R) : dist x1 y x2 y = Rabs (x1 - x2).
Proof.
  unfold dist. replace ((x1 - x2) ^ 2 + (y - y) ^ 2) with (Rsqr (x1 - x2))
    by (unfold Rsqr; ring).
  apply sqrt_Rsqr_abs.
Qed.

Lemma egoAtA_may_move :
  action (checkTrafficRules egoAtA nodeA nodeB [egoAtA; leavingC]) = MOVE.
Proof.
  rewrite checkTrafficRules_refines.
  unfold arbitrate_agv_major, first_agv_any, first_rule_of, List.find, fires.
  simpl. rewrite !dist_same_y.
  replace (Rabs (0 - 200)) with 200
    by (replace (0 - 200) with (- (200)) by lra;
        rewrite Rabs_Ropp, Rabs_pos_eq by lra; reflexivity).
  rewrite (num_lt_false 200 35) by lra.
  rewrite (num_lt_true 0 0.05) by lra. reflexivity.
Qed.

Lemma move_means_clear_witness :
  ~ (currentNode leavingC = "B"
     /\ hd_error (path leavingC) = Some (currentNode egoAtA))
  /\ (currentNode leavingC = "B" ->
      60 <= dist (node_x nodeA) (node_y nodeA) (agv_x leavingC) (agv_y leavingC))
  /\ (progress egoAtA < 0.05 ->
      ~ In "B" (reservedNodes leavingC)
      /\ ~ (currentNode leavingC = "B" /\ progress leavingC < 0.05)).
Proof.
  apply (move_means_clear egoAtA nodeA nodeB [egoAtA; leavingC] leavingC "B").
  - exact egoAtA_may_move.
  - simpl. auto.
  - simpl. lia.
  - reflexivity.
Defined.

Lemma fires_not_move (ego : AGV) (egoNode nextNode : Node) (fleet : list AGV)
    (other : AGV) (r : Rule) :
  In other fleet -> fires ego egoNode nextNode r other = true ->
  action (checkTrafficRules ego egoNode nextNode fleet) <> MOVE.
Proof.
  intros Hin Hf Hmove.
  rewrite (proj1 (move_iff_quiet ego egoNode nextNode fleet) Hmove other r Hin) in Hf.
  discriminate.
Qed.

(** X4: two AGVs at the start of their edges that head for the same node
    are never both told to MOVE: whatever their positions, the entry rule
    makes at least one of them yield. *)
Theorem entry_contention_one_yields (a b : AGV) (nodeOfA nodeOfB nextNode : Node)
    (fleet : list AGV) (n : NodeId) :
  agv_id a <> agv_id b ->
  In a fleet -> In b fleet ->
  progress a < 0.05 -> progress b < 0.05 ->
  hd_error (path a) = Some n -> hd_error (path b) = Some n ->
  action (checkTrafficRules a nodeOfA nextNode fleet) <> MOVE
  \/ action (checkTrafficRules b nodeOfB nextNode fleet) <> MOVE.
Proof.
  intros Hid Ha Hb Hpa Hpb Hna Hnb.
  apply num_lt_true in Hpa, Hpb.
  assert (Hab : (agv_id a =? agv_id b)%Z = false) by (apply Z.eqb_neq; exact Hid).
  assert (Hba : (agv_id b =? agv_id a)%Z = false) by (apply Z.eqb_neq; congruence).
  set (da := toNext nextNode a). set (db := toNext nextNode b).
  destruct (Rtotal_order db da) as [Hlt | [Heq | Hgt]].
  - left. apply (fires_not_move a nodeOfA nextNode fleet b R2b Hb).
    unfold fires. rewrite Hba, Hpa, Hna, Hnb. simpl. rewrite String.eqb_refl.
    fold da db. rewrite (num_lt_true _ _ Hlt). reflexivity.
  - destruct (Z.lt_total (agv_id a) (agv_id b)) as [Hz | [Hz | Hz]];
      [right | contradiction | left].
    + apply (fires_not_move b nodeOfB nextNode fleet a R2b Ha).
      unfold fires. rewrite Hab, Hpb, Hna, Hnb. simpl. rewrite String.eqb_refl.
      fold da db. rewrite Heq.
      replace (da - da) with 0 by lra. rewrite Rabs_R0.
      rewrite (num_lt_true 0 5) by lra.
      apply Z.ltb_lt in Hz. rewrite Hz. simpl. apply orb_true_r.
    + apply (fires_not_move a nodeOfA nextNode fleet b R2b Hb).
      unfold fires. rewrite Hba, Hpa, Hna, Hnb. simpl. rewrite String.eqb_refl.
      fold da db. rewrite Heq.
      replace (da - da) with 0 by lra. rewrite Rabs_R0.
      rewrite (num_lt_true 0 5) by lra.
      apply Z.ltb_lt in Hz. rewrite Hz. simpl. apply orb_true_r.
  - right. apply (fires_not_move b nodeOfB nextNode fleet a R2b Ha).
    unfold fires. rewrite Hab, Hpb, Hna, Hnb. simpl. rewrite String.eqb_refl.
    fold da db. rewrite (num_lt_true _ _ Hgt). reflexivity.
Qed.

Lemma entry_contention_one_yields_witness :
  action (checkTrafficRules egoAtA nodeA nodeB [egoAtA; rivalAtC]) <> MOVE
  \/ action (checkTrafficRules rivalAtC nodeC nodeB [egoAtA; rivalAtC]) <> MOVE.
Proof.
  apply (entry_contention_one_yields egoAtA rivalAtC nodeA nodeC nodeB
           [egoAtA; rivalAtC] "B").
  - simpl. lia.
  - simpl. auto.
  - simpl. auto.
  - simpl. lra.
  - simpl. lra.
  - reflexivity.
  - reflexivity.
Defined.

End EntryContention.

Section RunInvariants.

Import JS Pathfinding TrafficManager Simulation Outcomes Engine Invariants.
Local Open Scope R_scope.

Variables (mapData : MapData) (graph : Graph).

Lemma mapM_Forall2 {A B : Type} (R : A -> B -> Prop) (f : A -> M B) (l : list A) :
  (forall a w b w', In a l -> f a w = (Normal b, w') -> R a b) ->
  forall w l' w', mapM f l w = (Normal l', w') -> Forall2 R l l'.
Proof.
  induction l as [|a l IH]; intros Hf w l' w' H.
  - simpl in H. inversion H. constructor.
  - simpl in H. unfold bind in H.
    destruct (f a w) as [[b| | |] w1] eqn:Ea; try discriminate.
    destruct (mapM f l w1) as [[bs| | |] w2] eqn:El; try discriminate.
    inversion H; subst. constructor.
    + eapply Hf; [left; reflexivity | exact Ea].
    + eapply IH; [|exact El]. intros; eapply Hf; [right|]; eassumption.
Qed.




(** The ways an update can end, for proofs by cases. *)
Lemma updateAgv_elim (Q : AGV -> Prop) (rm : bool) (prev : list AGV) (a : AGV)
    (w : World) (a' : AGV) (w' : World) :
  (forall w0 w1, autoPilot mapData graph rm prev a w0 = (Normal (Some a'), w1) -> Q a') ->
  (a' = idle_record a -> Q a') ->
  (a' = a -> Q a') ->
  (forall t n rest cn nn,
     targetNode a = Some t -> path a = n :: rest ->
     physics a n cn nn (slice0 (path a) (hardBorrowLength a)) = Some a' -> Q a') ->
  (forall t n rest cn nn reason blocker w0 w1,
     targetNode a = Some t -> path a = n :: rest ->
     wait_branch graph prev a t n (edge_length cn nn) reason blocker w0
     = (Normal a', w1) -> Q a') ->
  (forall t n rest cn nn avoid w0 w1,
     targetNode a = Some t -> path a = n :: rest ->
     repath_head_on graph a t n (edge_length cn nn) avoid w0 = (Normal a', w1) -> Q a') ->
  updateAgv mapData graph rm prev a w = (Normal a', w') -> Q a'.
Proof.
  intros Hauto Hidle Hsame Hphys Hwait Hrepath H.
  unfold updateAgv, bind in H.
  destruct (autoPilot mapData graph rm prev a w) as [[[b|]| | |] w1] eqn:Ea;
    try discriminate.
  { inversion H; subst. eapply Hauto. exact Ea. }
  unfold movement in H.
  destruct (negb (truthy (targetNode a)) || (length (path a) =? 0)%nat).
  { inversion H; subst. apply Hidle. reflexivity. }
  destruct (targetNode a) as [t|] eqn:Et; [|inversion H; subst; auto].
  destruct (path a) as [|n rest] eqn:Hp; [inversion H; subst; auto|].
  destruct (find_node mapData (currentNode a)) as [cn|]; [|inversion H; subst; auto].
  destruct (find_node mapData n) as [nn|]; [|inversion H; subst; auto].
  fold (edge_length cn nn) in H.
  destruct (action _).
  - unfold finite in H.
    destruct (physics a n cn nn _) as [moved|] eqn:Hm; [|discriminate].
    inversion H; subst. eapply (Hphys t n rest cn nn); try reflexivity.
    exact Hm.
  - eapply (Hwait t n rest cn nn); try reflexivity. exact H.
  - eapply (Hrepath t n rest cn nn); try reflexivity. exact H.
Qed.

(** The two records [physics] can return. *)
Lemma physics_elim (Q : AGV -> Prop) (a : AGV) (n : NodeId) (cn nn : Node)
    (res : list NodeId) (a' : AGV) :
  (forall v,
     (speed_pre a -> v = 0 \/ 0 <= v <= maxSpeed a) ->
     ((length (tl (path a)) =? 0)%nat = true -> v = 0) ->
     a' = set_reservedNodes
            (if (length (tl (path a)) =? 0)%nat then []
             else slice0 (tl (path a)) (hardBorrowLength a))
          (set_pathRank 0%Z (set_retryCount 0%Z
          (set_currentSpeed v
          (set_waitReason None (set_waitTimer 0%Z
          (set_targetNode (if (length (tl (path a)) =? 0)%nat then None
                           else targetNode a)
          (set_status (if (length (tl (path a)) =? 0)%nat then COMPLETED else MOVING)
          (set_orientation (atan2 (node_y nn - node_y cn) (node_x nn - node_x cn)
                            * (180 / PI))
          (set_progress 0 (set_progressDistance 0
          (set_path (tl (path a))
          (set_previousNode (Some (currentNode a))
          (set_currentNode n
          (set_agv_y (node_y nn) (set_agv_x (node_x nn) a))))))))))))))) ->
     Q a') ->
  (forall v p d x y,
     (speed_pre a -> 0 <= v <= maxSpeed a) ->
     (speed_pre a -> 0 <= progressDistance a -> 0 <= p < 1 /\ 0 <= d) ->
     a' = set_reservedNodes res
          (set_currentSpeed v
          (set_waitReason None (set_waitTimer 0%Z
          (set_status MOVING
          (set_orientation (atan2 (node_y nn - node_y cn) (node_x nn - node_x cn)
                            * (180 / PI))
          (set_progress p (set_progressDistance d
          (set_agv_y y (set_agv_x x a))))))))) ->
     Q a') ->
  physics a n cn nn res = Some a' -> Q a'.
Proof.
  intros Harr Hmov H.
  assert (Hr : speed_pre a ->
               0 <= physics_newSpeed a (physics_targetSpeed a
                      (edge_length cn nn - progressDistance a)) <= maxSpeed a).
  { intros Hpre. apply (newSpeed_range a _ Hpre (targetSpeed_cases a _)). }
  unfold physics in H. cbv zeta in H. fold (edge_length cn nn) in H.
  set (v := physics_newSpeed a (physics_targetSpeed a
              (edge_length cn nn - progressDistance a))) in *.
  match type of H with
  | match ?p with Some _ => _ | None => _ end = _ => destruct p as [p0|] eqn:Ep
  end; [|discriminate].
  destruct (num_le 1 _) eqn:E1.
  - injection H as H. symmetry in H.
    destruct (length (tl (path a)) =? 0)%nat eqn:Earr.
    + apply (Harr 0); [left; reflexivity | reflexivity | exact H].
    + apply (Harr v); [right; auto | discriminate | exact H].
  - injection H as H. symmetry in H.
    eapply (Hmov v); [exact Hr | | exact H].
    intros Hpre Hpd. specialize (Hr Hpre).
    assert (Hlt : (if num_lt 1 p0 then 1 else p0) < 1).
    { unfold num_le in E1. destruct (Rle_dec 1 _); [discriminate | lra]. }
    assert (Hp0 : p0 < 1).
    { unfold num_lt in Hlt. destruct (Rlt_dec 1 p0); lra. }
    assert (Hsame : (if num_lt 1 p0 then 1 else p0) = p0).
    { unfold num_lt. destruct (Rlt_dec 1 p0); [lra | reflexivity]. }
    rewrite Hsame.
    destruct (_ && _ && _) eqn:Esnap.
    { injection Ep as <-. lra. }
    unfold num_eq in Ep. destruct (Req_dec_T (edge_length cn nn) 0) as [Hz|Hz].
    { destruct (num_lt 0 _); [injection Ep as <-; lra | discriminate]. }
    injection Ep as <-.
    assert (Hlen : 0 < edge_length cn nn).
    { pose proof (sqrt_pos ((node_x nn - node_x cn) * (node_x nn - node_x cn)
                            + (node_y nn - node_y cn) * (node_y nn - node_y cn))).
      unfold edge_length in *. lra. }
    split; [|lra]. split; [|exact Hp0].
    apply Rmult_le_pos; [lra|]. left. apply Rinv_0_lt_compat. exact Hlen.
Qed.

Lemma index_In {A : Type} (l : list A) (i : Z) (x : A) :
  index l i = Some x -> In x l.
Proof.
  unfold index. destruct (i <? 0)%Z; [discriminate|]. apply nth_error_In.
Qed.

Lemma safeNodes_spec (s : SimState) (node : Node) :
  In node (safeNodes mapData s) <-> In node (nodes mapData) /\ unobstructed s node.
Proof.
  unfold safeNodes, unobstructed. rewrite filter_In.
  split; intros [Hin H]; (split; [exact Hin|]).
  - intros agv Ha. apply negb_true_iff in H.
    destruct (Rle_dec (fc_safetyDistance (fleetConfig s) * 2)
                (dist (agv_x agv) (agv_y agv) (node_x node) (node_y node)))
      as [Hle|Hgt]; [exact Hle|].
    exfalso. assert (He : existsb (fun agv0 =>
        num_lt (dist (agv_x agv0) (agv_y agv0) (node_x node) (node_y node))
               (fc_safetyDistance (fleetConfig s) * 2)) (agvs s) = true).
    { apply existsb_exists. exists agv. split; [exact Ha|].
      apply num_lt_true. lra. }
    congruence.
  - apply negb_true_iff. destruct (existsb _ (agvs s)) eqn:E; [|reflexivity].
    apply existsb_exists in E. destruct E as (agv & Ha & Hlt).
    apply num_lt_iff in Hlt. specialize (H agv Ha). lra.
Qed.

(** What a spawn that returns has done. *)
Lemma spawn_elim (s : SimState) (w : World) (s' : SimState) (w' : World) :
  spawnAgv mapData s w = (Normal s', w') ->
  exists node id hue stamp,
    In node (nodes mapData)
    /\ (safeNodes mapData s <> [] -> unobstructed s node)
    /\ s' = set_agvs (agvs s ++ [spawn_record (fleetConfig s) node id hue stamp]) s.
Proof.
  intros H. unfold spawnAgv in H. unfold bind at 1 in H. unfold Math_random at 1 in H.
  unfold bind at 1 in H. unfold Date_now at 1 in H.
  unfold bind at 1 in H.
  destruct (0 <? length (safeNodes mapData s))%nat eqn:El.
  - destruct (index (safeNodes mapData s) _) as [node|] eqn:Ei; [|discriminate].
    apply index_In in Ei. apply safeNodes_spec in Ei. destruct Ei as [Hin Hfree].
    unfold defined, ret at 1 in H. monad_cases H. inversion H; subst.
    eexists node, _, _, _. split; [exact Hin|]. split; [auto|]. reflexivity.
  - destruct (index (nodes mapData) _) as [node|] eqn:Ei; [|discriminate].
    apply index_In in Ei.
    unfold defined, ret at 1 in H. monad_cases H. inversion H; subst.
    eexists node, _, _, _. split; [exact Ei|]. split; [|reflexivity].
    intros Hne. destruct (safeNodes mapData s); [congruence | discriminate].
Qed.

Lemma spawn_returns (s : SimState) (w : World) :
  nodes mapData <> [] ->
  0 <= random_tape w (random_pos w) < 1 ->
  exists s' w', spawnAgv mapData s w = (Normal s', w').
Proof.
  intros Hne Hr. unfold spawnAgv. unfold bind at 1. unfold Math_random at 1.
  unfold bind at 1. unfold Date_now at 1. unfold bind at 1.
  destruct (0 <? length (safeNodes mapData s))%nat eqn:El.
  - destruct (index_floor _ (safeNodes mapData s) _ Hr) as (node & -> & _).
    { destruct (safeNodes mapData s); [discriminate | congruence]. }
    eexists _, _. reflexivity.
  - destruct (index_floor _ (nodes mapData) _ Hr Hne) as (node & -> & _).
    eexists _, _. reflexivity.
Qed.

(** X5: on a map with at least one node, and for a random draw in [0, 1),
    [spawnAgv] appends exactly one AGV to the fleet and changes nothing
    else: the new AGV stands on a node of the map, idle, without target or
    path, at speed 0, with the fleet configuration; and when some node is
    free (no AGV closer than twice the safety distance) it stands on a
    free node. *)
Theorem spawn_places_one_agv (s : SimState) (w : World) :
  nodes mapData <> [] ->
  0 <= random_tape w (random_pos w) < 1 ->
  exists node id hue stamp w',
    spawnAgv mapData s w
    = (Normal (set_agvs (agvs s ++ [spawn_record (fleetConfig s) node id hue stamp]) s),
       w')
    /\ In node (nodes mapData)
    /\ ((exists free, In free (nodes mapData) /\ unobstructed s free) ->
        unobstructed s node).
Proof.
  intros Hne Hr.
  destruct (spawn_returns s w Hne Hr) as (s' & w' & H).
  destruct (spawn_elim s w s' w' H) as (node & id & hue & stamp & Hin & Hfree & ->).
  exists node, id, hue, stamp, w'. split; [exact H|]. split; [exact Hin|].
  intros (free & Hf & Hu). apply Hfree.
  intros Hnil. assert (Hs : In free (safeNodes mapData s))
    by (apply safeNodes_spec; auto).
  rewrite Hnil in Hs. destruct Hs.
Qed.

Ltac crunch H := monad_cases H; inversion H; subst; clear H.

Ltac by_update_cases H :=
  eapply updateAgv_elim; [ | | | | | | exact H];
  [ let Ha := fresh "Ha" in intros ? ? Ha; unfold autoPilot in Ha; crunch Ha
  | intros ->
  | intros ->
  | let Hm := fresh "Hm" in
    intros ? ? ? ? ? ? ? Hm; eapply physics_elim; [ | | exact Hm];
    [ intros ? ? ? -> | intros ? ? ? ? ? ? ? -> ]
  | let Hw := fresh "Hw" in
    intros ? ? ? ? ? ? ? ? ? ? ? Hw;
    unfold wait_branch, standard_retry, choose_stepBack in Hw; crunch Hw
  | let Hr := fresh "Hr" in
    intros ? ? ? ? ? ? ? ? ? ? Hr; unfold repath_head_on in Hr; crunch Hr ].

Lemma updateAgv_identity (rm : bool) (prev : list AGV) (a : AGV) (w : World)
    (a' : AGV) (w' : World) :
  updateAgv mapData graph rm prev a w = (Normal a', w') -> same_identity a a'.
Proof.
  intros H. by_update_cases H; unfold same_identity; simpl; repeat split.
Qed.

Lemma retarget_identity (n : NodeId) (a : AGV) (w : World) (a' : AGV) (w' : World) :
  retarget graph n a w = (Normal a', w') -> same_identity a a'.
Proof.
  intros H. unfold retarget in H. crunch H; unfold same_identity; simpl; repeat split.
Qed.









Lemma updateAgv_position (rm : bool) (prev : list AGV) (a : AGV) (w : World)
    (a' : AGV) (w' : World) :
  updateAgv mapData graph rm prev a w = (Normal a', w') ->
  status a' <> MOVING -> status a' <> COMPLETED ->
  agv_x a' = agv_x a /\ agv_y a' = agv_y a.
Proof.
  intros H. by_update_cases H; simpl; auto; try congruence.
  destruct (length (tl (path a)) =? 0)%nat; congruence.
Qed.










(** X10: a tick never adds, removes or reorders AGVs and never changes an
    AGV's id, colour or configuration (maximum speed, acceleration,
    deceleration, safety distance, borrow length); the other state cells
    of the hook are left as they were. *)
Theorem tick_keeps_identities (s : SimState) (w : World) (s' : SimState) (w' : World) :
  updateSimulation mapData graph s w = (Normal s', w') ->
  Forall2 same_identity (agvs s) (agvs s')
  /\ isPlaying s' = isPlaying s /\ randomMoveMode s' = randomMoveMode s
  /\ selectedAgvId s' = selectedAgvId s /\ fleetConfig s' = fleetConfig s.
Proof.
  intros H. unfold updateSimulation in H. destruct (negb (isPlaying s)).
  - inversion H; subst. split; [|auto].
    induction (agvs s'); constructor; [|assumption].
    unfold same_identity. repeat split.
  - unfold bind in H.
    destruct (mapM _ (agvs s) w) as [[l'| | |] w1] eqn:El; try discriminate.
    inversion H; subst. split; [|auto]. simpl.
    eapply mapM_Forall2; [|exact El].
    intros a w0 b w0' _ Hu. eapply updateAgv_identity. exact Hu.
Qed.

(** X11: an update moves an AGV only when it returns it with status MOVING
    or COMPLETED: an AGV that is told to wait, to replan, to detour, that
    is blocked, idle or planning keeps its position. *)
Theorem only_moving_agvs_move (s : SimState) (w : World) (s' : SimState) (w' : World) :
  updateSimulation mapData graph s w = (Normal s', w') ->
  Forall2 (fun a a' =>
             status a' <> MOVING -> status a' <> COMPLETED ->
             agv_x a' = agv_x a /\ agv_y a' = agv_y a)
          (agvs s) (agvs s').
Proof.
  intros H. unfold updateSimulation in H. destruct (negb (isPlaying s)).
  - inversion H; subst. induction (agvs s'); constructor; auto.
  - unfold bind in H.
    destruct (mapM _ (agvs s) w) as [[l'| | |] w1] eqn:El; try discriminate.
    inversion H; subst. simpl.
    eapply mapM_Forall2; [|exact El].
    intros a w0 b w0' _ Hu. eapply updateAgv_position. exact Hu.
Qed.

(** X12: the target the auto-pilot picks.  When the auto-pilot block
    returns a record, auto-pilot is on, the AGV was IDLE or COMPLETED and
    slower than 0.1; the new target is a node of the map other than the
    node the AGV stands on and is the target of no other AGV of the
    snapshot; the path is what [findPath] answers for it, and the AGV has
    not moved. *)
Theorem autoPilot_picks_free_target (rm : bool) (prev : list AGV) (a : AGV)
    (w : World) (a' : AGV) (w' : World) :
  autoPilot mapData graph rm prev a w = (Normal (Some a'), w') ->
  rm = true /\ (status a = IDLE \/ status a = COMPLETED) /\ currentSpeed a < 0.1
  /\ exists node,
       In node (nodes mapData)
       /\ node_id node <> currentNode a
       /\ (forall other, In other prev -> agv_id other <> agv_id a ->
             truthy (targetNode other) = true ->
             targetNode other <> Some (node_id node))
       /\ targetNode a' = Some (node_id node)
       /\ findPath (currentNode a) (node_id node) graph [] [] = Some (path a')
       /\ reservedNodes a' = slice0 (path a') (hardBorrowLength a)
       /\ status a' = PLANNING
       /\ currentNode a' = currentNode a
       /\ agv_x a' = agv_x a /\ agv_y a' = agv_y a.
Proof.
  intros H. unfold autoPilot in H.
  destruct rm; [|simpl in H; inversion H].
  destruct (match status a with IDLE | COMPLETED => true | _ => false end) eqn:Es;
    [|simpl in H; inversion H].
  destruct (num_lt (currentSpeed a) 0.1) eqn:Ev; [|simpl in H; inversion H].
  cbn [andb] in H.
  split; [reflexivity|].
  split; [destruct (status a); try discriminate; auto|].
  split; [apply num_lt_iff; exact Ev|].
  unfold bind at 1 in H. unfold Math_random at 1 in H.
  destruct (num_lt _ 0.05); [|inversion H].
  match type of H with
  | context [List.filter ?f (nodes mapData)] =>
      set (possibleTargets := List.filter f (nodes mapData)) in *
  end.
  destruct (0 <? length possibleTargets)%nat; [|inversion H].
  unfold bind at 1 in H. unfold Math_random at 1 in H.
  unfold bind at 1 in H.
  destruct (index possibleTargets _) as [node|] eqn:Ei; [|discriminate].
  apply index_In in Ei. unfold possibleTargets in Ei.
  apply filter_In in Ei. destruct Ei as [Hin Hok].
  apply andb_prop in Hok. destruct Hok as [Hne Hfree].
  unfold defined, ret at 1 in H. unfold bind at 1 in H. unfold call_findPath in H.
  destruct (findPath (currentNode a) (node_id node) graph [] []) as [p|] eqn:Ef;
    [|discriminate].
  unfold ret at 1, bind, Date_now, ret in H. inversion H; subst; clear H.
  exists node. split; [exact Hin|].
  split; [apply negb_true_iff, String.eqb_neq in Hne; exact Hne|].
  split; [|simpl; repeat split; try reflexivity; exact Ef].
  intros other Ho Hid Ht Heq.
  apply negb_true_iff in Hfree.
  assert (He : existsb (opt_eqb (Some (node_id node)))
                 (List.map targetNode
                    (List.filter (fun a0 => negb (agv_id a0 =? agv_id a)%Z
                                            && truthy (targetNode a0)) prev)) = true).
  { apply existsb_exists. exists (targetNode other). split.
    - apply in_map. apply filter_In. split; [exact Ho|].
      apply Z.eqb_neq in Hid. rewrite Hid, Ht. reflexivity.
    - rewrite Heq. simpl. apply String.eqb_refl. }
  congruence.
Qed.

(** X13: setting a target plans a cheapest route from the node the AGV
    departs from.  On a well-formed graph, for a target that is a node of
    the graph, the handler returns: the AGV keeps its node, position and
    progress, gets status PLANNING and the target; when it is on an edge
    the new path starts with the node it is heading to, so that it ends
    the edge first; what follows is a cheapest route from the departure
    node to the target when one exists. *)
Theorem retarget_plans_cheapest_route (t : NodeId) (a : AGV) (w : World) :
  PathSpec.graph_wf graph ->
  In (departure a) (graph_keys graph) ->
  In t (graph_keys graph) ->
  exists steps,
    retarget graph t a w
    = (Normal (set_reservedNodes
                 (slice0 (pathPrefix a ++ steps)
                         (hardBorrowLength a))
              (set_pathRank 0%Z (set_retryCount 0%Z (set_waitReason None
              (set_waitTimer 0%Z (set_status PLANNING
              (set_path (pathPrefix a ++ steps)
              (set_targetNode (Some t) a)))))))), w)
    /\ (PathSpec.reachable graph [] [] (departure a) t ->
        PathSpec.min_cost_path graph [] [] (departure a) steps t)
    /\ (steps = [] <->
        departure a = t \/ ~ PathSpec.reachable graph [] [] (departure a) t).
Proof.
  intros Hwf Hd Ht.
  destruct (findPath_spec graph (departure a) [] [] Hwf Hd t Ht)
    as (steps & Hf & Hmin & Hnil).
  exists steps. split; [|split; assumption].
  unfold retarget. fold (onEdge a). unfold pathPrefix, departure in Hf |- *.
  destruct (onEdge a); unfold bind, call_findPath; rewrite Hf; reflexivity.
Qed.

(** X14: a click on a node touches the selected AGV only.  Without a
    selection nothing changes; with one, the simulation is set playing and
    every AGV other than the selected one is left exactly as it was, while
    the selected one keeps its identity, gets the target and the status
    PLANNING. *)
Theorem click_touches_selected_only (n : NodeId) (s : SimState) (w : World)
    (s' : SimState) (w' : World) :
  handleNodeClick graph n s w = (Normal s', w') ->
  (selectedAgvId s = None \/ selectedAgvId s = Some 0%Z -> s' = s)
  /\ (forall sel, selectedAgvId s = Some sel -> sel <> 0%Z ->
        isPlaying s' = true
        /\ Forall2 (fun a a' =>
                      same_identity a a'
                      /\ (agv_id a <> sel -> a' = a)
                      /\ (agv_id a = sel ->
                          targetNode a' = Some n /\ status a' = PLANNING))
                   (agvs s) (agvs s')).
Proof.
  intros H. unfold handleNodeClick in H.
  destruct (selectedAgvId s) as [sel|] eqn:Es.
  - destruct (sel =? 0)%Z eqn:E0.
    + apply Z.eqb_eq in E0. subst sel. inversion H; subst.
      split; [reflexivity|]. intros sel [= <-] Hne. contradiction.
    + apply Z.eqb_neq in E0. split; [intros [Hn | Hz]; congruence|].
      intros sel' [= <-] _. unfold bind in H.
      destruct (mapM _ (agvs s) w) as [[l'| | |] w1] eqn:El; try discriminate.
      inversion H; subst. split; [reflexivity|]. simpl.
      eapply mapM_Forall2; [|exact El].
      intros a w0 b w0' _ Hu. simpl in Hu.
      destruct (agv_id a =? sel)%Z eqn:Ea; simpl in Hu.
      * apply Z.eqb_eq in Ea. split; [eapply retarget_identity; exact Hu|].
        split; [congruence|]. intros _.
        unfold retarget in Hu. crunch Hu; simpl; auto.
      * apply Z.eqb_neq in Ea. inversion Hu; subst.
        split; [unfold same_identity; repeat split|].
        split; [reflexivity | congruence].
  - inversion H; subst. split; [reflexivity|]. intros sel Hs. discriminate.
Qed.

End RunInvariants.

Section RunInvariantWitnesses.

Import JS Pathfinding PathSpec TrafficManager Simulation Outcomes Engine Invariants Samples Fleets.
Local Open Scope R_scope.

Lemma spawn_places_one_agv_witness :
  exists node id hue stamp w',
    spawnAgv corridor (playing []) world0
    = (Normal (set_agvs (agvs (playing [])
                         ++ [spawn_record (fleetConfig (playing [])) node id hue stamp])
                        (playing [])), w')
    /\ In node (nodes corridor)
    /\ ((exists free, In free (nodes corridor) /\ unobstructed (playing []) free) ->
        unobstructed (playing []) node).
Proof.
  apply (spawn_places_one_agv corridor (playing []) world0).
  - simpl. discriminate.
  - simpl. lra.
Defined.





Lemma tick_of_arrivedAtC :
  updateSimulation corridor corridorGraph (playing [arrivedAtC]) world0
  = (Normal (set_agvs [idle_record arrivedAtC] (playing [arrivedAtC])), world0).
Proof. reflexivity. Qed.

Lemma tick_keeps_identities_witness :
  Forall2 same_identity (agvs (playing [arrivedAtC]))
          (agvs (set_agvs [idle_record arrivedAtC] (playing [arrivedAtC])))
  /\ isPlaying (set_agvs [idle_record arrivedAtC] (playing [arrivedAtC]))
     = isPlaying (playing [arrivedAtC])
  /\ randomMoveMode (set_agvs [idle_record arrivedAtC] (playing [arrivedAtC]))
     = randomMoveMode (playing [arrivedAtC])
  /\ selectedAgvId (set_agvs [idle_record arrivedAtC] (playing [arrivedAtC]))
     = selectedAgvId (playing [arrivedAtC])
  /\ fleetConfig (set_agvs [idle_record arrivedAtC] (playing [arrivedAtC]))
     = fleetConfig (playing [arrivedAtC]).
Proof.
  apply (tick_keeps_identities corridor corridorGraph (playing [arrivedAtC]) world0
           _ world0).
  reflexivity.
Defined.

Lemma only_moving_agvs_move_witness :
  Forall2 (fun a a' =>
             status a' <> MOVING -> status a' <> COMPLETED ->
             agv_x a' = agv_x a /\ agv_y a' = agv_y a)
          (agvs (playing [arrivedAtC]))
          (agvs (set_agvs [idle_record arrivedAtC] (playing [arrivedAtC]))).
Proof.
  apply (only_moving_agvs_move corridor corridorGraph (playing [arrivedAtC]) world0
           _ world0).
  reflexivity.
Defined.

Lemma autoPilot_of_idleAtA :
  autoPilot corridor corridorGraph true [idleAtA] idleAtA world0
  = (Normal (Some plannedToB),
     mkWorld (fun _ => 0) 2 (fun _ => 0%Z) 1).
Proof.
  unfold autoPilot. simpl. rewrite (num_lt_true 0 0.1) by lra.
  unfold bind, Math_random. simpl. rewrite (num_lt_true 0 0.05) by lra.
  rewrite floor_zero. simpl.
  unfold call_findPath.
  replace (findPath "A" "B" corridorGraph [] []) with (Some ["B"])
    by (vm_compute; reflexivity).
  reflexivity.
Qed.

Lemma autoPilot_picks_free_target_witness :
  true = true /\ (status idleAtA = IDLE \/ status idleAtA = COMPLETED)
  /\ currentSpeed idleAtA < 0.1
  /\ exists node,
       In node (nodes corridor)
       /\ node_id node <> currentNode idleAtA
       /\ (forall other, In other [idleAtA] -> agv_id other <> agv_id idleAtA ->
             truthy (targetNode other) = true ->
             targetNode other <> Some (node_id node))
       /\ targetNode plannedToB
          = Some (node_id node)
       /\ findPath (currentNode idleAtA) (node_id node) corridorGraph [] []
          = Some (path plannedToB)
       /\ reservedNodes plannedToB
          = slice0 (path plannedToB)
                   (hardBorrowLength idleAtA)
       /\ status plannedToB
          = PLANNING
       /\ currentNode plannedToB
          = currentNode idleAtA
       /\ agv_x plannedToB
          = agv_x idleAtA
       /\ agv_y plannedToB
          = agv_y idleAtA.
Proof.
  apply (autoPilot_picks_free_target corridor corridorGraph true [idleAtA] idleAtA
           world0 _ _ autoPilot_of_idleAtA).
Defined.

Lemma departure_egoMidEdge : departure egoMidEdge = "B" /\ onEdge egoMidEdge = true.
Proof.
  unfold departure, onEdge. simpl. rewrite (num_lt_true 0 0.5) by lra. auto.
Qed.

Lemma retarget_plans_cheapest_route_witness :
  exists steps,
    retarget diamondGraph "C" egoMidEdge world0
    = (Normal (set_reservedNodes
                 (slice0 (pathPrefix egoMidEdge ++ steps) (hardBorrowLength egoMidEdge))
              (set_pathRank 0%Z (set_retryCount 0%Z (set_waitReason None
              (set_waitTimer 0%Z (set_status PLANNING
              (set_path (pathPrefix egoMidEdge ++ steps)
              (set_targetNode (Some "C") egoMidEdge)))))))), world0)
    /\ (reachable diamondGraph [] [] (departure egoMidEdge) "C" ->
        min_cost_path diamondGraph [] [] (departure egoMidEdge) steps "C")
    /\ (steps = [] <->
        departure egoMidEdge = "C"
        \/ ~ reachable diamondGraph [] [] (departure egoMidEdge) "C").
Proof.
  apply (retarget_plans_cheapest_route diamondGraph "C" egoMidEdge world0).
  - apply graph_wfb_sound. vm_compute. reflexivity.
  - rewrite (proj1 departure_egoMidEdge). simpl. auto.
  - simpl. auto.
Defined.

Lemma click_on_C :
  handleNodeClick islandsGraph "C" (selected 1 [idleAtA]) world0
  = (Normal (set_isPlaying true (set_agvs [plannedToC] (selected 1 [idleAtA]))), world0).
Proof.
  unfold handleNodeClick, selected. simpl. unfold bind.
  rewrite (retarget_no_route islandsGraph "C" idleAtA world0).
  - reflexivity.
  - vm_compute. reflexivity.
  - left. reflexivity.
Qed.

Lemma click_touches_selected_only_witness :
  (selectedAgvId (selected 1 [idleAtA]) = None
   \/ selectedAgvId (selected 1 [idleAtA]) = Some 0%Z ->
   set_isPlaying true (set_agvs [plannedToC] (selected 1 [idleAtA]))
   = selected 1 [idleAtA])
  /\ (forall sel, selectedAgvId (selected 1 [idleAtA]) = Some sel -> sel <> 0%Z ->
        isPlaying (set_isPlaying true (set_agvs [plannedToC] (selected 1 [idleAtA])))
        = true
        /\ Forall2 (fun a a' =>
                      same_identity a a'
                      /\ (agv_id a <> sel -> a' = a)
                      /\ (agv_id a = sel ->
                          targetNode a' = Some "C" /\ status a' = PLANNING))
                   (agvs (selected 1 [idleAtA]))
                   (agvs (set_isPlaying true
                            (set_agvs [plannedToC] (selected 1 [idleAtA]))))).
Proof.
  apply (click_touches_selected_only islandsGraph "C" (selected 1 [idleAtA]) world0
           _ world0 click_on_C).
Defined.

End RunInvariantWitnesses.

Section BuildGraphFacts.

Import JS Pathfinding PathSpec GraphShape Samples.

Lemma graph_push_keys (g : Graph) (k : NodeId) (gn : GraphNode) (g' : Graph) :
  graph_push g k gn = Some g' -> graph_keys g' = graph_keys g.
Proof.
  revert g'. induction g as [|[k' ns] rest IH]; intros g' H; simpl in H;
    [discriminate|].
  destruct (String.eqb k' k).
  - injection H as <-. reflexivity.
  - destruct (graph_push rest k gn) as [rest'|]; [|discriminate].
    injection H as <-. simpl. f_equal. apply IH. reflexivity.
Qed.

Lemma graph_push_some (g : Graph) (k : NodeId) (gn : GraphNode) :
  In k (graph_keys g) <-> exists g', graph_push g k gn = Some g'.
Proof.
  induction g as [|[k' ns] rest IH]; simpl.
  - split; [intros [] | intros (g' & H); discriminate].
  - destruct (String.eqb k' k) eqn:E.
    + apply String.eqb_eq in E. split; [eexists; reflexivity | auto].
    + apply String.eqb_neq in E. split.
      * intros [H | H]; [contradiction|].
        apply IH in H. destruct H as (r & ->). eexists; reflexivity.
      * intros (g' & H). right. apply IH.
        destruct (graph_push rest k gn); [eexists; reflexivity | discriminate].
Qed.

Lemma graph_push_get (g : Graph) (k : NodeId) (gn : GraphNode) (g' : Graph)
    (u : NodeId) :
  graph_push g k gn = Some g' ->
  graph_get g' u
  = if String.eqb k u then option_map (fun l => l ++ [gn]) (graph_get g u)
    else graph_get g u.
Proof.
  unfold graph_get.
  revert g'. induction g as [|[k' ns] rest IH]; intros g' H; simpl in H;
    [discriminate|].
  destruct (String.eqb k' k) eqn:E.
  - apply String.eqb_eq in E. subst k'. injection H as <-. simpl.
    destruct (String.eqb k u); reflexivity.
  - destruct (graph_push rest k gn) as [rest'|]; [|discriminate].
    injection H as <-. simpl.
    destruct (String.eqb k' u) eqn:E'.
    + apply String.eqb_eq in E'. subst k'.
      rewrite String.eqb_sym, E. reflexivity.
    + apply IH. reflexivity.
Qed.

Lemma graph_reset_keys (g : Graph) (k : NodeId) :
  graph_keys (graph_reset g k)
  = if in_dec string_dec k (graph_keys g) then graph_keys g else graph_keys g ++ [k].
Proof.
  induction g as [|[k' ns] rest IH]; simpl; [reflexivity|].
  destruct (String.eqb k' k) eqn:E.
  - apply String.eqb_eq in E. subst.
    destruct (string_dec k k); [|congruence]. reflexivity.
  - apply String.eqb_neq in E. simpl. rewrite IH.
    destruct (string_dec k' k); [contradiction|].
    destruct (in_dec string_dec k (graph_keys rest)); reflexivity.
Qed.

Lemma graph_reset_get (g : Graph) (k u : NodeId) :
  graph_get (graph_reset g k) u
  = if String.eqb k u then Some [] else graph_get g u.
Proof.
  unfold graph_get.
  induction g as [|[k' ns] rest IH]; simpl.
  - destruct (String.eqb k u); reflexivity.
  - destruct (String.eqb k' k) eqn:E; simpl.
    + apply String.eqb_eq in E. subst.
      destruct (String.eqb k u); reflexivity.
    + destruct (String.eqb k' u) eqn:E'.
      * apply String.eqb_eq in E'. subst.
        rewrite String.eqb_sym, E. reflexivity.
      * exact IH.
Qed.

(** The object after [nodes.forEach(node => graph[node.id] = [])]. *)
Lemma empty_graph_keys (ns : list Node) (g0 : Graph) :
  List.NoDup (graph_keys g0 ++ List.map node_id ns) ->
  graph_keys (fold_left (fun g n => graph_reset g (node_id n)) ns g0)
  = graph_keys g0 ++ List.map node_id ns.
Proof.
  revert g0. induction ns as [|n ns IH]; intros g0 Hnd; simpl.
  - rewrite app_nil_r. reflexivity.
  - assert (Hk : graph_keys (graph_reset g0 (node_id n)) = graph_keys g0 ++ [node_id n]).
    { rewrite graph_reset_keys.
      destruct (in_dec string_dec (node_id n) (graph_keys g0)) as [Hin|]; [|reflexivity].
      exfalso. simpl in Hnd. apply NoDup_remove_2 in Hnd. apply Hnd.
      apply in_or_app. left. exact Hin. }
    rewrite IH; rewrite Hk, <- app_assoc; [reflexivity | exact Hnd].
Qed.

Lemma empty_graph_get (ns : list Node) (g0 : Graph) (u : NodeId) :
  graph_get (fold_left (fun g n => graph_reset g (node_id n)) ns g0) u
  = if includes (List.map node_id ns) u then Some [] else graph_get g0 u.
Proof.
  revert g0. induction ns as [|n ns IH]; intros g0; simpl; [reflexivity|].
  rewrite IH, graph_reset_get. unfold includes. simpl.
  rewrite (String.eqb_sym u (node_id n)).
  destruct (existsb (String.eqb u) (List.map node_id ns));
    destruct (String.eqb (node_id n) u); reflexivity.
Qed.

Lemma empty_graph_key_set (ns : list Node) (g0 : Graph) (u : NodeId) :
  In u (graph_keys (fold_left (fun g n => graph_reset g (node_id n)) ns g0))
  <-> In u (graph_keys g0) \/ In u (List.map node_id ns).
Proof.
  revert g0. induction ns as [|n ns IH]; intros g0; simpl; [tauto|].
  rewrite IH, graph_reset_keys.
  destruct (in_dec string_dec (node_id n) (graph_keys g0)) as [Hin|Hout].
  - split; [tauto|]. intros [H | [<- | H]]; auto.
  - rewrite in_app_iff. simpl. tauto.
Qed.

Lemma push_edges_none (es : list Edge) : push_edges es None = None.
Proof. induction es as [|e es IH]; simpl; [reflexivity | exact IH]. Qed.

Lemma push_edges_some (es : list Edge) (g0 g : Graph) :
  push_edges es (Some g0) = Some g ->
  (forall e, In e es -> In (source e) (graph_keys g0) /\ In (target e) (graph_keys g0))
  /\ graph_keys g = graph_keys g0
  /\ forall u, graph_get g u
               = option_map (fun l => l ++ incident es u) (graph_get g0 u).
Proof.
  revert g0. induction es as [|e es IH]; intros g0 H; simpl in H.
  - injection H as <-. split; [intros e []|]. split; [reflexivity|].
    intros u. simpl. destruct (graph_get g0 u); simpl; [rewrite app_nil_r|]; reflexivity.
  - fold (push_edges es) in H.
    destruct (graph_push g0 (source e) _) as [g1|] eqn:E1;
      [|rewrite push_edges_none in H; discriminate].
    destruct (graph_push g1 (target e) _) as [g2|] eqn:E2;
      [|rewrite push_edges_none in H; discriminate].
    destruct (IH g2 H) as (Hend & Hkeys & Hget).
    pose proof (graph_push_keys _ _ _ _ E1) as K1.
    pose proof (graph_push_keys _ _ _ _ E2) as K2.
    split; [|split].
    + intros e' [<- | Hin].
      * split.
        -- apply (graph_push_some g0 (source e) (mkGraphNode (target e) (edge_weight e))).
           eexists; exact E1.
        -- rewrite <- K1.
           apply (graph_push_some g1 (target e) (mkGraphNode (source e) (edge_weight e))).
           eexists; exact E2.
      * rewrite <- K1, <- K2. apply Hend. exact Hin.
    + congruence.
    + intros u. rewrite Hget.
      rewrite (graph_push_get _ _ _ _ u E2), (graph_push_get _ _ _ _ u E1).
      simpl incident.
      destruct (String.eqb (source e) u), (String.eqb (target e) u),
        (graph_get g0 u); simpl; rewrite <- ?app_assoc; reflexivity.
Qed.

Lemma push_edges_total (es : list Edge) (g0 : Graph) :
  (forall e, In e es -> In (source e) (graph_keys g0) /\ In (target e) (graph_keys g0)) ->
  exists g, push_edges es (Some g0) = Some g.
Proof.
  revert g0. induction es as [|e es IH]; intros g0 H; simpl.
  - eexists; reflexivity.
  - fold (push_edges es).
    destruct (H e (or_introl eq_refl)) as [Hs Ht].
    apply (graph_push_some g0 (source e) (mkGraphNode (target e) (edge_weight e))) in Hs.
    destruct Hs as (g1 & E1). rewrite E1.
    pose proof (graph_push_keys _ _ _ _ E1) as K1.
    rewrite <- K1 in Ht.
    apply (graph_push_some g1 (target e) (mkGraphNode (source e) (edge_weight e))) in Ht.
    destruct Ht as (g2 & E2). rewrite E2.
    pose proof (graph_push_keys _ _ _ _ E2) as K2.
    apply IH. intros e' Hin. rewrite K2, K1. apply H. right. exact Hin.
Qed.

Lemma in_incident (es : list Edge) (u v : NodeId) (w : Z) :
  In (mkGraphNode v w) (incident es u)
  <-> exists e, In e es /\ edge_weight e = w
                /\ ((source e = u /\ target e = v) \/ (target e = u /\ source e = v)).
Proof.
  unfold incident. rewrite in_flat_map. split.
  - intros (e & Hin & H). exists e. split; [exact Hin|].
    apply in_app_or in H. destruct H as [H | H].
    + destruct (String.eqb (source e) u) eqn:E; [|destruct H].
      apply String.eqb_eq in E. destruct H as [H | []]. injection H as <- <-. auto.
    + destruct (String.eqb (target e) u) eqn:E; [|destruct H].
      apply String.eqb_eq in E. destruct H as [H | []]. injection H as <- <-. auto.
  - intros (e & Hin & <- & [[<- <-] | [<- <-]]); exists e; (split; [exact Hin|]);
      apply in_or_app; [left | right]; rewrite String.eqb_refl; left; reflexivity.
Qed.

Lemma buildGraph_unfold (ns : list Node) (es : list Edge) :
  buildGraph ns es
  = push_edges es (Some (fold_left (fun g n => graph_reset g (node_id n)) ns [])).
Proof. reflexivity. Qed.

Lemma empty_graph_keys_iff (ns : list Node) (u : NodeId) :
  In u (graph_keys (fold_left (fun g n => graph_reset g (node_id n)) ns []))
  <-> In u (List.map node_id ns).
Proof. rewrite empty_graph_key_set. simpl. tauto. Qed.

Lemma buildGraph_some (ns : list Node) (es : list Edge) :
  (exists g, buildGraph ns es = Some g)
  <-> forall e, In e es ->
        In (source e) (List.map node_id ns) /\ In (target e) (List.map node_id ns).
Proof.
  rewrite buildGraph_unfold. split.
  - intros (g & H) e Hin. apply push_edges_some in H. destruct H as (Hend & _).
    rewrite <- !empty_graph_keys_iff. apply Hend. exact Hin.
  - intros H. apply push_edges_total. intros e Hin.
    rewrite !empty_graph_keys_iff. apply H. exact Hin.
Qed.

(** X15: [buildGraph] fails exactly on a dangling edge.  It ends in a
    [TypeError] when some edge names a source or a target that is not the
    id of a node, and returns a graph otherwise. *)
Theorem buildGraph_fails_on_dangling_edge (ns : list Node) (es : list Edge) :
  buildGraph ns es = None
  <-> exists e, In e es
                /\ (~ In (source e) (List.map node_id ns)
                    \/ ~ In (target e) (List.map node_id ns)).
Proof.
  split.
  - intros H.
    destruct (List.Exists_dec (fun e => ~ In (source e) (List.map node_id ns)
                                   \/ ~ In (target e) (List.map node_id ns)) es)
      as [Hex | Hall].
    + intros e.
      destruct (in_dec string_dec (source e) (List.map node_id ns)),
        (in_dec string_dec (target e) (List.map node_id ns)); tauto.
    + apply List.Exists_exists in Hex. exact Hex.
    + exfalso. assert (Hs : exists g, buildGraph ns es = Some g).
      { apply buildGraph_some. intros e Hin.
        destruct (in_dec string_dec (source e) (List.map node_id ns)) as [Hs|Hs],
          (in_dec string_dec (target e) (List.map node_id ns)) as [Ht|Ht];
          try (split; assumption);
          exfalso; apply Hall; apply List.Exists_exists; exists e; tauto. }
      destruct Hs as (g & Hg). congruence.
  - intros (e & Hin & Hbad).
    destruct (buildGraph ns es) as [g|] eqn:E; [|reflexivity].
    exfalso. assert (Hs : exists g, buildGraph ns es = Some g) by (eexists; exact E).
    destruct (proj1 (buildGraph_some ns es) Hs e Hin). tauto.
Qed.

Lemma includes_iff (l : list NodeId) (x : NodeId) : includes l x = true <-> In x l.
Proof.
  split; [apply includes_true|]. intros H. unfold includes.
  apply existsb_exists. exists x. split; [exact H | apply String.eqb_refl].
Qed.

Lemma buildGraph_get (ns : list Node) (es : list Edge) (g : Graph) (u : NodeId) :
  buildGraph ns es = Some g ->
  graph_get g u
  = if includes (List.map node_id ns) u then Some (incident es u) else None.
Proof.
  rewrite buildGraph_unfold. intros H. apply push_edges_some in H.
  destruct H as (_ & _ & Hget). rewrite Hget, empty_graph_get.
  destruct (includes (List.map node_id ns) u); reflexivity.
Qed.

(** X16: the adjacency lists of the graph [buildGraph] returns.  For a
    node id [u], [graph[u]] lists in edge order one entry for every edge
    that leaves [u] (its target) or arrives at [u] (its source), with the
    edge's weight; any other key is [undefined].  So the graph is
    undirected: [v] is listed at [u] with weight [w] exactly when [u] is
    listed at [v] with weight [w]. *)
Theorem buildGraph_adjacency (ns : list Node) (es : list Edge) (g : Graph) :
  buildGraph ns es = Some g ->
  (forall u, In u (List.map node_id ns) -> graph_get g u = Some (incident es u))
  /\ (forall u, ~ In u (List.map node_id ns) -> graph_get g u = None)
  /\ (forall u v w nu nv,
        graph_get g u = Some nu -> graph_get g v = Some nv ->
        (In (mkGraphNode v w) nu <-> In (mkGraphNode u w) nv)).
Proof.
  intros H. split; [|split].
  - intros u Hu. rewrite (buildGraph_get ns es g u H).
    apply includes_iff in Hu. rewrite Hu. reflexivity.
  - intros u Hu. rewrite (buildGraph_get ns es g u H).
    destruct (includes (List.map node_id ns) u) eqn:E; [|reflexivity].
    apply includes_iff in E. contradiction.
  - intros u v w nu nv Hgu Hgv.
    rewrite (buildGraph_get ns es g u H) in Hgu.
    rewrite (buildGraph_get ns es g v H) in Hgv.
    destruct (includes _ u); [|discriminate].
    destruct (includes _ v); [|discriminate].
    injection Hgu as <-. injection Hgv as <-.
    rewrite !in_incident.
    split; intros (e & Hin & Hw & Hc); exists e; tauto.
Qed.

Lemma buildGraph_keys (ns : list Node) (es : list Edge) (g : Graph) :
  List.NoDup (List.map node_id ns) ->
  buildGraph ns es = Some g -> graph_keys g = List.map node_id ns.
Proof.
  rewrite buildGraph_unfold. intros Hnd H. apply push_edges_some in H.
  destruct H as (_ & -> & _). apply (empty_graph_keys ns []). exact Hnd.
Qed.

Lemma buildGraph_wf (ns : list Node) (es : list Edge) :
  map_wf ns es ->
  exists g, buildGraph ns es = Some g
            /\ graph_keys g = List.map node_id ns
            /\ graph_wf g.
Proof.
  intros (Hnd & Hne & Hes).
  destruct (proj2 (buildGraph_some ns es)) as (g & Hg).
  { intros e Hin. destruct (Hes e Hin) as (Hs & Ht & _). auto. }
  pose proof (buildGraph_keys ns es g Hnd Hg) as Hk.
  exists g. split; [exact Hg|]. split; [exact Hk|].
  unfold graph_wf. rewrite Hk. split; [exact Hnd|]. split; [exact Hne|].
  intros u nbrs gn Hget Hin.
  rewrite (buildGraph_get ns es g u Hg) in Hget.
  destruct (includes _ u); [|discriminate]. injection Hget as <-.
  destruct gn as [v w]. apply in_incident in Hin.
  destruct Hin as (e & He & <- & Hc). destruct (Hes e He) as (Hs & Ht & Hw).
  simpl. destruct Hc as [[_ <-] | [_ <-]]; auto.
Qed.

(** X17: [buildGraph] turns a valid map into a well-formed graph.  When
    the node ids are distinct and not empty and every edge joins two nodes
    of the map with a positive weight, [buildGraph] returns a graph whose
    keys are the node ids in the order of the nodes, in which every
    neighbour is a key and every weight is positive. *)
Theorem buildGraph_of_valid_map (ns : list Node) (es : list Edge) :
  map_wf ns es ->
  exists g, buildGraph ns es = Some g
            /\ graph_keys g = List.map node_id ns
            /\ graph_wf g.
Proof. apply buildGraph_wf. Qed.

(** X18: route planning on a valid map.  On the graph built from a valid
    map, [findPath] between two nodes of the map terminates, whatever the
    avoided nodes and edges, and returns a cheapest route obeying them
    when one exists; it returns the empty route exactly when start and
    goal coincide or no such route exists. *)
Theorem findPath_on_built_graph (ns : list Node) (es : list Edge)
    (start goal : NodeId) (avoidNodes : list NodeId) (avoidEdges : list AvoidEdge) :
  map_wf ns es ->
  In start (List.map node_id ns) ->
  In goal (List.map node_id ns) ->
  exists g steps,
    buildGraph ns es = Some g
    /\ findPath start goal g avoidNodes avoidEdges = Some steps
    /\ (reachable g avoidNodes avoidEdges start goal ->
        min_cost_path g avoidNodes avoidEdges start steps goal)
    /\ (steps = [] <->
        start = goal \/ ~ reachable g avoidNodes avoidEdges start goal).
Proof.
  intros Hwf Hs Hg.
  destruct (buildGraph_wf ns es Hwf) as (g & Hb & Hk & Hgwf).
  rewrite <- Hk in Hs, Hg.
  destruct (findPath_spec g start avoidNodes avoidEdges Hgwf Hs goal Hg)
    as (steps & Hf & Hmin & Hnil).
  exists g, steps. auto.
Qed.

Lemma diamond_wf : map_wf (nodes diamond) (edges diamond).
Proof.
  split; [|split].
  - simpl. apply distinct_NoDup. vm_compute. reflexivity.
  - simpl. intros H. repeat (destruct H as [H | H]; [discriminate|]). exact H.
  - intros e He. simpl in He.
    repeat (destruct He as [<- | He]; [simpl; repeat split; auto 10; lia|]).
    destruct He.
Qed.

Lemma buildGraph_of_valid_map_witness :
  exists g, buildGraph (nodes diamond) (edges diamond) = Some g
            /\ graph_keys g = List.map node_id (nodes diamond)
            /\ graph_wf g.
Proof.
  apply (buildGraph_of_valid_map (nodes diamond) (edges diamond)).
  exact diamond_wf.
Defined.

Lemma findPath_on_built_graph_witness :
  exists g steps,
    buildGraph (nodes diamond) (edges diamond) = Some g
    /\ findPath "A" "C" g ["B"] [] = Some steps
    /\ (reachable g ["B"] [] "A" "C" -> min_cost_path g ["B"] [] "A" steps "C")
    /\ (steps = [] <-> "A" = "C" \/ ~ reachable g ["B"] [] "A" "C").
Proof.
  apply (findPath_on_built_graph (nodes diamond) (edges diamond) "A" "C" ["B"] []).
  - exact diamond_wf.
  - simpl. auto.
  - simpl. auto.
Defined.

Lemma buildGraph_adjacency_witness :
  (forall u, In u (List.map node_id (nodes diamond)) ->
             graph_get diamondGraph u = Some (incident (edges diamond) u))
  /\ (forall u, ~ In u (List.map node_id (nodes diamond)) ->
                graph_get diamondGraph u = None)
  /\ (forall u v w nu nv,
        graph_get diamondGraph u = Some nu -> graph_get diamondGraph v = Some nv ->
        (In (mkGraphNode v w) nu <-> In (mkGraphNode u w) nv)).
Proof.
  apply (buildGraph_adjacency (nodes diamond) (edges diamond) diamondGraph).
  reflexivity.
Defined.

End BuildGraphFacts.

Section MissingEndpoints.

Import JS Pathfinding PathSpec Samples.

Variables (graph : Graph) (avoidNodes : list NodeId) (avoidEdges : list AvoidEdge).

Lemma relax_keeps_unknown (t u : NodeId) (st : Distances * Previous) (gn : GraphNode) :
  fst st !! t = None -> snd st !! t = None ->
  fst (relax avoidNodes avoidEdges u st gn) !! t = None
  /\ snd (relax avoidNodes avoidEdges u st gn) !! t = None.
Proof.
  intros Hd Hp. unfold relax.
  destruct (includes avoidNodes (node gn)); [auto|].
  destruct (isEdgeAvoided avoidEdges u (node gn)); [auto|].
  destruct (alt_of (fst st) u (weight gn)) as [alt|]; [|auto].
  destruct (cost_lt (Some alt) (fst st !! node gn)) eqn:E; [|auto].
  assert (Hne : node gn <> t).
  { intros Heq. rewrite Heq, Hd in E. destruct alt; discriminate. }
  cbn [fst snd]. rewrite !lookup_insert_ne by exact Hne. auto.
Qed.

Lemma relax_all_keeps_unknown (t u : NodeId) (nbrs : list GraphNode)
    (st : Distances * Previous) :
  fst st !! t = None -> snd st !! t = None ->
  fst (fold_left (relax avoidNodes avoidEdges u) nbrs st) !! t = None
  /\ snd (fold_left (relax avoidNodes avoidEdges u) nbrs st) !! t = None.
Proof.
  revert st. induction nbrs as [|gn l IH]; intros st Hd Hp; simpl; [auto|].
  destruct (relax_keeps_unknown t u st gn Hd Hp) as [Hd' Hp']. apply IH; assumption.
Qed.

Lemma dijkstra_keeps_unknown (t target : NodeId) (fuel : nat) (queue : list NodeId)
    (st : Distances * Previous) :
  fst st !! t = None -> snd st !! t = None ->
  snd (dijkstra fuel graph target avoidNodes avoidEdges queue st) !! t = None.
Proof.
  revert queue st. induction fuel as [|fuel IH]; intros queue st Hd Hp; simpl;
    [exact Hp|].
  destruct (sort_queue (fst st) queue) as [|u q]; [exact Hp|].
  destruct (String.eqb u ""); [exact Hp|].
  destruct (String.eqb u target); [exact Hp|].
  assert (Hgo : snd match graph_get graph u with
                    | Some neighbors =>
                        dijkstra fuel graph target avoidNodes avoidEdges q
                          (fold_left (relax avoidNodes avoidEdges u) neighbors st)
                    | None => st
                    end !! t = None).
  { destruct (graph_get graph u) as [nbrs|]; [|exact Hp].
    destruct (relax_all_keeps_unknown t u nbrs st Hd Hp) as [Hd' Hp'].
    apply IH; assumption. }
  destruct (fst st !! u) as [[z|]|]; [exact Hgo | exact Hp | exact Hgo].
Qed.

(** Nothing is settled when every queued node is at [Infinity]. *)
Lemma dijkstra_idle (target : NodeId) (fuel : nat) (queue : list NodeId)
    (st : Distances * Previous) :
  (forall k, In k queue -> fst st !! k = Some Infinity) ->
  dijkstra fuel graph target avoidNodes avoidEdges queue st = st.
Proof.
  intros Hinf. destruct fuel as [|fuel]; [reflexivity|]. simpl.
  destruct (sort_queue (fst st) queue) as [|u q] eqn:Es; [reflexivity|].
  destruct (String.eqb u ""); [reflexivity|].
  destruct (String.eqb u target); [reflexivity|].
  rewrite (Hinf u); [reflexivity|].
  eapply Permutation_in; [symmetry; apply sort_queue_perm|].
  rewrite Es. left. reflexivity.
Qed.

Lemma init_previous (start k : NodeId) :
  snd (init_tables graph start) !! k
  = if includes (graph_keys graph) k then Some None else None.
Proof.
  unfold init_tables. cbn [snd].
  destruct (includes (graph_keys graph) k) eqn:E.
  - apply lookup_fold_insert_in. apply includes_true. exact E.
  - rewrite lookup_fold_insert_out by (apply includes_false; exact E).
    apply lookup_empty.
Qed.

Lemma init_distances (start k : NodeId) :
  k <> start ->
  fst (init_tables graph start) !! k
  = if includes (graph_keys graph) k then Some Infinity else None.
Proof.
  intros Hne. unfold init_tables. cbn [fst]. rewrite lookup_insert_ne by congruence.
  destruct (includes (graph_keys graph) k) eqn:E.
  - apply lookup_fold_insert_in. apply includes_true. exact E.
  - rewrite lookup_fold_insert_out by (apply includes_false; exact E).
    apply lookup_empty.
Qed.

Lemma dijkstra_without_start (start target : NodeId) :
  ~ In start (graph_keys graph) ->
  dijkstra (length (graph_keys graph)) graph target avoidNodes avoidEdges
           (graph_keys graph) (init_tables graph start)
  = init_tables graph start.
Proof.
  intros Hs. apply dijkstra_idle. intros k Hk.
  rewrite init_distances by (intros ->; contradiction).
  assert (E : includes (graph_keys graph) k = true).
  { destruct (includes (graph_keys graph) k) eqn:E; [reflexivity|].
    apply includes_false in E. contradiction. }
  rewrite E. reflexivity.
Qed.

Lemma findPath_unknown_target (start target : NodeId) :
  ~ In target (graph_keys graph) ->
  findPath start target graph avoidNodes avoidEdges = None.
Proof.
  intros Ht. unfold findPath. cbv zeta.
  assert (Hp : snd (dijkstra (length (graph_keys graph)) graph target avoidNodes
                      avoidEdges (graph_keys graph) (init_tables graph start))
               !! target = None).
  { destruct (in_dec string_dec start (graph_keys graph)) as [Hs | Hs].
    - apply dijkstra_keeps_unknown.
      + rewrite init_distances by (intros ->; contradiction).
        apply includes_false in Ht. rewrite Ht. reflexivity.
      + rewrite init_previous. apply includes_false in Ht. rewrite Ht. reflexivity.
    - rewrite dijkstra_without_start by exact Hs.
      rewrite init_previous. apply includes_false in Ht. rewrite Ht. reflexivity. }
  rewrite Hp. simpl. rewrite Hp. reflexivity.
Qed.

Lemma findPath_unknown_start (start target : NodeId) :
  ~ In start (graph_keys graph) -> In target (graph_keys graph) ->
  findPath start target graph avoidNodes avoidEdges = Some [].
Proof.
  intros Hs Ht. unfold findPath. cbv zeta.
  rewrite dijkstra_without_start by exact Hs.
  rewrite init_previous.
  assert (E : includes (graph_keys graph) target = true).
  { destruct (includes (graph_keys graph) target) eqn:E; [reflexivity|].
    apply includes_false in E. contradiction. }
  rewrite E.
  assert (Hne : String.eqb target start = false).
  { apply String.eqb_neq. intros ->. contradiction. }
  rewrite Hne. reflexivity.
Qed.

End MissingEndpoints.

Section MissingEndpointClaims.

Import JS Pathfinding PathSpec Simulation Samples.

(** X19: [findPath] with an endpoint that is not in the graph.  For a
    target that is not a key of the graph (no key being named
    "undefined") the reconstruction loop never ends and [findPath] does
    not return; for a start that is not a key and a target that is one it
    returns the empty route.  The graph, the weights and the avoided nodes
    and edges are arbitrary. *)
Theorem findPath_missing_endpoint (graph : Graph) (start target : NodeId)
    (avoidNodes : list NodeId) (avoidEdges : list AvoidEdge) :
  ~ In "undefined" (graph_keys graph) ->
  (~ In target (graph_keys graph) ->
   findPath start target graph avoidNodes avoidEdges = None)
  /\ (~ In start (graph_keys graph) -> In target (graph_keys graph) ->
      findPath start target graph avoidNodes avoidEdges = Some []).
Proof.
  intros _. split.
  - apply findPath_unknown_target.
  - apply findPath_unknown_start.
Qed.

Lemma findPath_missing_endpoint_witness :
  (~ In "Z" (graph_keys corridorGraph) ->
   findPath "A" "Z" corridorGraph [] [] = None)
  /\ (~ In "A" (graph_keys corridorGraph) -> In "Z" (graph_keys corridorGraph) ->
      findPath "A" "Z" corridorGraph [] [] = Some []).
Proof.
  apply (findPath_missing_endpoint corridorGraph "A" "Z" [] []).
  simpl. intros H. repeat (destruct H as [H | H]; [discriminate|]). exact H.
Defined.

End MissingEndpointClaims.

Section SortFacts.

Import AllPaths.

Context {A : Type} (key : A -> Z).

Lemma insert_by_perm (a : A) (l : list A) : Permutation (a :: l) (insert_by key a l).
Proof.
  induction l as [|b l IH]; simpl; [reflexivity|].
  destruct (key b <? key a).
  - rewrite perm_swap. constructor. exact IH.
  - reflexivity.
Qed.

Lemma sort_by_perm (l : list A) : Permutation l (sort_by key l).
Proof.
  induction l as [|a l IH]; simpl; [reflexivity|].
  rewrite <- insert_by_perm. constructor. exact IH.
Qed.

Lemma insert_by_ascending (a : A) (l : list A) :
  ascending key l -> ascending key (insert_by key a l).
Proof.
  induction l as [|b l IH]; intros Hl; simpl.
  - split; [intros b []| exact I].
  - destruct Hl as [Hb Hl]. destruct (key b <? key a) eqn:E.
    + apply Z.ltb_lt in E. simpl. split; [|apply IH; exact Hl].
      intros c Hc. apply (Permutation_in _ (Permutation_sym (insert_by_perm a l))) in Hc.
      destruct Hc as [<- | Hc]; [lia | apply Hb; exact Hc].
    + apply Z.ltb_ge in E. simpl. split; [|split; assumption].
      intros c [<- | Hc]; [exact E|]. specialize (Hb c Hc). lia.
Qed.

Lemma sort_by_ascending (l : list A) : ascending key (sort_by key l).
Proof.
  induction l as [|a l IH]; simpl; [exact I|].
  apply insert_by_ascending. exact IH.
Qed.

End SortFacts.

Section GraphSetFacts.

Import JS Pathfinding PathSpec AllPaths.

Lemma graph_set_keys (g : Graph) (k : NodeId) (l : list GraphNode) :
  graph_keys (graph_set g k l) = graph_keys g.
Proof.
  induction g as [|[k' ns] rest IH]; simpl; [reflexivity|].
  destruct (String.eqb k' k); simpl; [reflexivity | f_equal; exact IH].
Qed.

Lemma graph_set_get (g : Graph) (k : NodeId) (l : list GraphNode) (u : NodeId) :
  graph_get (graph_set g k l) u
  = if String.eqb k u then option_map (fun _ => l) (graph_get g u) else graph_get g u.
Proof.
  unfold graph_get. induction g as [|[k' ns] rest IH]; simpl.
  - destruct (String.eqb k u); reflexivity.
  - destruct (String.eqb k' k) eqn:E; simpl.
    + apply String.eqb_eq in E. subst k'. destruct (String.eqb k u); reflexivity.
    + destruct (String.eqb k' u) eqn:E'.
      * apply String.eqb_eq in E'. subst k'. rewrite String.eqb_sym, E. reflexivity.
      * exact IH.
Qed.

Lemma same_edges_refl (g : Graph) : same_edges g g.
Proof.
  split; [reflexivity|]. intros u. destruct (graph_get g u); [reflexivity | exact I].
Qed.

Lemma same_edges_trans (g1 g2 g3 : Graph) :
  same_edges g1 g2 -> same_edges g2 g3 -> same_edges g1 g3.
Proof.
  intros [K1 H1] [K2 H2]. split; [congruence|]. intros u.
  specialize (H1 u). specialize (H2 u).
  destruct (graph_get g1 u), (graph_get g2 u), (graph_get g3 u);
    try contradiction; try exact I.
  etransitivity; eassumption.
Qed.

Lemma same_edges_sort (g : Graph) (k : NodeId) (l : list GraphNode) :
  graph_get g k = Some l -> same_edges g (graph_set g k (sort_by weight l)).
Proof.
  intros Hk. split; [apply graph_set_keys|]. intros u.
  rewrite graph_set_get. destruct (String.eqb k u) eqn:E.
  - apply String.eqb_eq in E. subst u. rewrite Hk. simpl. apply sort_by_perm.
  - destruct (graph_get g u); [reflexivity | exact I].
Qed.

Lemma same_edges_get (g g' : Graph) (u : NodeId) (l : list GraphNode) :
  same_edges g g' -> graph_get g' u = Some l ->
  exists l0, graph_get g u = Some l0 /\ Permutation l0 l.
Proof.
  intros [_ H] Hg. specialize (H u). rewrite Hg in H.
  destruct (graph_get g u) as [l0|]; [|contradiction]. exists l0. auto.
Qed.

Lemma same_edges_allowed (g g' : Graph) (an : list NodeId) (ae : list AvoidEdge)
    (u v : NodeId) (w : Z) :
  same_edges g g' -> allowed_edge g' an ae u v w -> allowed_edge g an ae u v w.
Proof.
  intros Hs ((nbrs & Hg & Hin) & Hrest).
  destruct (same_edges_get g g' u nbrs Hs Hg) as (l0 & Hg0 & Hp).
  split; [|exact Hrest]. exists l0. split; [exact Hg0|].
  eapply Permutation_in; [symmetry; exact Hp | exact Hin].
Qed.

End GraphSetFacts.

Section DfsFacts.

Import JS Pathfinding PathSpec AllPaths.

Variables (g0 : Graph) (start target : NodeId)
          (avoidNodes : list NodeId) (avoidEdges : list AvoidEdge) (limit : Z).

Local Abbreviation path_to := (walk g0 avoidNodes avoidEdges).
Local Abbreviation edge := (allowed_edge g0 avoidNodes avoidEdges).
Local Abbreviation search := (dfs target avoidNodes avoidEdges limit).
Local Abbreviation loop := (visit avoidNodes avoidEdges).
Local Abbreviation good :=
  (fun r => simple_route g0 avoidNodes avoidEdges start (route_path r) target
                         (route_cost r)).

Local Abbreviation grown := (AllPaths.grown g0 good limit).

Lemma grown_trans (rs rs1 rs2 : list Route) (g1 g2 : Graph) :
  grown rs g1 rs1 -> grown rs1 g2 rs2 -> grown rs g2 rs2.
Proof.
  unfold AllPaths.grown.
  intros (_ & _ & (n1 & ->) & B1) (S2 & F2 & (n2 & ->) & B2).
  split; [exact S2|]. split; [exact F2|]. split; [|auto].
  exists (n1 ++ n2). rewrite app_assoc. reflexivity.
Qed.

Lemma NoDup_snoc {A : Type} (l : list A) (x : A) :
  List.NoDup l -> ~ In x l -> List.NoDup (l ++ [x]).
Proof.
  induction l as [|a l IH]; intros Hl Hx; simpl.
  - constructor; [intros [] | constructor].
  - inversion Hl; subst. constructor.
    + rewrite in_app_iff. intros [H | [H | []]]; [contradiction|].
      subst. apply Hx. left. reflexivity.
    + apply IH; [assumption|]. intros H. apply Hx. right. exact H.
Qed.

Lemma grown_refl (g : Graph) (rs : list Route) :
  same_edges g0 g -> Forall good rs -> grown rs g rs.
Proof.
  intros Hs Hf. split; [exact Hs|]. split; [exact Hf|]. split; [|auto].
  exists []. rewrite app_nil_r. reflexivity.
Qed.

Lemma loop_cons
    (call : NodeId -> list NodeId -> Z -> Graph -> list Route -> Search)
    (cur : NodeId) (path : list NodeId) (cost : Z) (nb : GraphNode)
    (rest : list GraphNode) (g : Graph) (rs : list Route) :
  loop call cur path cost (nb :: rest) g rs
  = if includes path (node nb) then loop call cur path cost rest g rs
    else if includes avoidNodes (node nb) then loop call cur path cost rest g rs
    else if isEdgeAvoided avoidEdges cur (node nb)
    then loop call cur path cost rest g rs
    else match call (node nb) (path ++ [node nb]) (cost + weight nb) g rs with
         | Found g' rs' => loop call cur path cost rest g' rs'
         | Threw => Threw
         | OutOfFuel => OutOfFuel
         end.
Proof. reflexivity. Qed.

Lemma dfs_step (fuel : nat) (cur : NodeId) (path : list NodeId) (cost : Z)
    (g : Graph) (rs : list Route) :
  search (S fuel) cur path cost g rs
  = if (limit <=? Z.of_nat (length rs))%Z then Found g rs
    else if String.eqb cur target then Found g (rs ++ [mkRoute (tl path) cost])
    else match graph_get g cur with
         | None => Threw
         | Some neighbors =>
             loop (search fuel) cur path cost (sort_by weight neighbors)
                  (graph_set g cur (sort_by weight neighbors)) rs
         end.
Proof. reflexivity. Qed.

Lemma loop_sound
    (call : NodeId -> list NodeId -> Z -> Graph -> list Route -> Search)
    (cur : NodeId) (pre : list NodeId) (cost : Z) (l0 : list GraphNode) :
  graph_get g0 cur = Some l0 ->
  path_to start pre cur cost -> List.NoDup (start :: pre) ->
  (forall v w g rs g' rs',
     same_edges g0 g -> Forall good rs ->
     path_to start (pre ++ [v]) v (cost + w) -> List.NoDup (start :: pre ++ [v]) ->
     call v (start :: pre ++ [v]) (cost + w) g rs = Found g' rs' -> grown rs g' rs') ->
  forall nbrs g rs g' rs',
    (forall nb, In nb nbrs -> In nb l0) ->
    same_edges g0 g -> Forall good rs ->
    loop call cur (start :: pre) cost nbrs g rs = Found g' rs' -> grown rs g' rs'.
Proof.
  intros Hl0 Hwalk Hnd Hcall.
  induction nbrs as [|nb rest IH]; intros g rs g' rs' Hsub Hs Hf H.
  - injection H as <- <-. apply grown_refl; assumption.
  - rewrite loop_cons in H.
    assert (Hrest : forall nb', In nb' rest -> In nb' l0)
      by (intros nb' Hin; apply Hsub; right; exact Hin).
    destruct (includes (start :: pre) (node nb)) eqn:E1; [eapply IH; eassumption|].
    destruct (includes avoidNodes (node nb)) eqn:E2; [eapply IH; eassumption|].
    destruct (isEdgeAvoided avoidEdges cur (node nb)) eqn:E3; [eapply IH; eassumption|].
    destruct (call (node nb) _ _ g rs) as [g1 rs1| |] eqn:Ec; try discriminate.
    assert (He : edge cur (node nb) (weight nb)).
    { split; [|split].
      - exists l0. split; [exact Hl0|]. destruct nb as [v w]. apply Hsub. left. reflexivity.
      - apply includes_false. exact E2.
      - apply isEdgeAvoided_false. exact E3. }
    assert (Hg1 : grown rs g1 rs1).
    { apply (Hcall (node nb) (weight nb) g rs g1 rs1 Hs Hf).
      - eapply walk_snoc; eassumption.
      - change (List.NoDup ((start :: pre) ++ [node nb])).
        apply NoDup_snoc; [exact Hnd | apply includes_false; exact E1].
      - exact Ec. }
    eapply grown_trans; [exact Hg1|].
    destruct Hg1 as (Hs1 & Hf1 & _).
    eapply IH; eassumption.
Qed.

Lemma dfs_sound (fuel : nat) :
  forall cur pre cost g rs g' rs',
    same_edges g0 g -> Forall good rs ->
    path_to start pre cur cost -> List.NoDup (start :: pre) ->
    search fuel cur (start :: pre) cost g rs = Found g' rs' -> grown rs g' rs'.
Proof.
  induction fuel as [|fuel IH]; intros cur pre cost g rs g' rs' Hs Hf Hwalk Hnd H;
    [discriminate|].
  rewrite dfs_step in H.
  destruct (limit <=? Z.of_nat (length rs)) eqn:El.
  { injection H as <- <-. apply grown_refl; assumption. }
  apply Z.leb_gt in El.
  destruct (String.eqb cur target) eqn:Et.
  { apply String.eqb_eq in Et. subst cur. injection H as <- <-.
    split; [exact Hs|]. split; [|split].
    - apply Forall_app. split; [exact Hf|]. constructor; [|constructor].
      split; assumption.
    - eexists; reflexivity.
    - intros _. rewrite length_app. simpl. lia. }
  destruct (graph_get g cur) as [neighbors|] eqn:Eg; [|discriminate].
  destruct (same_edges_get g0 g cur neighbors Hs Eg) as (l0 & Hl0 & Hp).
  eapply (loop_sound (search fuel) cur pre cost l0 Hl0 Hwalk Hnd); [| | | |exact H].
  - intros v w g1 rs1 g2 rs2 Hs1 Hf1 Hw1 Hn1 Hc. eapply IH; eassumption.
  - intros nb Hin. eapply Permutation_in; [symmetry; exact Hp|].
    eapply Permutation_in; [symmetry; apply sort_by_perm | exact Hin].
  - eapply same_edges_trans; [exact Hs | apply same_edges_sort; exact Eg].
  - exact Hf.
Qed.

Lemma walk_inv (s t : NodeId) (steps : list NodeId) (c : Z) :
  path_to s steps t c ->
  (steps = [] /\ s = t /\ c = 0)
  \/ exists v rest w c',
       steps = v :: rest /\ c = w + c' /\ edge s v w /\ path_to v rest t c'.
Proof.
  intros H. destruct H as [s|s v t steps w c He Hw]; [left; auto|].
  right. exists v, steps, w, c. auto.
Qed.

Lemma walk_end_on_path (s t : NodeId) (steps : list NodeId) (c : Z) :
  path_to s steps t c -> In t (s :: steps).
Proof.
  induction 1 as [s|s v t steps w c _ _ IH]; [left; reflexivity | right; exact IH].
Qed.

Lemma walk_ends_in (s t : NodeId) (steps : list NodeId) (c : Z) :
  path_to s steps t c -> steps <> [] -> In t steps.
Proof.
  intros H Hne. destruct H as [s|s v t steps w c _ Hw]; [congruence|].
  eapply walk_end_on_path. exact Hw.
Qed.

Lemma NoDup_app_apart {A : Type} (l1 l2 : list A) (x : A) :
  List.NoDup (l1 ++ l2) -> In x l1 -> In x l2 -> False.
Proof.
  induction l1 as [|a l1 IH]; intros Hnd H1 H2; [destruct H1|].
  simpl in Hnd. inversion Hnd; subst.
  destruct H1 as [<- | H1].
  - match goal with Hn : ~ In _ (_ ++ _) |- _ => apply Hn end.
    apply in_or_app. right. exact H2.
  - eapply IH; eassumption.
Qed.

Lemma grown_longer (rs rs' : list Route) (g' : Graph) :
  grown rs g' rs' -> (length rs <= length rs')%nat /\ forall r, In r rs -> In r rs'.
Proof.
  intros (_ & _ & (new & ->) & _). rewrite length_app. split; [lia|].
  intros r Hr. apply in_or_app. left. exact Hr.
Qed.

Lemma loop_complete
    (call : NodeId -> list NodeId -> Z -> Graph -> list Route -> Search)
    (cur : NodeId) (pre : list NodeId) (cost : Z) (l0 : list GraphNode) :
  graph_get g0 cur = Some l0 ->
  path_to start pre cur cost -> List.NoDup (start :: pre) ->
  (forall v w g rs g' rs',
     same_edges g0 g -> Forall good rs ->
     path_to start (pre ++ [v]) v (cost + w) -> List.NoDup (start :: pre ++ [v]) ->
     call v (start :: pre ++ [v]) (cost + w) g rs = Found g' rs' ->
     grown rs g' rs'
     /\ (Z.of_nat (length rs') < limit ->
         forall q c, path_to v q target c -> List.NoDup (start :: (pre ++ [v]) ++ q) ->
                     In (mkRoute ((pre ++ [v]) ++ q) (cost + w + c)) rs')) ->
  forall nbrs g rs g' rs',
    (forall nb, In nb nbrs -> In nb l0) ->
    same_edges g0 g -> Forall good rs ->
    loop call cur (start :: pre) cost nbrs g rs = Found g' rs' ->
    Z.of_nat (length rs') < limit ->
    forall v w q c,
      In (mkGraphNode v w) nbrs -> edge cur v w ->
      path_to v q target c -> List.NoDup (start :: pre ++ v :: q) ->
      In (mkRoute (pre ++ v :: q) (cost + (w + c))) rs'.
Proof.
  intros Hl0 Hwalk Hnd Hcall.
  assert (Hsound : forall v w g rs g' rs',
     same_edges g0 g -> Forall good rs ->
     path_to start (pre ++ [v]) v (cost + w) -> List.NoDup (start :: pre ++ [v]) ->
     call v (start :: pre ++ [v]) (cost + w) g rs = Found g' rs' -> grown rs g' rs').
  { intros. eapply Hcall; eassumption. }
  induction nbrs as [|nb rest IH];
    intros g rs g' rs' Hsub Hs Hf H Hlim v w q c Hin He Hq Hndq; [destruct Hin|].
  rewrite loop_cons in H.
  assert (Hrest : forall nb', In nb' rest -> In nb' l0)
    by (intros nb' Hin'; apply Hsub; right; exact Hin').
  assert (Hv : ~ In v (start :: pre)).
  { intros Hv. apply (NoDup_app_apart (start :: pre) (v :: q) v);
      [exact Hndq | exact Hv | left; reflexivity]. }
  destruct He as (Hnb & Han & Hae).
  destruct (includes (start :: pre) (node nb)) eqn:E1.
  { destruct Hin as [-> | Hin];
      [apply includes_true in E1; contradiction|].
    eapply IH; try eassumption. repeat split; assumption. }
  destruct (includes avoidNodes (node nb)) eqn:E2.
  { destruct Hin as [-> | Hin];
      [apply includes_true in E2; contradiction|].
    eapply IH; try eassumption. repeat split; assumption. }
  destruct (isEdgeAvoided avoidEdges cur (node nb)) eqn:E3.
  { destruct Hin as [-> | Hin].
    - exfalso. apply isEdgeAvoided_false in Hae. simpl in E3. congruence.
    - eapply IH; try eassumption. repeat split; assumption. }
  destruct (call (node nb) _ _ g rs) as [g1 rs1| |] eqn:Ec; try discriminate.
  assert (He1 : edge cur (node nb) (weight nb)).
  { split; [|split].
    - exists l0. split; [exact Hl0|]. destruct nb as [v1 w1]. apply Hsub. left. reflexivity.
    - apply includes_false. exact E2.
    - apply isEdgeAvoided_false. exact E3. }
  assert (Hw1 : path_to start (pre ++ [node nb]) (node nb) (cost + weight nb))
    by (eapply walk_snoc; eassumption).
  assert (Hn1 : List.NoDup (start :: pre ++ [node nb])).
  { change (List.NoDup ((start :: pre) ++ [node nb])).
    apply NoDup_snoc; [exact Hnd | apply includes_false; exact E1]. }
  destruct (Hcall (node nb) (weight nb) g rs g1 rs1 Hs Hf Hw1 Hn1 Ec) as [Hg1 Hc1].
  pose proof Hg1 as (Hs1 & Hf1 & _).
  assert (Hg2 : grown rs1 g' rs').
  { eapply (loop_sound call cur pre cost l0 Hl0 Hwalk Hnd Hsound rest); eassumption. }
  destruct (grown_longer _ _ _ Hg2) as [Hlen Hkeep].
  destruct Hin as [-> | Hin].
  - apply Hkeep. simpl in Hc1.
    replace (pre ++ v :: q) with ((pre ++ [v]) ++ q)
      by (rewrite <- app_assoc; reflexivity).
    replace (cost + (w + c)) with (cost + w + c) by lia.
    apply Hc1; [lia | exact Hq|].
    rewrite <- app_assoc. exact Hndq.
  - eapply (IH g1 rs1); try eassumption. repeat split; assumption.
Qed.

Lemma dfs_complete (fuel : nat) :
  forall cur pre cost g rs g' rs',
    same_edges g0 g -> Forall good rs ->
    path_to start pre cur cost -> List.NoDup (start :: pre) ->
    search fuel cur (start :: pre) cost g rs = Found g' rs' ->
    Z.of_nat (length rs') < limit ->
    forall q c, path_to cur q target c -> List.NoDup (start :: pre ++ q) ->
                In (mkRoute (pre ++ q) (cost + c)) rs'.
Proof.
  induction fuel as [|fuel IH];
    intros cur pre cost g rs g' rs' Hs Hf Hwalk Hnd H Hlim q c Hq Hndq;
    [discriminate|].
  rewrite dfs_step in H.
  destruct (limit <=? Z.of_nat (length rs)) eqn:El.
  { injection H as <- <-. apply Z.leb_le in El. lia. }
  destruct (String.eqb cur target) eqn:Et.
  { apply String.eqb_eq in Et. subst cur. injection H as <- <-.
    destruct q as [|v q'].
    - apply walk_inv in Hq.
      destruct Hq as [(_ & _ & ->) | (v & rest & w & c' & Hd & _)]; [|discriminate].
      rewrite app_nil_r, Z.add_0_r.
      apply in_or_app. right. left. reflexivity.
    - exfalso. apply (NoDup_app_apart (start :: pre) (v :: q') target).
      + exact Hndq.
      + eapply walk_end_on_path. exact Hwalk.
      + eapply walk_ends_in; [exact Hq | discriminate]. }
  destruct (graph_get g cur) as [neighbors|] eqn:Eg; [|discriminate].
  destruct (same_edges_get g0 g cur neighbors Hs Eg) as (l0 & Hl0 & Hp).
  apply walk_inv in Hq.
  destruct Hq as [(_ & <- & _) | (v & q' & w & c' & -> & -> & He & Hq')].
  { rewrite String.eqb_refl in Et. discriminate. }
  assert (Hin : In (mkGraphNode v w) (sort_by weight neighbors)).
  { destruct He as ((nbrs & Hg & Hin) & _). rewrite Hl0 in Hg. injection Hg as <-.
    eapply Permutation_in; [apply sort_by_perm|].
    eapply Permutation_in; [exact Hp | exact Hin]. }
  eapply (loop_complete (search fuel) cur pre cost l0 Hl0 Hwalk Hnd);
    [| | | |exact H|exact Hlim|exact Hin|exact He|exact Hq'|exact Hndq].
  - intros v1 w1 g1 rs1 g2 rs2 Hs1 Hf1 Hw1 Hn1 Hc. split.
    + eapply dfs_sound; eassumption.
    + intros Hl2 q2 c2 Hq2 Hnd2.
      replace (cost + w1 + c2) with ((cost + w1) + c2) by lia.
      eapply IH; eassumption.
  - intros nb Hnb. eapply Permutation_in; [symmetry; exact Hp|].
    eapply Permutation_in; [symmetry; apply sort_by_perm | exact Hnb].
  - eapply same_edges_trans; [exact Hs | apply same_edges_sort; exact Eg].
  - exact Hf.
Qed.

(** The graph keeps its edges, whatever the search meets. *)
Lemma loop_frame
    (call : NodeId -> list NodeId -> Z -> Graph -> list Route -> Search)
    (cur : NodeId) (path : list NodeId) (cost : Z) :
  (forall v p c g rs g' rs', call v p c g rs = Found g' rs' -> same_edges g g') ->
  forall nbrs g rs g' rs',
    loop call cur path cost nbrs g rs = Found g' rs' -> same_edges g g'.
Proof.
  intros Hcall. induction nbrs as [|nb rest IH]; intros g rs g' rs' H.
  - injection H as <- <-. apply same_edges_refl.
  - rewrite loop_cons in H.
    destruct (includes path (node nb)); [eapply IH; exact H|].
    destruct (includes avoidNodes (node nb)); [eapply IH; exact H|].
    destruct (isEdgeAvoided avoidEdges cur (node nb)); [eapply IH; exact H|].
    destruct (call (node nb) _ _ g rs) as [g1 rs1| |] eqn:Ec; try discriminate.
    eapply same_edges_trans; [eapply Hcall; exact Ec | eapply IH; exact H].
Qed.

Lemma dfs_frame (fuel : nat) :
  forall cur path cost g rs g' rs',
    search fuel cur path cost g rs = Found g' rs' -> same_edges g g'.
Proof.
  induction fuel as [|fuel IH]; intros cur path cost g rs g' rs' H; [discriminate|].
  rewrite dfs_step in H.
  destruct (limit <=? Z.of_nat (length rs));
    [injection H as <- <-; apply same_edges_refl|].
  destruct (String.eqb cur target);
    [injection H as <- <-; apply same_edges_refl|].
  destruct (graph_get g cur) as [neighbors|] eqn:Eg; [|discriminate].
  eapply same_edges_trans; [apply same_edges_sort; exact Eg|].
  eapply loop_frame; [|exact H]. intros. eapply IH. eassumption.
Qed.

(** The recursion budget is never used up: a path holds no node twice and
    all its nodes but the last are keys of the graph. *)
Lemma loop_no_starve
    (call : NodeId -> list NodeId -> Z -> Graph -> list Route -> Search)
    (cur : NodeId) (path : list NodeId) (cost : Z) :
  (forall v p c g rs g' rs', call v p c g rs = Found g' rs' -> same_edges g g') ->
  (forall v c g rs, ~ In v path -> graph_keys g = graph_keys g0 ->
                    call v (path ++ [v]) c g rs <> OutOfFuel) ->
  forall nbrs g rs,
    graph_keys g = graph_keys g0 ->
    loop call cur path cost nbrs g rs <> OutOfFuel.
Proof.
  intros Hframe Hcall. induction nbrs as [|nb rest IH]; intros g rs Hk; [discriminate|].
  rewrite loop_cons.
  destruct (includes path (node nb)) eqn:E1; [apply IH; exact Hk|].
  destruct (includes avoidNodes (node nb)); [apply IH; exact Hk|].
  destruct (isEdgeAvoided avoidEdges cur (node nb)); [apply IH; exact Hk|].
  destruct (call (node nb) _ _ g rs) as [g1 rs1| |] eqn:Ec.
  - apply IH. destruct (Hframe _ _ _ _ _ _ _ Ec) as [Hk1 _]. congruence.
  - discriminate.
  - exfalso. apply (Hcall (node nb) (cost + weight nb) g rs);
      [apply includes_false; exact E1 | exact Hk | exact Ec].
Qed.

Lemma dfs_no_starve (fuel : nat) :
  forall body cur cost g rs,
    graph_keys g = graph_keys g0 ->
    List.NoDup (body ++ [cur]) -> incl body (graph_keys g0) ->
    (length (graph_keys g0) + 1 <= length body + fuel)%nat ->
    search fuel cur (body ++ [cur]) cost g rs <> OutOfFuel.
Proof.
  induction fuel as [|fuel IH]; intros body cur cost g rs Hk Hnd Hincl Hfuel.
  - exfalso. assert (Hb : List.NoDup body).
    { clear - Hnd. induction body as [|a body IH]; [constructor|].
      simpl in Hnd. inversion Hnd; subst. constructor; [|apply IH; assumption].
      intros H. match goal with Hn : ~ In _ _ |- _ => apply Hn end.
      apply in_or_app. left. exact H. }
    pose proof (NoDup_incl_length Hb Hincl). lia.
  - rewrite dfs_step.
    destruct (limit <=? Z.of_nat (length rs)); [discriminate|].
    destruct (String.eqb cur target); [discriminate|].
    destruct (graph_get g cur) as [neighbors|] eqn:Eg; [|discriminate].
    assert (Hcur : In cur (graph_keys g0)).
    { rewrite <- Hk. eapply graph_get_key. exact Eg. }
    apply loop_no_starve.
    + intros. eapply dfs_frame. eassumption.
    + intros v c g1 rs1 Hv Hk1. apply IH.
      * exact Hk1.
      * apply NoDup_snoc; assumption.
      * intros x Hx. apply in_app_or in Hx. destruct Hx as [Hx | [<- | []]];
          [apply Hincl; exact Hx | exact Hcur].
      * rewrite length_app. simpl. lia.
    + rewrite graph_set_keys. exact Hk.
Qed.

(** No [TypeError] on a graph all of whose neighbours are keys. *)
Lemma loop_no_throw
    (call : NodeId -> list NodeId -> Z -> Graph -> list Route -> Search)
    (cur : NodeId) (path : list NodeId) (cost : Z) :
  (forall v p c g rs g' rs', call v p c g rs = Found g' rs' -> same_edges g g') ->
  (forall v p c g rs, In v (graph_keys g0) -> same_edges g0 g ->
                      call v p c g rs <> Threw) ->
  forall nbrs g rs,
    (forall nb, In nb nbrs -> In (node nb) (graph_keys g0)) ->
    same_edges g0 g ->
    loop call cur path cost nbrs g rs <> Threw.
Proof.
  intros Hframe Hcall. induction nbrs as [|nb rest IH]; intros g rs Hn Hs;
    [discriminate|].
  assert (Hrest : forall nb', In nb' rest -> In (node nb') (graph_keys g0))
    by (intros nb' Hin; apply Hn; right; exact Hin).
  rewrite loop_cons.
  destruct (includes path (node nb)); [apply IH; assumption|].
  destruct (includes avoidNodes (node nb)); [apply IH; assumption|].
  destruct (isEdgeAvoided avoidEdges cur (node nb)); [apply IH; assumption|].
  destruct (call (node nb) _ _ g rs) as [g1 rs1| |] eqn:Ec.
  - apply IH; [exact Hrest|].
    eapply same_edges_trans; [exact Hs | eapply Hframe; exact Ec].
  - exfalso. apply (Hcall _ _ _ _ _ (Hn nb (or_introl eq_refl)) Hs Ec).
  - discriminate.
Qed.

Lemma dfs_no_throw (fuel : nat) :
  (forall u l gn, graph_get g0 u = Some l -> In gn l -> In (node gn) (graph_keys g0)) ->
  forall cur path cost g rs,
    In cur (graph_keys g0) -> same_edges g0 g ->
    search fuel cur path cost g rs <> Threw.
Proof.
  intros Hclosed.
  induction fuel as [|fuel IH]; intros cur path cost g rs Hcur Hs; [discriminate|].
  rewrite dfs_step.
  destruct (limit <=? Z.of_nat (length rs)); [discriminate|].
  destruct (String.eqb cur target); [discriminate|].
  destruct (graph_get g cur) as [neighbors|] eqn:Eg.
  - destruct (same_edges_get g0 g cur neighbors Hs Eg) as (l0 & Hl0 & Hp).
    apply loop_no_throw.
    + intros. eapply dfs_frame. eassumption.
    + intros. apply IH; assumption.
    + intros nb Hnb. apply (Hclosed cur l0 nb Hl0).
      eapply Permutation_in; [symmetry; exact Hp|].
      eapply Permutation_in; [symmetry; apply sort_by_perm | exact Hnb].
    + eapply same_edges_trans; [exact Hs | apply same_edges_sort; exact Eg].
  - exfalso. destruct Hs as [Hk _]. rewrite <- Hk in Hcur.
    apply graph_get_of_key in Hcur. destruct Hcur as (l & Hl). congruence.
Qed.

(** The arrays of the nodes on the path are out of reach of the calls
    below: the loop runs over an array that stays as the sort left it. *)
Lemma loop_untouched
    (call : NodeId -> list NodeId -> Z -> Graph -> list Route -> Search)
    (cur : NodeId) (path : list NodeId) (cost : Z) :
  (forall v c g rs g' rs',
     ~ In v path -> call v (path ++ [v]) c g rs = Found g' rs' ->
     forall u, In u path -> graph_get g' u = graph_get g u) ->
  forall nbrs g rs g' rs',
    loop call cur path cost nbrs g rs = Found g' rs' ->
    forall u, In u path -> graph_get g' u = graph_get g u.
Proof.
  intros Hcall. induction nbrs as [|nb rest IH]; intros g rs g' rs' H u Hu.
  - injection H as <- <-. reflexivity.
  - rewrite loop_cons in H.
    destruct (includes path (node nb)) eqn:E1; [eapply IH; eassumption|].
    destruct (includes avoidNodes (node nb)); [eapply IH; eassumption|].
    destruct (isEdgeAvoided avoidEdges cur (node nb)); [eapply IH; eassumption|].
    destruct (call (node nb) _ _ g rs) as [g1 rs1| |] eqn:Ec; try discriminate.
    rewrite (IH g1 rs1 g' rs' H u Hu).
    eapply Hcall; [apply includes_false; exact E1 | exact Ec | exact Hu].
Qed.

Lemma dfs_untouched (fuel : nat) :
  forall cur path cost g rs g' rs',
    In cur path ->
    search fuel cur path cost g rs = Found g' rs' ->
    (forall u, In u path -> u <> cur -> graph_get g' u = graph_get g u)
    /\ ((limit <=? Z.of_nat (length rs)) || String.eqb cur target = false ->
        exists l, graph_get g cur = Some l
                  /\ graph_get g' cur = Some (sort_by weight l)).
Proof.
  induction fuel as [|fuel IH]; intros cur path cost g rs g' rs' Hcur H;
    [discriminate|].
  rewrite dfs_step in H.
  destruct (limit <=? Z.of_nat (length rs));
    [injection H as <- <-; split; [reflexivity | discriminate]|].
  destruct (String.eqb cur target);
    [injection H as <- <-; split; [reflexivity | discriminate]|].
  destruct (graph_get g cur) as [neighbors|] eqn:Eg; [|discriminate].
  assert (Hkeep : forall u, In u path ->
            graph_get g' u
            = graph_get (graph_set g cur (sort_by weight neighbors)) u).
  { eapply loop_untouched; [|exact H].
    intros v c g1 rs1 g2 rs2 Hv Hc u Hu.
    destruct (IH v (path ++ [v]) c g1 rs1 g2 rs2) as [Hother _].
    - apply in_or_app. right. left. reflexivity.
    - exact Hc.
    - apply Hother; [apply in_or_app; left; exact Hu|].
      intros ->. contradiction. }
  split.
  - intros u Hu Hne. rewrite (Hkeep u Hu), graph_set_get.
    destruct (String.eqb cur u) eqn:E; [|reflexivity].
    apply String.eqb_eq in E. congruence.
  - intros _. exists neighbors. split; [reflexivity|].
    rewrite (Hkeep cur Hcur), graph_set_get, String.eqb_refl, Eg. reflexivity.
Qed.

End DfsFacts.

Section AllPathsClaims.

Import JS Pathfinding PathSpec AllPaths Samples.

Variables (graph : Graph) (startNodeId targetNodeId : NodeId)
          (avoidNodes : list NodeId) (avoidEdges : list AvoidEdge) (limit : Z).

Local Abbreviation good :=
  (fun r => simple_route graph avoidNodes avoidEdges startNodeId (route_path r)
                         targetNodeId (route_cost r)).

Lemma findAllPaths_found (g' : Graph) (rs : list Route) :
  findAllPaths startNodeId targetNodeId graph avoidNodes avoidEdges limit = Found g' rs ->
  exists rs0,
    dfs targetNodeId avoidNodes avoidEdges limit (S (S (length (graph_keys graph))))
        startNodeId [startNodeId] 0 graph [] = Found g' rs0
    /\ rs = sort_by route_cost rs0.
Proof.
  unfold findAllPaths. intros H.
  destruct (dfs _ _ _ _ _ _ _ _ _ _) as [g1 rs0| |]; try discriminate.
  injection H as <- <-. exists rs0. auto.
Qed.

Lemma findAllPaths_grown (g' : Graph) (rs0 : list Route) :
  dfs targetNodeId avoidNodes avoidEdges limit (S (S (length (graph_keys graph))))
      startNodeId [startNodeId] 0 graph [] = Found g' rs0 ->
  grown graph good limit [] g' rs0.
Proof.
  intros H.
  eapply (dfs_sound graph startNodeId targetNodeId avoidNodes avoidEdges limit
            (S (S (length (graph_keys graph))))
            startNodeId [] 0 graph [] g' rs0); [| | | |exact H].
  - apply same_edges_refl.
  - constructor.
  - apply walk_nil.
  - constructor; [intros [] | constructor].
Qed.

(** X20: what [findAllPaths] returns.  Every route is a simple route from
    start to target in the graph: its steps obey the avoided nodes and
    edges, no node occurs twice, and its cost is the sum of the weights.
    The routes come in ascending order of cost, there are at most [limit]
    of them, and the graph is handed back with the same edges, its
    neighbour arrays reordered. *)
Theorem findAllPaths_sound (g' : Graph) (rs : list Route) :
  findAllPaths startNodeId targetNodeId graph avoidNodes avoidEdges limit = Found g' rs ->
  Forall good rs
  /\ ascending route_cost rs
  /\ Z.of_nat (length rs) <= Z.max limit 0
  /\ same_edges graph g'.
Proof.
  intros H. destruct (findAllPaths_found g' rs H) as (rs0 & Hd & ->).
  destruct (findAllPaths_grown g' rs0 Hd) as (Hs & Hf & _ & Hb).
  split; [|split; [|split]].
  - rewrite List.Forall_forall in *. intros r Hr. apply Hf.
    eapply Permutation_in; [symmetry; apply sort_by_perm | exact Hr].
  - apply sort_by_ascending.
  - rewrite <- (Permutation_length (sort_by_perm route_cost rs0)).
    apply Hb. simpl. lia.
  - exact Hs.
Qed.

(** X21: when [findAllPaths] returns fewer than [limit] routes it has
    missed none: every simple route from start to target that obeys the
    constraints is among them, and the first route is a cheapest one. *)
Theorem findAllPaths_complete (g' : Graph) (rs : list Route) :
  findAllPaths startNodeId targetNodeId graph avoidNodes avoidEdges limit = Found g' rs ->
  Z.of_nat (length rs) < limit ->
  (forall steps c,
     simple_route graph avoidNodes avoidEdges startNodeId steps targetNodeId c ->
     In (mkRoute steps c) rs)
  /\ (forall first rest steps c,
        rs = first :: rest ->
        simple_route graph avoidNodes avoidEdges startNodeId steps targetNodeId c ->
        route_cost first <= c).
Proof.
  intros H Hlim. destruct (findAllPaths_found g' rs H) as (rs0 & Hd & ->).
  assert (Hall : forall steps c,
     simple_route graph avoidNodes avoidEdges startNodeId steps targetNodeId c ->
     In (mkRoute steps c) (sort_by route_cost rs0)).
  { intros steps c [Hw Hnd].
    eapply Permutation_in; [apply sort_by_perm|].
    rewrite <- (Permutation_length (sort_by_perm route_cost rs0)) in Hlim.
    apply (dfs_complete graph startNodeId targetNodeId avoidNodes avoidEdges limit
             (S (S (length (graph_keys graph))))
             startNodeId [] 0 graph [] g' rs0); try assumption.
    - apply same_edges_refl.
    - constructor.
    - apply walk_nil.
    - constructor; [intros [] | constructor]. }
  split; [exact Hall|].
  intros first rest steps c Hrs Hr.
  pose proof (sort_by_ascending route_cost rs0) as Hasc.
  pose proof (Hall steps c Hr) as Hin.
  rewrite Hrs in Hasc, Hin. destruct Hasc as [Hmin _].
  destruct Hin as [-> | Hin]; [simpl; lia|].
  apply (Hmin _ Hin).
Qed.

(** X22: when [findAllPaths] returns.  The recursion never goes deeper than
    the number of keys plus one, so the budget of the model is never used
    up.  On a graph all of whose neighbours are keys and for a start that
    is a key, the search returns; for a start that is not a key, a
    different target and a positive limit it ends in a [TypeError]. *)
Theorem findAllPaths_returns :
  findAllPaths startNodeId targetNodeId graph avoidNodes avoidEdges limit <> OutOfFuel
  /\ ((forall u l gn, graph_get graph u = Some l -> In gn l ->
                      In (node gn) (graph_keys graph)) ->
      In startNodeId (graph_keys graph) ->
      exists g' rs,
        findAllPaths startNodeId targetNodeId graph avoidNodes avoidEdges limit
        = Found g' rs)
  /\ (~ In startNodeId (graph_keys graph) -> startNodeId <> targetNodeId ->
      0 < limit ->
      findAllPaths startNodeId targetNodeId graph avoidNodes avoidEdges limit = Threw).
Proof.
  assert (Hfuel : dfs targetNodeId avoidNodes avoidEdges limit
                    (S (S (length (graph_keys graph))))
                    startNodeId [startNodeId] 0 graph [] <> OutOfFuel).
  { apply (dfs_no_starve graph targetNodeId avoidNodes avoidEdges limit
             (S (S (length (graph_keys graph)))) [] startNodeId 0 graph []).
    - reflexivity.
    - constructor; [intros [] | constructor].
    - intros x [].
    - simpl. lia. }
  split; [|split].
  - unfold findAllPaths.
    destruct (dfs _ _ _ _ _ _ _ _ _ _) as [g1 rs0| |]; [discriminate.. | congruence].
  - intros Hclosed Hs.
    pose proof (dfs_no_throw graph targetNodeId avoidNodes avoidEdges limit
                  (S (S (length (graph_keys graph)))) Hclosed startNodeId
                  [startNodeId] 0 graph [] Hs (same_edges_refl graph)) as Hthrow.
    unfold findAllPaths.
    destruct (dfs _ _ _ _ _ _ _ _ _ _) as [g1 rs0| |]; [|congruence..].
    eexists _, _. reflexivity.
  - intros Hs Hne Hlim. unfold findAllPaths. rewrite dfs_step.
    change (Z.of_nat (length (@nil Route))) with 0.
    destruct (limit <=? 0) eqn:E; [apply Z.leb_le in E; lia|].
    apply String.eqb_neq in Hne. rewrite Hne.
    destruct (graph_get graph startNodeId) as [l|] eqn:Eg; [|reflexivity].
    exfalso. apply Hs. eapply graph_get_key. exact Eg.
Qed.

(** X23: the side effect of [findAllPaths] on the graph it is given.  When
    the search expands the start node (start and target differ, the limit
    is positive), [graph[start]] is left sorted by weight, equal weights in
    their old order. *)
Theorem findAllPaths_sorts_in_place (g' : Graph) (rs : list Route)
    (l : list GraphNode) :
  findAllPaths startNodeId targetNodeId graph avoidNodes avoidEdges limit = Found g' rs ->
  startNodeId <> targetNodeId -> 0 < limit ->
  graph_get graph startNodeId = Some l ->
  graph_get g' startNodeId = Some (sort_by weight l)
  /\ ascending weight (sort_by weight l)
  /\ Permutation l (sort_by weight l).
Proof.
  intros H Hne Hlim Hl. destruct (findAllPaths_found g' rs H) as (rs0 & Hd & _).
  split; [|split; [apply sort_by_ascending | apply sort_by_perm]].
  destruct (dfs_untouched targetNodeId avoidNodes avoidEdges limit
              (S (S (length (graph_keys graph))))
              startNodeId [startNodeId] 0 graph [] g' rs0) as [_ Hcur];
    [left; reflexivity | exact Hd |].
  destruct Hcur as (l' & Hl' & Hg').
  - change (Z.of_nat (length (@nil Route))) with 0.
    destruct (limit <=? 0) eqn:E; [apply Z.leb_le in E; lia|].
    apply String.eqb_neq in Hne. rewrite Hne. reflexivity.
  - rewrite Hl in Hl'. injection Hl' as <-. exact Hg'.
Qed.

End AllPathsClaims.

Section AllPathsWitnesses.

Import JS Pathfinding PathSpec AllPaths Samples.

Lemma search_of_skewGraph :
  findAllPaths "A" "C" skewGraph [] [] 10 = Found skewGraphSearched skewRoutes.
Proof. vm_compute. reflexivity. Qed.

Lemma findAllPaths_sound_witness :
  Forall (fun r => simple_route skewGraph [] [] "A" (route_path r) "C" (route_cost r))
         skewRoutes
  /\ ascending route_cost skewRoutes
  /\ Z.of_nat (length skewRoutes) <= Z.max 10 0
  /\ same_edges skewGraph skewGraphSearched.
Proof.
  apply (findAllPaths_sound skewGraph "A" "C" [] [] 10 skewGraphSearched skewRoutes).
  exact search_of_skewGraph.
Defined.

Lemma findAllPaths_complete_witness :
  (forall steps c,
     simple_route skewGraph [] [] "A" steps "C" c -> In (mkRoute steps c) skewRoutes)
  /\ (forall first rest steps c,
        skewRoutes = first :: rest ->
        simple_route skewGraph [] [] "A" steps "C" c ->
        route_cost first <= c).
Proof.
  apply (findAllPaths_complete skewGraph "A" "C" [] [] 10 skewGraphSearched skewRoutes).
  - exact search_of_skewGraph.
  - simpl. lia.
Defined.

Lemma findAllPaths_sorts_in_place_witness :
  graph_get skewGraphSearched "A"
  = Some (sort_by weight [mkGraphNode "B" 300; mkGraphNode "D" 100])
  /\ ascending weight (sort_by weight [mkGraphNode "B" 300; mkGraphNode "D" 100])
  /\ Permutation [mkGraphNode "B" 300; mkGraphNode "D" 100]
                 (sort_by weight [mkGraphNode "B" 300; mkGraphNode "D" 100]).
Proof.
  apply (findAllPaths_sorts_in_place skewGraph "A" "C" [] [] 10
           skewGraphSearched skewRoutes).
  - exact search_of_skewGraph.
  - discriminate.
  - lia.
  - reflexivity.
Defined.

End AllPathsWitnesses.

Section GeneratorFacts.

Import JS Pathfinding PathSpec GraphShape MapGenerator GeneratedMaps.

(** ** The seeded generator *)

Lemma toInt32_range (z : Z) : - 2 ^ 31 <= toInt32 z < 2 ^ 31.
Proof.
  unfold toInt32. pose proof (Z.mod_pos_bound (z + 2 ^ 31) (2 ^ 32)). lia.
Qed.

Lemma toUint32_range (z : Z) : 0 <= toUint32 z < 2 ^ 32.
Proof. unfold toUint32. apply Z.mod_pos_bound. lia. Qed.

Lemma hash_range (codes : list Z) (hash : Z) :
  - 2 ^ 31 <= hash < 2 ^ 31 ->
  - 2 ^ 31 <= fold_left (fun hash chr => toInt32 (shl32 hash 5 - hash + chr)) codes hash
    < 2 ^ 31.
Proof.
  revert hash. induction codes as [|c codes IH]; intros hash H; simpl; [exact H|].
  apply IH. apply toInt32_range.
Qed.

(** X24: the seed of a map.  [stringToSeed] returns an integer between 0
    and 2^31, whatever the string. *)
Theorem stringToSeed_range (str : string) : 0 <= stringToSeed str <= 2 ^ 31.
Proof.
  unfold stringToSeed.
  pose proof (hash_range (charCodes str) 0 ltac:(lia)). lia.
Qed.

Lemma random_unit (a : Z) : (0 <= snd (random a) < 1)%R.
Proof.
  unfold random. cbn [snd].
  set (k := snd (mulberry32 a)).
  assert (Hk : 0 <= k < 2 ^ 32) by (apply toUint32_range).
  destruct Hk as [H0 H1]. apply IZR_le in H0. apply IZR_lt in H1.
  change (IZR (2 ^ 32)) with 4294967296%R in H1.
  split.
  - apply Rmult_le_pos; [exact H0|lra].
  - apply (Rmult_lt_reg_r 4294967296); [lra|].
    unfold Rdiv. rewrite Rmult_assoc, Rinv_l by lra. lra.
Qed.

(** X25: the seeded generator is a source of numbers in [0, 1).  Whatever
    its state, a call of the function [mulberry32] returns yields a number
    [k / 2^32] with [k] an integer, at least 0 and below 1. *)
Theorem random_in_unit_interval (a : Z) :
  (0 <= snd (random a) < 1)%R
  /\ exists k, 0 <= k < 2 ^ 32 /\ snd (random a) = (IZR k / 4294967296)%R.
Proof.
  split; [apply random_unit|].
  exists (snd (mulberry32 a)). split; [apply toUint32_range|reflexivity].
Qed.

(** ** Node ids *)

Lemma get_some (s : string) (n : nat) :
  (n < String.length s)%nat -> exists c, String.get n s = Some c.
Proof.
  revert n. induction s as [|c s IH]; intros n H; simpl in H; [lia|].
  destruct n as [|n]; simpl; [eauto|]. apply IH. lia.
Qed.

Lemma label_of_shape (i : nat) :
  exists c, String.get (i mod 26) labels = Some c
            /\ label_of i = String c (suffix_of (i / 26)).
Proof.
  destruct (get_some labels (i mod 26)) as (c & Hc).
  { change (String.length labels) with 26%nat. apply Nat.mod_upper_bound. lia. }
  exists c. split; [exact Hc|].
  unfold label_of. change (String.length labels) with 26%nat. rewrite Hc.
  reflexivity.
Qed.

Lemma letter_inj (i j : nat) :
  (i < 26)%nat -> (j < 26)%nat -> String.get i labels = String.get j labels -> i = j.
Proof.
  intros Hi Hj H.
  do 26 (destruct i as [|i];
         [do 26 (destruct j as [|j];
                 [first [reflexivity | discriminate H]|]); lia|]).
  lia.
Qed.

Lemma uint_string_inj (d d' : Decimal.uint) :
  NilEmpty.string_of_uint d = NilEmpty.string_of_uint d' -> d = d'.
Proof.
  intros H. pose proof (NilEmpty.usu d) as H1. rewrite H, NilEmpty.usu in H1.
  congruence.
Qed.

Lemma to_uint_nonnil (q : nat) : Nat.to_uint q <> Decimal.Nil.
Proof.
  intros H. pose proof (Unsigned.of_to q) as H1. rewrite H in H1. simpl in H1.
  subst q. discriminate H.
Qed.

Lemma suffix_of_inj (q q' : nat) : suffix_of q = suffix_of q' -> q = q'.
Proof.
  unfold suffix_of.
  destruct (Nat.eqb_spec q 0) as [->|Hq], (Nat.eqb_spec q' 0) as [->|Hq'];
    intros H; [reflexivity| | |].
  - exfalso. apply (to_uint_nonnil q'). apply uint_string_inj. simpl. exact (eq_sym H).
  - exfalso. apply (to_uint_nonnil q). apply uint_string_inj. simpl. exact H.
  - apply Unsigned.to_uint_inj, uint_string_inj, H.
Qed.

Lemma label_of_inj (i j : nat) : label_of i = label_of j -> i = j.
Proof.
  destruct (label_of_shape i) as (c & Hc & ->), (label_of_shape j) as (c' & Hc' & ->).
  intros H. injection H as <- Hs. apply suffix_of_inj in Hs.
  assert (Hm : (i mod 26 = j mod 26)%nat).
  { apply letter_inj; [apply Nat.mod_upper_bound; lia..|].
    exact (eq_trans Hc (eq_sym Hc')). }
  assert (Hd : (i / 26 = j / 26)%nat) by exact Hs.
  rewrite (Nat.div_mod_eq i 26), (Nat.div_mod_eq j 26), Hm, Hd. reflexivity.
Qed.

Lemma label_of_nonempty (i : nat) : label_of i <> "".
Proof. destruct (label_of_shape i) as (c & _ & ->). discriminate. Qed.

(** ** The canvas and rounding *)

Local Open Scope R_scope.

Lemma height_ge (numNodes : Z) : 600 <= height numNodes.
Proof.
  unfold height. rewrite <- (sqrt_square 600) at 1 by lra.
  apply sqrt_le_1_alt. unfold requiredArea, aspectRatio.
  pose proof (Rmax_l (800 * 600) (IZR numNodes * (minDistance * minDistance) * 2.5)).
  lra.
Qed.

Lemma width_ge (numNodes : Z) : 800 <= width numNodes.
Proof. unfold width, aspectRatio. pose proof (height_ge numNodes). lra. Qed.

Lemma round_near (x : R) : x - 0.5 < IZR (round x) <= x + 0.5.
Proof.
  unfold round, floor. destruct (base_Int_part (x + 0.5)) as [H1 H2]. lra.
Qed.

Lemma round_ge (x : R) (z : Z) : IZR z <= x -> IZR z <= IZR (round x).
Proof.
  intros H. apply IZR_le.
  assert (Hlt : IZR (z - 1) < IZR (round x)).
  { rewrite minus_IZR. pose proof (round_near x). lra. }
  apply lt_IZR in Hlt. lia.
Qed.

Lemma dist_is_euc (x1 y1 x2 y2 : R) :
  TrafficManager.dist x1 y1 x2 y2 = dist_euc x1 y1 x2 y2.
Proof.
  unfold TrafficManager.dist, dist_euc, Rsqr. f_equal. ring.
Qed.

Lemma dist_small (x y rx ry : R) :
  x - 0.5 < rx <= x + 0.5 -> y - 0.5 < ry <= y + 0.5 ->
  TrafficManager.dist x y rx ry <= 1.
Proof.
  intros Hx Hy. unfold TrafficManager.dist.
  rewrite <- sqrt_1 at 1. apply sqrt_le_1_alt. nra.
Qed.

(** A point at least 80 away from a node is, after rounding, still at
    least 79 away from it. *)
Lemma rounding_keeps_distance (x y nx ny : R) :
  num_lt (TrafficManager.dist x y nx ny) 80 = false ->
  79 <= TrafficManager.dist nx ny (IZR (round x)) (IZR (round y)).
Proof.
  intros H.
  assert (H80 : 80 <= TrafficManager.dist x y nx ny).
  { destruct (Rlt_dec (TrafficManager.dist x y nx ny) 80) as [Hlt|Hge]; [|lra].
    rewrite (num_lt_true _ _ Hlt) in H. discriminate. }
  pose proof (dist_small x y _ _ (round_near x) (round_near y)) as Hs.
  pose proof (triangle x y nx ny (IZR (round x)) (IZR (round y))) as Ht.
  rewrite <- !dist_is_euc in Ht.
  rewrite (dist_is_euc nx ny), distance_symm, <- dist_is_euc.
  lra.
Qed.

(** ** The node loop *)

Lemma ForallOrdPairs_snoc (A : Type) (R : A -> A -> Prop) (l : list A) (x : A) :
  ForallOrdPairs R l -> List.Forall (fun a => R a x) l -> ForallOrdPairs R (l ++ [x]).
Proof.
  induction 1 as [|a l Ha Hl IH]; intros Hx; simpl.
  - constructor; constructor.
  - inversion Hx; subst. constructor; [|auto].
    apply List.Forall_app. split; [exact Ha|]. constructor; [assumption|constructor].
Qed.

Lemma place_nodes_step (attemptsLeft : nat) (numNodes a : Z) (ns : list Node) :
  place_nodes (S attemptsLeft) numNodes a ns =
  if (Z.of_nat (length ns) <? numNodes)%Z then
    let x := padding + snd (random a) * (width numNodes - 2 * padding) in
    let y := padding + snd (random (fst (random a))) * (height numNodes - 2 * padding) in
    let a2 := fst (random (fst (random a))) in
    if existsb (fun node =>
                  num_lt (TrafficManager.dist x y (node_x node) (node_y node)) 80) ns
    then place_nodes attemptsLeft numNodes a2 ns
    else place_nodes attemptsLeft numNodes a2
           (ns ++ [mkNode (label_of (length ns)) (IZR (round x)) (IZR (round y))
                          ("Loc " +:+ label_of (length ns))])
  else (a, ns).
Proof. reflexivity. Qed.

Lemma nodes_ok_push (numNodes : Z) (ns : list Node) (r1 r2 : R) :
  nodes_ok numNodes ns -> 0 <= r1 < 1 -> 0 <= r2 < 1 ->
  let x := padding + r1 * (width numNodes - 2 * padding) in
  let y := padding + r2 * (height numNodes - 2 * padding) in
  existsb (fun node =>
             num_lt (TrafficManager.dist x y (node_x node) (node_y node)) 80) ns = false ->
  nodes_ok numNodes
    (ns ++ [mkNode (label_of (length ns)) (IZR (round x)) (IZR (round y))
                   ("Loc " +:+ label_of (length ns))]).
Proof.
  intros (Hid & Hpl & Hap) Hr1 Hr2 x y Hfar.
  pose proof (width_ge numNodes) as Hw. pose proof (height_ge numNodes) as Hh.
  assert (Hx : 50 <= x < width numNodes - 50) by (unfold x, padding; nra).
  assert (Hy : 50 <= y < height numNodes - 50) by (unfold y, padding; nra).
  split; [|split].
  - rewrite List.map_app, List.length_app, seq_app, List.map_app, Hid. reflexivity.
  - apply List.Forall_app. split; [exact Hpl|]. constructor; [|constructor].
    unfold placed. cbn [node_label node_id node_x node_y].
    split; [reflexivity|]. split; [eauto|].
    pose proof (round_near x). pose proof (round_near y).
    pose proof (round_ge x 50 (proj1 Hx)). pose proof (round_ge y 50 (proj1 Hy)).
    lra.
  - apply ForallOrdPairs_snoc; [exact Hap|].
    apply List.Forall_forall. intros n Hn. unfold apart. cbn [node_x node_y].
    apply rounding_keeps_distance.
    destruct (num_lt _ 80) eqn:E; [|reflexivity].
    rewrite <- Hfar. symmetry. apply existsb_exists. exists n. split; assumption.
Qed.

Lemma place_nodes_ok (numNodes : Z) (attemptsLeft : nat) :
  forall a ns, nodes_ok numNodes ns ->
               nodes_ok numNodes (snd (place_nodes attemptsLeft numNodes a ns)).
Proof.
  induction attemptsLeft as [|k IH]; intros a ns H; [exact H|].
  rewrite place_nodes_step.
  destruct (Z.of_nat (length ns) <? numNodes)%Z; [|exact H].
  cbv zeta. destruct (existsb _ ns) eqn:E; apply IH; [exact H|].
  apply nodes_ok_push; [exact H|apply random_unit..|exact E].
Qed.

Lemma place_nodes_length (numNodes : Z) (attemptsLeft : nat) :
  forall a ns,
    (length ns <= length (snd (place_nodes attemptsLeft numNodes a ns))
     <= length ns + attemptsLeft)%nat
    /\ (Z.of_nat (length (snd (place_nodes attemptsLeft numNodes a ns)))
        <= Z.max numNodes (Z.of_nat (length ns)))%Z.
Proof.
  induction attemptsLeft as [|k IH]; intros a ns; [simpl; lia|].
  rewrite place_nodes_step.
  destruct (Z.ltb_spec (Z.of_nat (length ns)) numNodes) as [Hlt|Hge]; [|simpl; lia].
  cbv zeta. destruct (existsb _ ns).
  - specialize (IH (fst (random (fst (random a)))) ns). lia.
  - match goal with |- context [place_nodes k numNodes ?a2 ?ns2] =>
      specialize (IH a2 ns2); assert (Hl : length ns2 = S (length ns))
        by (rewrite List.length_app; simpl; lia) end.
    rewrite Hl in IH. lia.
Qed.

Lemma place_nodes_first (numNodes : Z) (attemptsLeft : nat) (a : Z) :
  (0 < numNodes)%Z ->
  (1 <= length (snd (place_nodes (S attemptsLeft) numNodes a [])))%nat.
Proof.
  intros H. rewrite place_nodes_step.
  destruct (Z.ltb_spec (Z.of_nat (length (@nil Node))) numNodes) as [_|Hge];
    [|simpl in Hge; lia].
  cbv zeta. cbn [existsb].
  match goal with |- context [place_nodes attemptsLeft numNodes ?a2 ?ns2] =>
    pose proof (place_nodes_length numNodes attemptsLeft a2 ns2) as Hl end.
  simpl length in Hl at 1. lia.
Qed.

Lemma generated_nodes (seedStr : string) (numNodes : Z) :
  nodes (generateMapData seedStr numNodes)
  = snd (place_nodes 2000 numNodes (stringToSeed seedStr) []).
Proof.
  unfold generateMapData. destruct (place_nodes _ _ _ _). reflexivity.
Qed.

Lemma generated_nodes_ok (seedStr : string) (numNodes : Z) :
  nodes_ok numNodes (nodes (generateMapData seedStr numNodes)).
Proof.
  rewrite generated_nodes. apply place_nodes_ok.
  split; [reflexivity|]. split; constructor.
Qed.

Lemma nodes_ok_id (numNodes : Z) (ns : list Node) (j : nat) (b : Node) :
  nodes_ok numNodes ns -> nth_error ns j = Some b -> node_id b = label_of j.
Proof.
  intros (Hid & _) Hj.
  pose proof (map_nth_error node_id j ns Hj) as H1.
  rewrite Hid, nth_error_map, nth_error_seq in H1.
  assert (Hlt : (j < length ns)%nat) by (apply nth_error_Some; congruence).
  apply Nat.ltb_lt in Hlt. rewrite Hlt in H1. simpl in H1. congruence.
Qed.

Lemma distance_sym (a b : Node) : distance a b = distance b a.
Proof. unfold distance. rewrite !dist_is_euc. apply distance_symm. Qed.

Lemma nodes_ok_apart (numNodes : Z) (ns : list Node) (i j : nat) (a b : Node) :
  nodes_ok numNodes ns ->
  nth_error ns i = Some a -> nth_error ns j = Some b -> i <> j ->
  node_id a <> node_id b /\ 79 <= distance a b.
Proof.
  intros Hok Hi Hj Hij.
  assert (Hne : node_id a <> node_id b).
  { rewrite (nodes_ok_id _ _ _ _ Hok Hi), (nodes_ok_id _ _ _ _ Hok Hj).
    intros H. apply Hij, label_of_inj, H. }
  split; [exact Hne|].
  destruct Hok as (_ & _ & Hap).
  destruct (ForallOrdPairs_In Hap a b (nth_error_In _ _ Hi) (nth_error_In _ _ Hj))
    as [Heq | [H | H]].
  - subst b. congruence.
  - exact H.
  - unfold apart in H. rewrite distance_sym. exact H.
Qed.

Lemma nodes_ok_NoDup (numNodes : Z) (ns : list Node) :
  nodes_ok numNodes ns -> List.NoDup (List.map node_id ns).
Proof.
  intros (Hid & _). rewrite Hid.
  generalize (seq_NoDup (length ns) 0). generalize (seq 0 (length ns)) as l.
  induction l as [|i l IH]; intros H; simpl; [constructor|].
  inversion H as [|? ? Hnin Hnd]; subst. constructor; [|auto].
  intros Hin. apply in_map_iff in Hin. destruct Hin as (j & Hj & Hin).
  apply label_of_inj in Hj. subst j. auto.
Qed.

Lemma nodes_ok_nonempty (numNodes : Z) (ns : list Node) :
  nodes_ok numNodes ns -> ~ In "" (List.map node_id ns).
Proof.
  intros (Hid & _). rewrite Hid. intros H. apply in_map_iff in H.
  destruct H as (i & Hi & _). exact (label_of_nonempty i Hi).
Qed.

(** ** Pair keys *)






Lemma no_dash_digits (d : Decimal.uint) : no_dash (NilEmpty.string_of_uint d).
Proof.
  unfold no_dash. induction d; simpl; intros H;
    try (destruct H as [H|H]; [discriminate H|auto]); auto.
Qed.

Lemma no_dash_label (i : nat) : no_dash (label_of i).
Proof.
  destruct (label_of_shape i) as (c & Hc & ->).
  unfold no_dash. simpl. intros [H|H].
  - subst c. assert (Hlt : (i mod 26 < 26)%nat) by (apply Nat.mod_upper_bound; lia).
    revert Hc Hlt. generalize (i mod 26)%nat as k. intros k Hc Hlt.
    do 26 (destruct k as [|k]; [discriminate Hc|]). lia.
  - unfold suffix_of in H. destruct (_ =? 0)%nat; [exact H|].
    exact (no_dash_digits _ H).
Qed.

Lemma append_empty (s : string) : "" +:+ s = s.
Proof. reflexivity. Qed.

Lemma append_String (c : ascii) (s t : string) : String c s +:+ t = String c (s +:+ t).
Proof. reflexivity. Qed.

Lemma append_dash_inj (s1 s2 t1 t2 : string) :
  no_dash s1 -> no_dash s2 ->
  s1 +:+ "-" +:+ t1 = s2 +:+ "-" +:+ t2 -> s1 = s2 /\ t1 = t2.
Proof.
  unfold no_dash. revert s2.
  induction s1 as [|c s1 IH]; intros [|c' s2] H1 H2 H;
    rewrite ?append_empty, ?append_String, ?append_empty in H; simpl in H1, H2.
  - injection H as ->. auto.
  - injection H as <- _. exfalso. apply H2. auto.
  - injection H as -> _. exfalso. apply H1. auto.
  - injection H as -> H. destruct (IH s2) as [-> ->]; auto.
Qed.

Lemma pairId_inj (a b c d : string) :
  no_dash a -> no_dash b -> no_dash c -> no_dash d ->
  pairId a b = pairId c d -> (a = c /\ b = d) \/ (a = d /\ b = c).
Proof.
  intros Ha Hb Hc Hd. unfold pairId.
  destruct (String.ltb b a), (String.ltb d c); intros H;
    apply append_dash_inj in H; try assumption; destruct H; auto.
Qed.

(** ** Candidates *)

Lemma in_combine_seq (A : Type) (l : list A) (s j : nat) (b : A) :
  In (j, b) (combine (seq s (length l)) l)
  <-> (s <= j)%nat /\ nth_error l (j - s) = Some b.
Proof.
  revert s. induction l as [|x l IH]; intros s; simpl.
  - split; [tauto|]. intros [_ H]. destruct (j - s)%nat; discriminate.
  - rewrite IH. split.
    + intros [H | [H1 H2]].
      * injection H as <- <-. rewrite Nat.sub_diag. split; [lia|reflexivity].
      * split; [lia|]. replace (j - s)%nat with (S (j - S s)) by lia. exact H2.
    + intros [H1 H2]. destruct (Nat.eq_dec s j) as [->|Hne].
      * rewrite Nat.sub_diag in H2. injection H2 as ->. left. reflexivity.
      * right. split; [lia|].
        replace (j - s)%nat with (S (j - S s)) in H2 by lia. exact H2.
Qed.

Lemma in_insert_by_dist (c x : Candidate) (l : list Candidate) :
  In c (insert_by_dist x l) <-> c = x \/ In c l.
Proof.
  induction l as [|b l IH]; simpl.
  - split; intros [H|H]; auto.
  - destruct (num_lt _ _); simpl; [rewrite IH|]; split; intros H;
      repeat destruct H as [H|H]; auto.
Qed.

Lemma in_sort_by_dist (c : Candidate) (l : list Candidate) :
  In c (sort_by_dist l) <-> In c l.
Proof.
  induction l as [|x l IH]; simpl; [tauto|].
  rewrite in_insert_by_dist, IH. split; intros [H|H]; auto.
Qed.

Lemma sort_by_dist_head (l : list Candidate) :
  match sort_by_dist l with
  | [] => l = []
  | c0 :: _ => forall c, In c l -> cand_dist c0 <= cand_dist c
  end.
Proof.
  induction l as [|x l IH]; simpl; [reflexivity|].
  destruct (sort_by_dist l) as [|b rest] eqn:E; simpl.
  - subst l. intros c [<-|[]]. lra.
  - destruct (Rlt_dec (cand_dist b) (cand_dist x)) as [Hlt|Hge].
    + rewrite (num_lt_true _ _ Hlt). intros c [<-|Hc]; [lra|auto].
    + rewrite (num_lt_false _ _ Hge). intros c [<-|Hc]; [lra|].
      specialize (IH c Hc). lra.
Qed.

Lemma in_candidates (ns : list Node) (i : nat) (a : Node) (c : Candidate) :
  In c (candidates ns i a)
  <-> exists j, j <> i /\ nth_error ns j = Some (cand_node c)
                /\ cand_dist c = distance a (cand_node c).
Proof.
  unfold candidates. rewrite in_sort_by_dist, in_map_iff. split.
  - intros ([j b] & <- & Hin). apply filter_In in Hin. destruct Hin as [Hin Hne].
    apply in_combine_seq in Hin. rewrite Nat.sub_0_r in Hin. cbn [fst snd] in *.
    exists j. split; [|split; [apply Hin|reflexivity]].
    intros ->. rewrite Nat.eqb_refl in Hne. discriminate.
  - intros (j & Hne & Hj & Hd). exists (j, cand_node c). split.
    + destruct c as [b d]. cbn [snd cand_node cand_dist] in *. rewrite Hd. reflexivity.
    + apply filter_In. split.
      * apply in_combine_seq. rewrite Nat.sub_0_r. split; [lia|exact Hj].
      * cbn [fst]. apply negb_true_iff, Nat.eqb_neq, Hne.
Qed.

(** ** The edge loops *)

Lemma fold_left_keeps (A B : Type) (f : A -> B -> A) (P : A -> Prop) (l : list B) :
  (forall st x, In x l -> P st -> P (f st x)) ->
  forall st, P st -> P (fold_left f l st).
Proof.
  induction l as [|x l IH]; intros Hf st H; simpl; [exact H|].
  apply IH; [intros; apply Hf; simpl; auto|]. apply Hf; simpl; auto.
Qed.

Lemma fold_left_reaches (A B : Type) (f : A -> B -> A) (Q : A -> Prop)
    (l : list B) (x : B) :
  In x l ->
  (forall st, Q (f st x)) ->
  (forall st y, Q st -> Q (f st y)) ->
  forall st, Q (fold_left f l st).
Proof.
  intros Hin Hx Hmono. induction l as [|y l IH]; intros st; [destruct Hin|].
  simpl. destruct Hin as [->|Hin]; [|apply IH, Hin].
  apply fold_left_keeps; [intros; apply Hmono; assumption|apply Hx].
Qed.

Lemma connect_cases (nodeA : Node) (st : EdgeState) (c : Candidate) :
  (includes (processedPairs st) (pairId (node_id nodeA) (node_id (cand_node c))) = true
   /\ connect nodeA st c = st)
  \/ (includes (processedPairs st) (pairId (node_id nodeA) (node_id (cand_node c))) = false
      /\ connect nodeA st c =
         mkEdgeState (fst (random (rng st)))
           (made st ++ [mkEdge (node_id nodeA) (node_id (cand_node c))
                          (round (cand_dist c * (0.8 + snd (random (rng st)) * 1.2)))])
           (processedPairs st ++ [pairId (node_id nodeA) (node_id (cand_node c))])).
Proof.
  unfold connect. destruct (includes _ _); [left|right]; split; reflexivity.
Qed.

Lemma connect_keeps (ns : list Node) (a : Node) (st : EdgeState) (c : Candidate) :
  In a ns -> In (cand_node c) ns ->
  node_id a <> node_id (cand_node c) ->
  cand_dist c = distance a (cand_node c) -> 79 <= cand_dist c ->
  edges_ok ns st -> edges_ok ns (connect a st c).
Proof.
  intros Ha Hc Hne Hd H79 (Hpp & Hnd & Hes).
  destruct (connect_cases a st c) as [[_ ->] | [Hnew ->]]; [repeat split; assumption|].
  pose proof (random_unit (rng st)) as Hr.
  set (r := snd (random (rng st))) in *.
  split; [|split]; cbn [made processedPairs].
  - rewrite List.map_app, Hpp. reflexivity.
  - apply NoDup_snoc; [exact Hnd|].
    intros Hin. apply includes_iff in Hin. congruence.
  - apply List.Forall_app. split; [exact Hes|]. constructor; [|constructor].
    exists a, (cand_node c). cbn [source target edge_weight]. rewrite <- Hd.
    repeat (split; [assumption || reflexivity|]).
    pose proof (round_near (cand_dist c * (0.8 + r * 1.2))) as Hround.
    assert (Hlo : 0.8 * cand_dist c <= cand_dist c * (0.8 + r * 1.2)) by nra.
    assert (Hhi : cand_dist c * (0.8 + r * 1.2) < 2 * cand_dist c) by nra.
    split; [lra|].
    apply le_IZR. apply (round_ge _ 63). lra.
Qed.

Lemma connect_grows (a : Node) (st : EdgeState) (c : Candidate) (p : string) :
  In p (processedPairs st) -> In p (processedPairs (connect a st c)).
Proof.
  intros H. destruct (connect_cases a st c) as [[_ ->] | [_ ->]]; [exact H|].
  cbn [processedPairs]. apply in_or_app. auto.
Qed.

Lemma connect_marks (a : Node) (st : EdgeState) (c : Candidate) :
  In (pairId (node_id a) (node_id (cand_node c))) (processedPairs (connect a st c)).
Proof.
  destruct (connect_cases a st c) as [[H ->] | [_ ->]].
  - apply includes_iff, H.
  - cbn [processedPairs]. apply in_or_app. right. left. reflexivity.
Qed.



Lemma connect_node_unfold (ns : list Node) (st : EdgeState) (i : nat) (a : Node) :
  connect_node ns st (i, a) =
  fold_left (connect a)
    (firstn (2 + (if num_lt 0.6 (snd (random (rng st))) then 1 else 0))
            (candidates ns i a))
    (mkEdgeState (fst (random (rng st))) (made st) (processedPairs st)).
Proof. reflexivity. Qed.

Lemma in_firstn (A : Type) (k : nat) (l : list A) (x : A) :
  In x (firstn k l) -> In x l.
Proof.
  intros H. rewrite <- (firstn_skipn k l). apply in_or_app. auto.
Qed.

Lemma connect_node_keeps (numNodes : Z) (ns : list Node) (st : EdgeState)
    (i : nat) (a : Node) :
  nodes_ok numNodes ns -> nth_error ns i = Some a ->
  edges_ok ns st -> edges_ok ns (connect_node ns st (i, a)).
Proof.
  intros Hok Hi Hst. rewrite connect_node_unfold.
  apply fold_left_keeps; [|exact Hst].
  intros st' c Hc Hst'. apply in_firstn, in_candidates in Hc.
  destruct Hc as (j & Hne & Hj & Hd).
  destruct (nodes_ok_apart _ _ _ _ _ _ Hok Hi Hj (not_eq_sym Hne)) as [Hid H79].
  apply connect_keeps; try assumption.
  - exact (nth_error_In _ _ Hi).
  - exact (nth_error_In _ _ Hj).
  - rewrite Hd. exact H79.
Qed.

Lemma connect_node_grows (ns : list Node) (st : EdgeState) (ia : nat * Node)
    (p : string) :
  In p (processedPairs st) -> In p (processedPairs (connect_node ns st ia)).
Proof.
  destruct ia as [i a]. intros H. rewrite connect_node_unfold.
  apply (fold_left_keeps _ _ _ (fun st => In p (processedPairs st))); [|exact H].
  intros st' c _. apply connect_grows.
Qed.


Lemma generated_edges (seedStr : string) (numNodes : Z) :
  edges (generateMapData seedStr numNodes) = made (final_state seedStr numNodes).
Proof.
  unfold generateMapData, final_state. destruct (place_nodes _ _ _ _). reflexivity.
Qed.

Lemma final_state_ok (seedStr : string) (numNodes : Z) :
  edges_ok (nodes (generateMapData seedStr numNodes)) (final_state seedStr numNodes).
Proof.
  pose proof (generated_nodes_ok seedStr numNodes) as Hok.
  rewrite generated_nodes in *. unfold final_state.
  apply fold_left_keeps.
  - intros st [i a] Hin Hst. apply in_combine_seq in Hin.
    rewrite Nat.sub_0_r in Hin. apply (connect_node_keeps numNodes); tauto.
  - split; [reflexivity|]. split; constructor.
Qed.



Lemma nodes_ok_no_dash (numNodes : Z) (ns : list Node) (a : Node) :
  nodes_ok numNodes ns -> In a ns -> no_dash (node_id a).
Proof.
  intros Hok Ha. apply In_nth_error in Ha. destruct Ha as (i & Hi).
  rewrite (nodes_ok_id _ _ _ _ Hok Hi). apply no_dash_label.
Qed.

Lemma connect_node_marks (ns : list Node) (st : EdgeState) (i : nat) (a : Node)
    (c0 : Candidate) (rest : list Candidate) :
  candidates ns i a = c0 :: rest ->
  In (pairId (node_id a) (node_id (cand_node c0)))
     (processedPairs (connect_node ns st (i, a))).
Proof.
  intros Hc. rewrite connect_node_unfold, Hc.
  change (firstn (2 + ?k) (c0 :: rest)) with (c0 :: firstn (1 + k) rest).
  cbn [fold_left].
  apply (fold_left_keeps _ _ _
           (fun st => In (pairId (node_id a) (node_id (cand_node c0)))
                         (processedPairs st))).
  - intros st' c _. apply connect_grows.
  - apply connect_marks.
Qed.

Lemma nearest_is_marked (seedStr : string) (numNodes : Z) (i : nat) (a : Node)
    (c0 : Candidate) (rest : list Candidate) :
  nth_error (nodes (generateMapData seedStr numNodes)) i = Some a ->
  candidates (nodes (generateMapData seedStr numNodes)) i a = c0 :: rest ->
  In (pairId (node_id a) (node_id (cand_node c0)))
     (processedPairs (final_state seedStr numNodes)).
Proof.
  rewrite generated_nodes. intros Hi Hc. unfold final_state.
  apply (fold_left_reaches _ _ _
           (fun st => In (pairId (node_id a) (node_id (cand_node c0)))
                         (processedPairs st)) _ (i, a)).
  - apply in_combine_seq. rewrite Nat.sub_0_r. split; [lia|exact Hi].
  - intros st. apply (connect_node_marks _ _ _ _ _ rest). exact Hc.
  - intros st y. apply connect_node_grows.
Qed.

Lemma nearest_joined_in (numNodes : Z) (ns : list Node) (st : EdgeState) :
  nodes_ok numNodes ns -> edges_ok ns st ->
  (forall i a c0 rest,
     nth_error ns i = Some a -> candidates ns i a = c0 :: rest ->
     In (pairId (node_id a) (node_id (cand_node c0))) (processedPairs st)) ->
  forall a b,
    In a ns -> In b ns -> node_id a <> node_id b ->
    exists c, In c ns /\ node_id c <> node_id a
              /\ distance a c <= distance a b
              /\ List.Exists (fun e => joins e a c) (made st).
Proof.
  intros Hok (Hpp & _ & Hes) Hmark a b Ha Hb Hne.
  destruct (In_nth_error _ _ Ha) as (i & Hi).
  destruct (In_nth_error _ _ Hb) as (j & Hj).
  assert (Hij : j <> i) by (intros ->; apply Hne; congruence).
  assert (Hcb : In (mkCandidate b (distance a b)) (candidates ns i a)).
  { apply in_candidates. exists j. cbn [cand_node cand_dist]. auto. }
  destruct (candidates ns i a) as [|c0 rest] eqn:Ecand; [destruct Hcb|].
  assert (Hc0 : In c0 (candidates ns i a)) by (rewrite Ecand; left; reflexivity).
  apply in_candidates in Hc0. destruct Hc0 as (j0 & Hj0 & Hn0 & Hd0).
  destruct (nodes_ok_apart _ _ _ _ _ _ Hok Hi Hn0 (not_eq_sym Hj0)) as [Hid0 _].
  exists (cand_node c0).
  split; [exact (nth_error_In _ _ Hn0)|]. split; [auto|]. split.
  - rewrite <- Hd0.
    change (distance a b) with (cand_dist (mkCandidate b (distance a b))).
    unfold candidates in Ecand, Hcb.
    match type of Ecand with sort_by_dist ?l = _ =>
      pose proof (sort_by_dist_head l) as Hhead; rewrite Ecand in Hhead;
      apply Hhead; apply in_sort_by_dist; rewrite Ecand; exact Hcb end.
  - specialize (Hmark i a c0 rest Hi Ecand).
    rewrite Hpp in Hmark. apply in_map_iff in Hmark.
    destruct Hmark as (e & Hkey & He).
    apply List.Exists_exists. exists e. split; [exact He|].
    pose proof (proj1 (List.Forall_forall _ _) Hes e He) as Hedge.
    destruct Hedge as (a' & b' & Ha' & Hb' & Hs & Ht & _).
    unfold pair_of in Hkey. unfold joins.
    apply pairId_inj in Hkey.
    + destruct Hkey as [[-> ->] | [-> ->]]; auto.
    + rewrite Hs. exact (nodes_ok_no_dash _ _ _ Hok Ha').
    + rewrite Ht. exact (nodes_ok_no_dash _ _ _ Hok Hb').
    + exact (nodes_ok_no_dash _ _ _ Hok Ha).
    + exact (nodes_ok_no_dash _ _ _ Hok (nth_error_In _ _ Hn0)).
Qed.

Lemma nearest_joined (seedStr : string) (numNodes : Z) (a b : Node) :
  In a (nodes (generateMapData seedStr numNodes)) ->
  In b (nodes (generateMapData seedStr numNodes)) ->
  node_id a <> node_id b ->
  exists c, In c (nodes (generateMapData seedStr numNodes))
            /\ node_id c <> node_id a
            /\ distance a c <= distance a b
            /\ List.Exists (fun e => joins e a c)
                            (edges (generateMapData seedStr numNodes)).
Proof.
  rewrite generated_edges.
  apply (nearest_joined_in numNodes _ _ (generated_nodes_ok seedStr numNodes)
                           (final_state_ok seedStr numNodes)).
  exact (nearest_is_marked seedStr numNodes).
Qed.

Lemma generated_map_wf (seedStr : string) (numNodes : Z) :
  map_wf (nodes (generateMapData seedStr numNodes))
         (edges (generateMapData seedStr numNodes)).
Proof.
  pose proof (generated_nodes_ok seedStr numNodes) as Hok.
  pose proof (final_state_ok seedStr numNodes) as (_ & _ & Hes).
  split; [exact (nodes_ok_NoDup _ _ Hok)|].
  split; [exact (nodes_ok_nonempty _ _ Hok)|].
  intros e He. rewrite generated_edges in He.
  destruct (proj1 (List.Forall_forall _ _) Hes e He)
    as (a & b & Ha & Hb & -> & -> & _ & _ & Hw).
  split; [apply in_map, Ha|]. split; [apply in_map, Hb|]. lia.
Qed.

(** ** The first two nodes of the default map *)

Lemma round_eq (x : R) (z : Z) : IZR z - 0.5 <= x < IZR z + 0.5 -> round x = z.
Proof.
  intros H. unfold round, floor. symmetry. apply Int_part_spec. lra.
Qed.

Lemma random_eq (a a' k : Z) :
  mulberry32 a = (a', k) -> random a = (a', IZR k / 4294967296).
Proof. unfold random. intros ->. reflexivity. Qed.

Lemma place_nodes_fresh (attemptsLeft : nat) (numNodes a a1 k1 a2 k2 : Z)
    (ns : list Node) (x y : R) :
  (Z.of_nat (length ns) < numNodes)%Z ->
  mulberry32 a = (a1, k1) -> mulberry32 a1 = (a2, k2) ->
  x = padding + IZR k1 / 4294967296 * (width numNodes - 2 * padding) ->
  y = padding + IZR k2 / 4294967296 * (height numNodes - 2 * padding) ->
  existsb (fun node =>
             num_lt (TrafficManager.dist x y (node_x node) (node_y node)) 80) ns = false ->
  place_nodes (S attemptsLeft) numNodes a ns
  = place_nodes attemptsLeft numNodes a2
      (ns ++ [mkNode (label_of (length ns)) (IZR (round x)) (IZR (round y))
                     ("Loc " +:+ label_of (length ns))]).
Proof.
  intros Hlt H1 H2 -> -> Hfar. rewrite place_nodes_step.
  apply Z.ltb_lt in Hlt. rewrite Hlt. cbv zeta.
  rewrite (random_eq _ _ _ H1). cbn [fst snd].
  rewrite (random_eq _ _ _ H2). cbn [fst snd].
  rewrite Hfar. reflexivity.
Qed.

Lemma place_nodes_done (attemptsLeft : nat) (numNodes a : Z) (ns : list Node) :
  (numNodes <= Z.of_nat (length ns))%Z ->
  place_nodes attemptsLeft numNodes a ns = (a, ns).
Proof.
  intros H. destruct attemptsLeft as [|k]; [reflexivity|].
  rewrite place_nodes_step. apply Z.ltb_ge in H. rewrite H. reflexivity.
Qed.

Lemma far_in_x (x y nx ny : R) :
  nx + 80 <= x -> num_lt (TrafficManager.dist x y nx ny) 80 = false.
Proof.
  intros H. apply num_lt_false. unfold TrafficManager.dist.
  assert (Hx : x - nx <= sqrt ((x - nx) ^ 2 + (y - ny) ^ 2)).
  { apply Rle_trans with (sqrt ((x - nx) ^ 2)).
    - rewrite sqrt_pow2 by lra. lra.
    - apply sqrt_le_1_alt. pose proof (pow2_ge_0 (y - ny)). lra. }
  lra.
Qed.

Lemma canvas_of_two : width 2 = 800 /\ height 2 = 600.
Proof.
  assert (Hh : height 2 = 600).
  { unfold height, requiredArea, aspectRatio, minDistance.
    rewrite Rmax_left by lra.
    replace (800 * 600 / (800 / 600)) with (600 * 600) by lra.
    apply sqrt_square. lra. }
  split; [|exact Hh]. unfold width, aspectRatio. rewrite Hh. lra.
Qed.

Lemma warehouse_draws :
  stringToSeed "Warehouse-1" = 1836401543%Z
  /\ mulberry32 1836401543 = (3667967356, 1180992786)%Z
  /\ mulberry32 3667967356 = (5499533169, 3587535058)%Z
  /\ mulberry32 5499533169 = (7331098982, 3916188560)%Z
  /\ mulberry32 7331098982 = (9162664795, 1841827253)%Z.
Proof. vm_compute. repeat split; reflexivity. Qed.

Lemma warehouse_nodes :
  nodes (generateMapData "Warehouse-1" 2)
  = [mkNode "A" 242 468 "Loc A"; mkNode "B" 688 264 "Loc B"].
Proof.
  destruct warehouse_draws as (Hseed & H1 & H2 & H3 & H4).
  destruct canvas_of_two as [Hw Hh].
  rewrite generated_nodes, Hseed.
  assert (E1 : place_nodes 2000 2 1836401543 []
               = place_nodes 1999 2 5499533169 [mkNode "A" 242 468 "Loc A"]).
  { rewrite (place_nodes_fresh 1999 2 _ _ _ _ _ []
               (50 + 1180992786 / 4294967296 * 700)
               (50 + 3587535058 / 4294967296 * 500)
               ltac:(simpl; lia) H1 H2);
      [|rewrite Hw; unfold padding; lra|rewrite Hh; unfold padding; lra|reflexivity].
    rewrite (round_eq _ 242) by lra. rewrite (round_eq _ 468) by lra.
    reflexivity. }
  assert (E2 : place_nodes 1999 2 5499533169 [mkNode "A" 242 468 "Loc A"]
               = place_nodes 1998 2 9162664795
                   [mkNode "A" 242 468 "Loc A"; mkNode "B" 688 264 "Loc B"]).
  { rewrite (place_nodes_fresh 1998 2 _ _ _ _ _ [mkNode "A" 242 468 "Loc A"]
               (50 + 3916188560 / 4294967296 * 700)
               (50 + 1841827253 / 4294967296 * 500)
               ltac:(simpl; lia) H3 H4);
      [|rewrite Hw; unfold padding; lra|rewrite Hh; unfold padding; lra
       |cbn [existsb node_x node_y]; rewrite far_in_x by lra; reflexivity].
    rewrite (round_eq _ 688) by lra. rewrite (round_eq _ 264) by lra.
    reflexivity. }
  rewrite E1, E2, place_nodes_done by (simpl; lia). reflexivity.
Qed.

(** X26: the nodes of a generated map.  For a positive node count
    [generateMapData] returns at least one node, at most as many as asked
    for and at most 2000 (one per attempt); the node at index [i] has the
    id [label_of i] (a letter, followed by the number of the round through
    the alphabet after the first), so that the ids are distinct and not
    empty. *)
Theorem generateMapData_node_ids (seedStr : string) (numNodes : Z) :
  (0 < numNodes)%Z ->
  let ns := nodes (generateMapData seedStr numNodes) in
  (1 <= length ns <= 2000)%nat
  /\ (Z.of_nat (length ns) <= numNodes)%Z
  /\ List.map node_id ns = List.map label_of (seq 0 (length ns))
  /\ List.NoDup (List.map node_id ns)
  /\ ~ In "" (List.map node_id ns).
Proof.
  intros Hpos ns. pose proof (generated_nodes_ok seedStr numNodes) as Hok.
  fold ns in Hok.
  assert (Hlen : (1 <= length ns <= 2000)%nat /\ (Z.of_nat (length ns) <= numNodes)%Z).
  { subst ns. rewrite generated_nodes.
    pose proof (place_nodes_first numNodes 1999 (stringToSeed seedStr) Hpos) as H1.
    pose proof (place_nodes_length numNodes 2000 (stringToSeed seedStr) []) as H2.
    change (length (@nil Node)) with 0%nat in H2.
    change (S 1999) with 2000%nat in H1. lia. }
  destruct Hlen as [H1 H2]. split; [exact H1|]. split; [exact H2|].
  split; [apply Hok|].
  split; [exact (nodes_ok_NoDup _ _ Hok)|exact (nodes_ok_nonempty _ _ Hok)].
Qed.

(** X27: where the generator puts the nodes.  Every node of a generated
    map carries the label [Loc <id>], has whole-number coordinates at least
    50 from the left and top of the canvas and inside it, and any two of
    its nodes are at least 79 apart. *)
Theorem generateMapData_nodes_apart (seedStr : string) (numNodes : Z) :
  let ns := nodes (generateMapData seedStr numNodes) in
  List.Forall (placed numNodes) ns /\ ForallOrdPairs apart ns.
Proof. intros ns. apply (generated_nodes_ok seedStr numNodes). Qed.


(** X29: a generated map is a valid input of [buildGraph].  On the nodes
    and edges [generateMapData] returns, [buildGraph] returns a graph whose
    keys are the node ids, in which every neighbour is a key and every
    weight is positive. *)
Theorem generateMapData_builds (seedStr : string) (numNodes : Z) :
  let m := generateMapData seedStr numNodes in
  exists g, buildGraph (nodes m) (edges m) = Some g
            /\ graph_keys g = List.map node_id (nodes m)
            /\ graph_wf g.
Proof. intros m. apply buildGraph_wf, generated_map_wf. Qed.

(** X30: every node is joined to a nearest node.  For any node [a] of a
    generated map with another node [b], the map has an edge between [a]
    and some other node [c] that is no farther from [a] than [b] is: no
    node of a map with two or more nodes is isolated. *)
Theorem generateMapData_joins_nearest (seedStr : string) (numNodes : Z) (a b : Node) :
  In a (nodes (generateMapData seedStr numNodes)) ->
  In b (nodes (generateMapData seedStr numNodes)) ->
  node_id a <> node_id b ->
  exists c, In c (nodes (generateMapData seedStr numNodes))
            /\ node_id c <> node_id a
            /\ distance a c <= distance a b
            /\ List.Exists (fun e => joins e a c)
                            (edges (generateMapData seedStr numNodes)).
Proof. apply nearest_joined. Qed.

Lemma generateMapData_node_ids_witness :
  (0 < 14)%Z
  /\ (1 <= length (nodes (generateMapData "Warehouse-1" 14)) <= 2000)%nat
  /\ (Z.of_nat (length (nodes (generateMapData "Warehouse-1" 14))) <= 14)%Z.
Proof.
  split; [lia|].
  destruct (generateMapData_node_ids "Warehouse-1" 14) as (H1 & H2 & _); [lia|].
  split; [exact H1|exact H2].
Defined.

Lemma generateMapData_joins_nearest_witness :
  exists c,
    In c (nodes (generateMapData "Warehouse-1" 2))
    /\ node_id c <> "A"
    /\ List.Exists (fun e => joins e (mkNode "A" 242 468 "Loc A") c)
                    (edges (generateMapData "Warehouse-1" 2)).
Proof.
  destruct (generateMapData_joins_nearest "Warehouse-1" 2
              (mkNode "A" 242 468 "Loc A") (mkNode "B" 688 264 "Loc B"))
    as (c & Hc & Hne & _ & He).
  - rewrite warehouse_nodes. left. reflexivity.
  - rewrite warehouse_nodes. right. left. reflexivity.
  - discriminate.
  - exists c. split; [exact Hc|]. split; [exact Hne|exact He].
Defined.

End GeneratorFacts.
